(** * ZeroID server: a shallow embedding of the issuance, escrow, cache and
    verification code, with the properties the specification states about it.

    Source files embedded here (paths relative to [packages/server/src]):
    - [crypto/aes.ts], [crypto/keys.ts], [crypto/eddsa.ts]
    - [db/stores.ts]
    - [issuer/escrow.ts], [issuer/credential.ts], [issuer/poseidon.ts]
    - [verifier/cache.ts], [verifier/aggregate.ts], [verifier/verify.ts]
    - [api/middleware.ts], [api/routes/proof.ts], [api/routes/aggregate.ts]
    - [kyc/merkle.ts], [sanctions/ofac.ts], [db/orbit.ts] (the peer set)

    Conventions.
    - A Node [Buffer] is a [list byte]; a JS string is a [string].  A JS string
      that is turned into bytes with [Buffer.from(s, 'utf-8')] is represented
      by its UTF-8 byte sequence, so that conversion is [list_byte_of_string].
    - JS numbers that hold integers (timestamps, counters, ages) are [Z].
    - Module-level mutable state, the stores, the wall clock and the CSPRNG
      live in one [World] record that is threaded through a state-and-
      exception monad.  A thrown exception keeps the state reached so far.
    - Library code that is not part of the repository (node:crypto,
      JSON, circomlibjs, snarkjs) is an interface, [Platform]. *)

From Stdlib Require Import ZArith String Ascii List Lia Bool.
From Stdlib.Strings Require Import Byte.
From stdpp Require Import base option list gmap strings pretty.

Set Warnings "-register-all".

Local Open Scope string_scope.
Local Open Scope Z_scope.

(** ** Buffers and their hexadecimal text *)

Module Hex.

Definition digits : string := "0123456789abcdef".

(** [buf.toString('hex')] for one nibble. *)
Definition digit (n : N) : ascii :=
  match String.get (N.to_nat n) digits with
  | Some c => c
  | None => "0"%char
  end.

(** The value of one hexadecimal character, either case. *)
Definition value (c : ascii) : option N :=
  let n := N_of_ascii c in
  if ((48 <=? n) && (n <=? 57))%N then Some (n - 48)%N
  else if ((97 <=? n) && (n <=? 102))%N then Some (n - 87)%N
  else if ((65 <=? n) && (n <=? 70))%N then Some (n - 55)%N
  else None.

(** [Buffer.prototype.toString('hex')]: two lower-case digits per byte. *)
Fixpoint encode (bs : list byte) : string :=
  match bs with
  | [] => EmptyString
  | b :: r =>
      let n := Byte.to_N b in
      String (digit (n / 16)) (String (digit (n mod 16)) (encode r))
  end.

(** [Buffer.from(s, 'hex')]: pairs of digits are decoded until the first
    pair that is not hexadecimal; a trailing single character is dropped. *)
Fixpoint decode (s : string) : list byte :=
  match s with
  | String a (String b r) =>
      match value a, value b with
      | Some h, Some l =>
          match Byte.of_N (16 * h + l) with
          | Some x => x :: decode r
          | None => []
          end
      | _, _ => []
      end
  | _ => []
  end.

End Hex.

(** ** JSON values *)

(** The values [JSON.stringify] / [JSON.parse] exchange.  An object is the
    list of its own properties in order. *)
Inductive JValue : Type :=
| JNull
| JBool (b : bool)
| JNum (n : Z)
| JStr (s : string)
| JArr (items : list JValue)
| JObj (props : list (string * JValue)).

(** [o[k]] on a parsed value; [None] is [undefined]. *)
Fixpoint assoc (k : string) (props : list (string * JValue)) : option JValue :=
  match props with
  | [] => None
  | (k', v) :: r => if String.eqb k k' then Some v else assoc k r
  end.

Definition field (k : string) (v : JValue) : option JValue :=
  match v with
  | JObj props => assoc k props
  | _ => None
  end.

(** JS truthiness of a parsed value ([!v] is its negation). *)
Definition truthy (v : JValue) : bool :=
  match v with
  | JNull => false
  | JBool b => b
  | JNum n => negb (n =? 0)
  | JStr s => negb (String.eqb s "")
  | JArr _ | JObj _ => true
  end.

(** ** Exceptions *)

(** A thrown value: an [Error] with its message, or anything else. *)
Inductive Exn : Type :=
| JsError (message : string)
| NonError.

(** [err.message]; [None] is [undefined]. *)
Definition message (e : Exn) : option string :=
  match e with
  | JsError m => Some m
  | NonError => None
  end.

(** ** The platform interface *)

(** The BN254 scalar field order, and [F.e] on a bigint.  A field element
    is represented by its canonical integer, so [F.toObject] is the
    identity. *)
Definition BN254_r : Z :=
  21888242871839275222246405745257275088548364400416034343698204186575808495617.

Definition F_e (x : Z) : Z := x mod BN254_r.

(** Library functions the repository calls but does not define.  Their
    argument order follows the call sites. *)
Class Platform : Type := {
  (** node:crypto, [createCipheriv('aes-256-gcm', key, iv)]: ciphertext and
      16-byte authentication tag. *)
  aes256gcm_seal : list byte -> list byte -> list byte -> list byte * list byte;
  (** node:crypto, [createDecipheriv] with [setAuthTag]; [None] when
      [final()] throws. *)
  aes256gcm_open : list byte -> list byte -> list byte -> list byte -> option (list byte);
  (** [createHash('sha256').update(s).digest()]. *)
  sha256 : list byte -> list byte;
  (** [JSON.stringify]. *)
  json_stringify : JValue -> string;
  (** [JSON.parse]; [None] when it throws a [SyntaxError]. *)
  json_parse : string -> option JValue;
  (** circomlibjs: [poseidon(inputs)] on field elements. *)
  poseidon : list Z -> Z;
  (** circomlibjs: [eddsa.prv2pub], [eddsa.signPoseidon], [eddsa.verifyPoseidon]. *)
  prv2pub : list byte -> Z * Z;
  signPoseidon : list byte -> Z -> (Z * Z) * Z;
  verifyPoseidon : Z -> (Z * Z) * Z -> Z * Z -> bool;
  (** snarkjs: [groth16.verify(vkey, publicSignals, proof)], which returns a
      boolean or throws. *)
  groth16_verify : JValue -> list string -> JValue -> Exn + bool;
  (** [new Date(ms).toISOString()]. *)
  toISOString : Z -> string;
  (** [new Date(text).getTime()]; [None] is an invalid date. *)
  Date_parse : string -> option Z;
  (** [getFullYear()], [getMonth()] and [getDate()] of the date with the
      given time value, in the local time zone. *)
  getFullYear : Z -> Z;
  getMonth : Z -> Z;
  getDate : Z -> Z
}.

(** *** Which values [JSON.stringify] followed by [JSON.parse] returns unchanged *)

(** A canonical array index: decimal digits, no leading zero. *)
Definition is_digit (c : ascii) : bool :=
  let n := N_of_ascii c in ((48 <=? n) && (n <=? 57))%N.

Fixpoint all_digits (s : string) : bool :=
  match s with
  | EmptyString => true
  | String c r => is_digit c && all_digits r
  end.

Definition is_index_key (s : string) : bool :=
  match s with
  | EmptyString => false
  | String c r =>
      all_digits s && (negb (Ascii.eqb c "0") || String.eqb r "")
  end.

Fixpoint distinct_keys (ks : list string) : bool :=
  match ks with
  | [] => true
  | k :: r => negb (existsb (String.eqb k) r) && distinct_keys r
  end.

(** Numbers are exact below 2^53. *)
Definition safe_integer (n : Z) : bool :=
  (- 9007199254740992 <? n) && (n <? 9007199254740992).

(** A value is representable when its numbers are safe integers and its
    objects have distinct keys none of which is an array index (JS
    enumerates index keys first, whatever their insertion order). *)
Fixpoint representable (v : JValue) : bool :=
  match v with
  | JNull | JBool _ | JStr _ => true
  | JNum n => safe_integer n
  | JArr items => forallb representable items
  | JObj props =>
      distinct_keys (map fst props)
      && forallb (fun k => negb (is_index_key k)) (map fst props)
      && forallb (fun kv => representable (snd kv)) props
  end.

(** The contracts of the library functions that the proofs rely on. *)
Class PlatformLaws (P : Platform) : Prop := {
  (** AES-GCM decrypts what it encrypted under the same key and IV. *)
  aes_open_seal : forall key iv pt,
    aes256gcm_open key iv (aes256gcm_seal key iv pt).1 (aes256gcm_seal key iv pt).2
    = Some pt;
  (** GCM is a stream mode: the ciphertext is as long as the plaintext. *)
  aes_seal_length : forall key iv pt,
    length (aes256gcm_seal key iv pt).1 = length pt;
  (** JSON text is never empty. *)
  json_stringify_nonempty : forall v, json_stringify v <> "";
  (** [JSON.parse(JSON.stringify(v))] is [v] for representable values. *)
  json_parse_stringify : forall v,
    representable v = true -> json_parse (json_stringify v) = Some v;
  (** A signature made with a private key verifies under the public key
      derived from that key. *)
  eddsa_verify_sign : forall sk msg,
    verifyPoseidon msg (signPoseidon sk msg) (prv2pub sk) = true;
  (** Points are pairs of canonical field elements, as [F.toObject]
      returns them. *)
  prv2pub_canonical : forall sk,
    (prv2pub sk).1 mod BN254_r
      = (prv2pub sk).1 /\
    (prv2pub sk).2 mod BN254_r
      = (prv2pub sk).2;
  signPoseidon_canonical : forall sk msg,
    (signPoseidon sk msg).1.1 mod BN254_r
      = (signPoseidon sk msg).1.1 /\
    (signPoseidon sk msg).1.2 mod BN254_r
      = (signPoseidon sk msg).1.2
}.

(** ** Program state *)

(** [crypto/aes.ts]: [EncryptedPayload]. *)
Record EncryptedPayload : Type := mkPayload {
  iv : string;
  ciphertext : string;
  tag : string;
  algorithm : string
}.

(** The object [encryptedKVPut] writes under a key. *)
Record KVRecord : Type := mkKV {
  enc : string;
  kv_iv : string;
  kv_tag : string;
  alg : string
}.

(** The object [appendAuditLog] adds to the event log. *)
Record LogRecord : Type := mkLog {
  log_enc : string;
  log_iv : string;
  log_tag : string
}.

(** [db/stores.ts]: [ZeroIdStores].  The credential document store plays no
    part in the functions below and is left out.  The event log grows at its
    tail. *)
Record ZeroIdStores : Type := mkStores {
  escrow : gmap string KVRecord;
  nullifiers : gmap string KVRecord;
  proofCache : gmap string KVRecord;
  auditLog : list LogRecord
}.

(** [verifier/cache.ts]: [MemoryCacheEntry]. *)
Record MemoryCacheEntry : Type := mkMem {
  valid : bool;
  nullifier : string;
  timestamp : Z
}.

(** [crypto/eddsa.ts]: [EdDSAKeyPair]. *)
Record EdDSAKeyPair : Type := mkKeyPair {
  privateKey : string;
  publicKey : Z * Z
}.

Record World : Type := mkWorld {
  (** successive readings of [Date.now()] and how many were taken *)
  clock : nat -> Z;
  ticks : nat;
  (** the CSPRNG byte stream and how many bytes were drawn *)
  entropy : nat -> byte;
  drawn : nat;
  (** [db/stores.ts]: [storesInstance], [storeKeys] *)
  storesInstance : option ZeroIdStores;
  storeKeys : gmap string (list byte);
  (** [verifier/cache.ts]: the [Map] inside [memoryCache], oldest key first *)
  memoryCache : list (string * MemoryCacheEntry);
  (** [issuer/escrow.ts]: [lastTime], [lastRandom] *)
  lastTime : Z;
  lastRandom : Z;
  (** [crypto/keys.ts]: [issuerKeyPair]; the parsed content of
      [$ZEROID_KEYS_DIR/issuer.json] when the file exists; and
      [process.env.ZEROID_ISSUER_PRIVATE_KEY] *)
  issuerKeyPair : option EdDSAKeyPair;
  issuerFile : option EdDSAKeyPair;
  envIssuerPrivateKey : option string;
  (** the text of the file at [VKEY_PATH] when it exists *)
  vkeyFile : option string
}.

Definition set_ticks (n : nat) (w : World) : World :=
  mkWorld (clock w) n (entropy w) (drawn w) (storesInstance w) (storeKeys w)
    (memoryCache w) (lastTime w) (lastRandom w) (issuerKeyPair w)
    (issuerFile w) (envIssuerPrivateKey w) (vkeyFile w).

Definition set_drawn (n : nat) (w : World) : World :=
  mkWorld (clock w) (ticks w) (entropy w) n (storesInstance w) (storeKeys w)
    (memoryCache w) (lastTime w) (lastRandom w) (issuerKeyPair w)
    (issuerFile w) (envIssuerPrivateKey w) (vkeyFile w).

Definition set_stores (s : option ZeroIdStores) (w : World) : World :=
  mkWorld (clock w) (ticks w) (entropy w) (drawn w) s (storeKeys w)
    (memoryCache w) (lastTime w) (lastRandom w) (issuerKeyPair w)
    (issuerFile w) (envIssuerPrivateKey w) (vkeyFile w).

Definition set_memoryCache (c : list (string * MemoryCacheEntry)) (w : World) : World :=
  mkWorld (clock w) (ticks w) (entropy w) (drawn w) (storesInstance w)
    (storeKeys w) c (lastTime w) (lastRandom w) (issuerKeyPair w)
    (issuerFile w) (envIssuerPrivateKey w) (vkeyFile w).

Definition set_ulid (t r : Z) (w : World) : World :=
  mkWorld (clock w) (ticks w) (entropy w) (drawn w) (storesInstance w)
    (storeKeys w) (memoryCache w) t r (issuerKeyPair w)
    (issuerFile w) (envIssuerPrivateKey w) (vkeyFile w).

Definition set_issuer (k f : option EdDSAKeyPair) (w : World) : World :=
  mkWorld (clock w) (ticks w) (entropy w) (drawn w) (storesInstance w)
    (storeKeys w) (memoryCache w) (lastTime w) (lastRandom w) k f
    (envIssuerPrivateKey w) (vkeyFile w).

(** The process environment is fixed at start-up; this sets it up. *)
Definition with_envIssuerPrivateKey (k : option string) (w : World) : World :=
  mkWorld (clock w) (ticks w) (entropy w) (drawn w) (storesInstance w)
    (storeKeys w) (memoryCache w) (lastTime w) (lastRandom w) (issuerKeyPair w)
    (issuerFile w) k (vkeyFile w).

(** ** The state-and-exception monad *)

(** A computation returns a value or throws, and in both cases leaves a
    state behind: nothing is rolled back when an exception propagates. *)
Definition M (A : Type) : Type := World -> (Exn + A) * World.

Definition ret {A} (a : A) : M A := fun w => (inr a, w).

Definition throw {A} (e : Exn) : M A := fun w => (inl e, w).

Definition bind {A B} (m : M A) (k : A -> M B) : M B :=
  fun w =>
    match m w with
    | (inl e, w') => (inl e, w')
    | (inr a, w') => k a w'
    end.

(** [try { m } catch (err) { h err }]. *)
Definition try_catch {A} (m : M A) (h : Exn -> M A) : M A :=
  fun w =>
    match m w with
    | (inl e, w') => h e w'
    | (inr a, w') => (inr a, w')
    end.

Definition gets {A} (f : World -> A) : M A := fun w => (inr (f w), w).

Definition modify (f : World -> World) : M unit := fun w => (inr tt, f w).

Declare Scope prog_scope.
Delimit Scope prog_scope with prog.
Notation "'let*' x ':=' m 'in' k" := (bind m (fun x => k))
  (at level 10, x name, m at level 100, k at level 200) : prog_scope.
Local Open Scope prog_scope.

(** What running a computation from a state returns, and the state it
    leaves. *)
Definition outcome {A} (m : M A) (w : World) : Exn + A := (m w).1.
Definition after {A} (m : M A) (w : World) : World := (m w).2.

(** [Date.now()]. *)
Definition Date_now : M Z :=
  fun w => (inr (clock w (ticks w)), set_ticks (S (ticks w)) w).

(** [crypto.randomBytes(n)]. *)
Definition randomBytes (n : nat) : M (list byte) :=
  fun w => (inr (map (entropy w) (seq (drawn w) n)), set_drawn (drawn w + n) w).

(** Decimal text of a number, as in a template literal. *)
Definition show (n : Z) : string := pretty n.

(** ** [verifier/cache.ts]: the in-memory LRU *)

(** A JS [Map] with string keys, as the list of its entries in insertion
    order. *)
Module JsMap.
Section Ops.
Context {V : Type}.

Fixpoint get (key : string) (m : list (string * V)) : option V :=
  match m with
  | [] => None
  | (k, v) :: r => if String.eqb key k then Some v else get key r
  end.

Fixpoint delete (key : string) (m : list (string * V)) : list (string * V) :=
  match m with
  | [] => []
  | (k, v) :: r => if String.eqb key k then r else (k, v) :: delete key r
  end.

(** [set] keeps the position of a key that is present and appends a
    new one. *)
Fixpoint set (key : string) (v : V) (m : list (string * V)) : list (string * V) :=
  match m with
  | [] => [(key, v)]
  | (k, v') :: r => if String.eqb key k then (k, v) :: r else (k, v') :: set key v r
  end.

(** [m.keys().next().value]. *)
Definition first_key (m : list (string * V)) : option string :=
  match m with
  | [] => None
  | (k, _) :: _ => Some k
  end.
End Ops.
End JsMap.

(** [class LRUMemoryCache], on the [Map] held in the [World]. *)
Module LRUMemoryCache.

Definition get (ttlMs : Z) (key : string) : M (option MemoryCacheEntry) :=
  let* cache := gets memoryCache in
  match JsMap.get key cache with
  | None => ret None
  | Some entry =>
      let* now := Date_now in
      if ttlMs <? now - timestamp entry then
        let* _ := modify (fun w => set_memoryCache (JsMap.delete key (memoryCache w)) w) in
        ret None
      else
        let* _ := modify (fun w => set_memoryCache (JsMap.delete key (memoryCache w)) w) in
        let* _ := modify (fun w => set_memoryCache (JsMap.set key entry (memoryCache w)) w) in
        ret (Some entry)
  end.

Definition set (maxSize : Z) (key : string) (valid : bool) (nullifier : string)
    : M unit :=
  let* cache := gets memoryCache in
  let* _ :=
    if maxSize <=? Z.of_nat (length cache) then
      match JsMap.first_key cache with
      | Some oldest => modify (fun w => set_memoryCache (JsMap.delete oldest (memoryCache w)) w)
      | None => ret tt
      end
    else ret tt in
  let* now := Date_now in
  modify (fun w => set_memoryCache (JsMap.set key (mkMem valid nullifier now) (memoryCache w)) w).

End LRUMemoryCache.

(** ** [crypto/aes.ts] *)

Section Program.

Context {P : Platform}.

Definition ALGORITHM : string := "aes-256-gcm".
Definition IV_LENGTH : nat := 12.
Definition TAG_LENGTH : nat := 16.
Definition KEY_LENGTH : nat := 32.

(** A key argument is a hex string or a [Buffer]. *)
Inductive Key : Type :=
| KeyHex (s : string)
| KeyBuf (b : list byte).

Definition keyBuf (key : Key) : list byte :=
  match key with
  | KeyHex s => Hex.decode s
  | KeyBuf b => b
  end.

Definition key_length_error (key : Key) : Exn :=
  JsError ("AES key must be 32 bytes, got " +:+ show (Z.of_nat (length (keyBuf key)))).

(** [encrypt(plaintext, key)], for a string plaintext. *)
Definition encrypt (plaintext : string) (key : Key) : M EncryptedPayload :=
  if negb (length (keyBuf key) =? KEY_LENGTH)%nat then throw (key_length_error key)
  else
    let* ivBytes := randomBytes IV_LENGTH in
    let sealed := aes256gcm_seal (keyBuf key) ivBytes (list_byte_of_string plaintext) in
    ret (mkPayload (Hex.encode ivBytes) (Hex.encode sealed.1) (Hex.encode sealed.2) ALGORITHM).

Definition auth_error : Exn :=
  JsError "Unsupported state or unable to authenticate data".

(** [decrypt(payload, key)]. *)
Definition decrypt (payload : EncryptedPayload) (key : Key) : M string :=
  if negb (length (keyBuf key) =? KEY_LENGTH)%nat then throw (key_length_error key)
  else
    match aes256gcm_open (keyBuf key) (Hex.decode (iv payload))
            (Hex.decode (ciphertext payload)) (Hex.decode (tag payload)) with
    | Some pt => ret (string_of_list_byte pt)
    | None => throw auth_error
    end.

(** [crypto.createHash('sha256').update(s).digest('hex')]. *)
Definition sha256_hex (s : string) : string :=
  Hex.encode (sha256 (list_byte_of_string s)).

(** ** [db/stores.ts]: types and their JSON form *)

(** [EscrowEntry].  [expiresAt] is [None] when the number is [NaN], which
    [JSON.stringify] writes as [null]. *)
Record EscrowEntry : Type := mkEscrow {
  encryptedBlob : EncryptedPayload;
  regulatorKeyId : string;
  credentialId : string;
  createdAt : Z;
  expiresAt : option Z;
  invalidated : bool;
  integrityHash : string
}.

Record NullifierEntry : Type := mkNullifier {
  used : bool;
  nf_credentialId : string;
  appId : string;
  usedAt : Z
}.

Record ProofCacheEntry : Type := mkProofCache {
  pc_valid : bool;
  verifiedAt : Z;
  pc_nullifier : string
}.

Inductive AuditAction : Type :=
| escrow_create | escrow_access | escrow_rotate | escrow_purge
| credential_issue | credential_bind | proof_verify | nullifier_register.

Definition action_name (a : AuditAction) : string :=
  match a with
  | escrow_create => "escrow_create"
  | escrow_access => "escrow_access"
  | escrow_rotate => "escrow_rotate"
  | escrow_purge => "escrow_purge"
  | credential_issue => "credential_issue"
  | credential_bind => "credential_bind"
  | proof_verify => "proof_verify"
  | nullifier_register => "nullifier_register"
  end.

Record AuditLogEntry : Type := mkAudit {
  action : AuditAction;
  resourceId : string;
  actor : string;
  au_timestamp : Z;
  metadata : list (string * string)
}.

(** The objects as [JSON.stringify] sees them: properties in the order of
    the object literals that build them. *)
Definition payload_json (p : EncryptedPayload) : JValue :=
  JObj [("iv", JStr (iv p)); ("ciphertext", JStr (ciphertext p));
        ("tag", JStr (tag p)); ("algorithm", JStr (algorithm p))].

Definition number_json (n : option Z) : JValue :=
  match n with Some z => JNum z | None => JNull end.

Definition escrow_json (e : EscrowEntry) : JValue :=
  JObj [("encryptedBlob", payload_json (encryptedBlob e));
        ("regulatorKeyId", JStr (regulatorKeyId e));
        ("credentialId", JStr (credentialId e));
        ("createdAt", JNum (createdAt e));
        ("expiresAt", number_json (expiresAt e));
        ("invalidated", JBool (invalidated e));
        ("integrityHash", JStr (integrityHash e))].

Definition nullifier_json (e : NullifierEntry) : JValue :=
  JObj [("used", JBool (used e)); ("credentialId", JStr (nf_credentialId e));
        ("appId", JStr (appId e)); ("usedAt", JNum (usedAt e))].

Definition proofCache_json (e : ProofCacheEntry) : JValue :=
  JObj [("valid", JBool (pc_valid e)); ("verifiedAt", JNum (verifiedAt e));
        ("nullifier", JStr (pc_nullifier e))].

Definition audit_json (e : AuditLogEntry) : JValue :=
  JObj [("action", JStr (action_name (action e)));
        ("resourceId", JStr (resourceId e));
        ("actor", JStr (actor e));
        ("timestamp", JNum (au_timestamp e));
        ("metadata", JObj (map (fun kv => (kv.1, JStr kv.2)) (metadata e)))].

(** The casts [as unknown as EscrowEntry] and the like, as checked
    conversions of the parsed value. *)
Definition as_string (v : option JValue) : option string :=
  match v with Some (JStr s) => Some s | _ => None end.

Definition as_bool (v : option JValue) : option bool :=
  match v with Some (JBool b) => Some b | _ => None end.

Definition as_int (v : option JValue) : option Z :=
  match v with Some (JNum n) => Some n | _ => None end.

Definition as_number (v : option JValue) : option (option Z) :=
  match v with
  | Some (JNum n) => Some (Some n)
  | Some JNull => Some None
  | _ => None
  end.

Definition as_payload (v : option JValue) : option EncryptedPayload :=
  match v with
  | Some o =>
      match as_string (field "iv" o), as_string (field "ciphertext" o),
            as_string (field "tag" o), as_string (field "algorithm" o) with
      | Some i, Some c, Some t, Some a => Some (mkPayload i c t a)
      | _, _, _, _ => None
      end
  | None => None
  end.

Definition as_escrow (o : JValue) : option EscrowEntry :=
  match as_payload (field "encryptedBlob" o), as_string (field "regulatorKeyId" o),
        as_string (field "credentialId" o), as_int (field "createdAt" o),
        as_number (field "expiresAt" o), as_bool (field "invalidated" o),
        as_string (field "integrityHash" o) with
  | Some b, Some r, Some c, Some t, Some x, Some i, Some h =>
      Some (mkEscrow b r c t x i h)
  | _, _, _, _, _, _, _ => None
  end.

Definition as_nullifier (o : JValue) : option NullifierEntry :=
  match as_bool (field "used" o), as_string (field "credentialId" o),
        as_string (field "appId" o), as_int (field "usedAt" o) with
  | Some u, Some c, Some a, Some t => Some (mkNullifier u c a t)
  | _, _, _, _ => None
  end.

Definition as_proofCache (o : JValue) : option ProofCacheEntry :=
  match as_bool (field "valid" o), as_int (field "verifiedAt" o),
        as_string (field "nullifier" o) with
  | Some v, Some t, Some n => Some (mkProofCache v t n)
  | _, _, _ => None
  end.

(** Raised where the stored value does not have the shape of the
    interface it is cast to; the stores are only written through
    [encryptedKVPut] with values of that interface. *)
Definition shape_error : Exn := JsError "TypeError".

Definition syntax_error : Exn := JsError "SyntaxError".

(** ** [db/stores.ts]: store access *)

Definition getStores : M ZeroIdStores :=
  fun w =>
    match storesInstance w with
    | Some st => (inr st, w)
    | None => (inl (JsError "[ZeroID] Stores not opened — call openStores() first"), w)
    end.

(** The text of one double quote character. *)
Definition dquote : string := String "034"%char EmptyString.

Definition getStoreKey (storeName : string) : M (list byte) :=
  fun w =>
    match storeKeys w !! storeName with
    | Some k => (inr k, w)
    | None =>
        (inl (JsError ("Store key not derived for " +:+ dquote +:+ storeName +:+ dquote
                       +:+ " — call deriveStoreKeys() first")), w)
    end.

(** The three key-value stores, named by the handle passed around. *)
Inductive KVStore : Type := EscrowKV | NullifierKV | ProofCacheKV.

Definition kv_content (s : KVStore) (st : ZeroIdStores) : gmap string KVRecord :=
  match s with
  | EscrowKV => escrow st
  | NullifierKV => nullifiers st
  | ProofCacheKV => proofCache st
  end.

Definition kv_write (s : KVStore) (key : string) (r : KVRecord)
    (st : ZeroIdStores) : ZeroIdStores :=
  match s with
  | EscrowKV => mkStores (<[key := r]> (escrow st)) (nullifiers st) (proofCache st) (auditLog st)
  | NullifierKV => mkStores (escrow st) (<[key := r]> (nullifiers st)) (proofCache st) (auditLog st)
  | ProofCacheKV => mkStores (escrow st) (nullifiers st) (<[key := r]> (proofCache st)) (auditLog st)
  end.

(** [store.put(key, value)] on a key-value store. *)
Definition store_put (s : KVStore) (key : string) (r : KVRecord) : M unit :=
  modify (fun w => set_stores (kv_write s key r <$> storesInstance w) w).

(** [stores.auditLog.add(value)]. *)
Definition log_add (r : LogRecord) : M unit :=
  modify (fun w =>
    set_stores
      ((fun st => mkStores (escrow st) (nullifiers st) (proofCache st) (auditLog st ++ [r]))
         <$> storesInstance w) w).

Definition encryptedKVPut (store : KVStore) (storeName key : string)
    (value : JValue) : M unit :=
  let* storeKey := getStoreKey storeName in
  let plaintext := json_stringify value in
  let* payload := encrypt plaintext (KeyBuf storeKey) in
  store_put store key (mkKV (ciphertext payload) (iv payload) (tag payload) (algorithm payload)).

(** [decryptKVGet(entry, storeName)]; the result [null] is [JNull]. *)
Definition decryptKVGet (entry : option KVRecord) (storeName : string) : M JValue :=
  match entry with
  | None => ret JNull
  | Some r =>
      if String.eqb (enc r) "" then ret JNull
      else
        let* storeKey := getStoreKey storeName in
        let payload := mkPayload (kv_iv r) (enc r) (kv_tag r) "aes-256-gcm" in
        let* plaintext := decrypt payload (KeyBuf storeKey) in
        match json_parse plaintext with
        | Some v => ret v
        | None => throw syntax_error
        end
  end.

(** [appendAuditLog(entry)]. *)
Definition appendAuditLog (entry : AuditLogEntry) : M unit :=
  let* _ := getStores in
  let* storeKey := getStoreKey "auditLog" in
  let* payload := encrypt (json_stringify (audit_json entry)) (KeyBuf storeKey) in
  log_add (mkLog (ciphertext payload) (iv payload) (tag payload)).

(** ** [db/stores.ts]: escrow operations *)

Definition RETENTION_POLICIES : list (string * Z) :=
  [("US", 5); ("EU", 5); ("UK", 5); ("DEFAULT", 5)].

(** Property names every object literal inherits; indexing the table with
    one of them yields a function or an object, hence [NaN] years. *)
Definition inherited_keys : list string :=
  ["constructor"; "__defineGetter__"; "__defineSetter__"; "hasOwnProperty";
   "__lookupGetter__"; "__lookupSetter__"; "isPrototypeOf";
   "propertyIsEnumerable"; "toString"; "valueOf"; "__proto__"; "toLocaleString"].

Fixpoint table_lookup (k : string) (t : list (string * Z)) : option Z :=
  match t with
  | [] => None
  | (k', v) :: r => if String.eqb k k' then Some v else table_lookup k r
  end.

(** [getRetentionMs]; [None] is [NaN].  [years * 365.25 * 24 * 60 * 60 * 1000]
    is exact in double precision for the table's values. *)
Definition getRetentionMs (jurisdiction : string) : option Z :=
  let years :=
    match table_lookup jurisdiction RETENTION_POLICIES with
    | Some y => Some y
    | None =>
        if existsb (String.eqb jurisdiction) inherited_keys then None
        else table_lookup "DEFAULT" RETENTION_POLICIES
    end in
  (fun y => y * 36525 * 24 * 60 * 60 * 10) <$> years.

Definition putEscrowEntry (escrowId : string) (rawPII : JValue)
    (regulatorKey regulatorKeyId credentialId jurisdiction : string) : M unit :=
  let* _ := getStores in
  let plaintext := json_stringify rawPII in
  let integrityHash := sha256_hex plaintext in
  let* encryptedBlob := encrypt plaintext (KeyHex regulatorKey) in
  let* t1 := Date_now in
  let* t2 := Date_now in
  let entry :=
    mkEscrow encryptedBlob regulatorKeyId credentialId t1
      ((fun r => t2 + r) <$> getRetentionMs jurisdiction) false integrityHash in
  let* _ := encryptedKVPut EscrowKV "escrow" escrowId (escrow_json entry) in
  let* t3 := Date_now in
  appendAuditLog
    (mkAudit escrow_create escrowId "system" t3
       [("regulatorKeyId", regulatorKeyId); ("jurisdiction", jurisdiction);
        ("credentialId", credentialId)]).

(** [Date.now() > entry.expiresAt]; [null] converts to 0. *)
Definition past (now : Z) (expires : option Z) : bool :=
  match expires with
  | Some e => e <? now
  | None => 0 <? now
  end.

Definition not_found (escrowId : string) : Exn :=
  JsError ("Escrow entry not found: " +:+ escrowId).
Definition was_invalidated (escrowId : string) : Exn :=
  JsError ("Escrow entry has been invalidated (GDPR erasure): " +:+ escrowId).
Definition has_expired (escrowId : string) : Exn :=
  JsError ("Escrow entry has expired: " +:+ escrowId).
Definition integrity_failed : Exn :=
  JsError "Escrow integrity check failed — data may be corrupted".

Definition getEscrowEntry (escrowId regulatorKey actorId : string) : M JValue :=
  let* stores := getStores in
  let raw := escrow stores !! escrowId in
  let* parsed := decryptKVGet raw "escrow" in
  if negb (truthy parsed) then throw (not_found escrowId)
  else
    match as_escrow parsed with
    | None => throw shape_error
    | Some entry =>
        if invalidated entry then throw (was_invalidated escrowId)
        else
          let* now := Date_now in
          if past now (expiresAt entry) then throw (has_expired escrowId)
          else
            let* t := Date_now in
            let* _ := appendAuditLog
                        (mkAudit escrow_access escrowId actorId t
                           [("regulatorKeyId", regulatorKeyId entry)]) in
            let* plaintext := decrypt (encryptedBlob entry) (KeyHex regulatorKey) in
            let hash := sha256_hex plaintext in
            if negb (String.eqb hash (integrityHash entry)) then throw integrity_failed
            else
              match json_parse plaintext with
              | Some v => ret v
              | None => throw syntax_error
              end
    end.

(** The pair [{ success, reason }]. *)
Record RotateResult : Type := mkRotate {
  success : bool;
  reason : string
}.

Definition rotateEscrowEntry (escrowId actorId : string) (forceErasure : bool)
    : M RotateResult :=
  let* stores := getStores in
  let raw := escrow stores !! escrowId in
  let* parsed := decryptKVGet raw "escrow" in
  if negb (truthy parsed) then ret (mkRotate false "Entry not found")
  else
    match as_escrow parsed with
    | None => throw shape_error
    | Some entry =>
        let* now := Date_now in
        let retentionRemaining := default 0 (expiresAt entry) - now in
        if (0 <? retentionRemaining) && negb forceErasure then
          let* t := Date_now in
          let iso := toISOString (default 0 (expiresAt entry)) in
          let* _ := appendAuditLog
                      (mkAudit escrow_rotate escrowId actorId t
                         [("result", "deferred"); ("reason", "retention_period_active");
                          ("expiresAt", iso)]) in
          ret (mkRotate false
                 ("Retention period active until " +:+ iso
                  +:+ ". Erasure request logged and will execute after expiry."))
        else
          let* junk := randomBytes 256 in
          let* junkKey := randomBytes 32 in
          let* blob := encrypt (Hex.encode junk) (KeyHex (Hex.encode junkKey)) in
          let shredded :=
            mkEscrow blob (regulatorKeyId entry) (credentialId entry) (createdAt entry)
              (expiresAt entry) true "INVALIDATED" in
          let* _ := encryptedKVPut EscrowKV "escrow" escrowId (escrow_json shredded) in
          let* t := Date_now in
          let* _ := appendAuditLog
                      (mkAudit escrow_rotate escrowId actorId t [("result", "completed")]) in
          ret (mkRotate true "Entry crypto-shredded and invalidated")
    end.

(** One iteration of the loop in [purgeExpiredEscrow]. *)
Definition purgeStep (now : Z) (item : string * KVRecord) (purged : Z) : M Z :=
  let* parsed := decryptKVGet (Some item.2) "escrow" in
  if negb (truthy parsed) then ret purged
  else
    match as_escrow parsed with
    | None => throw shape_error
    | Some entry =>
        if past now (expiresAt entry) && negb (invalidated entry) then
          let* _ := rotateEscrowEntry item.1 "system/purge" true in
          ret (purged + 1)
        else ret purged
    end.

Fixpoint purgeLoop (now : Z) (items : list (string * KVRecord)) (purged : Z) : M Z :=
  match items with
  | [] => ret purged
  | item :: rest =>
      let* purged' := purgeStep now item purged in
      purgeLoop now rest purged'
  end.

(** [all && typeof all[Symbol.asyncIterator] === 'function'], the guard of
    the loops in [purgeExpiredEscrow] and [queryAuditLog], where [all] is
    the [all] member of a database that [openStores] got from
    [orbitdb.open].  The program reads the member and does not call it.  In
    @orbitdb/core that member is the async method [all()], of the key-value
    store and of the event log alike: a function object, which is truthy
    and has no [Symbol.asyncIterator] member, so [typeof] gives
    ['undefined'] and the guard fails. *)
Definition all_is_asyncIterable : bool := false.

(** [purgeExpiredEscrow()].  The loop is over the [key, value] pairs of the
    escrow store and runs only under the guard. *)
Definition purgeExpiredEscrow : M Z :=
  let* stores := getStores in
  let all := map_to_list (escrow stores) in
  let* now := Date_now in
  if all_is_asyncIterable then purgeLoop now all 0
  else ret 0.

(** ** [db/stores.ts]: nullifiers and the persistent proof cache *)

Definition registerNullifier (nullifier credentialId appId : string) : M unit :=
  let* _ := getStores in
  let* t := Date_now in
  let entry := mkNullifier true credentialId appId t in
  let* _ := encryptedKVPut NullifierKV "nullifiers" nullifier (nullifier_json entry) in
  let* t' := Date_now in
  appendAuditLog (mkAudit nullifier_register nullifier "system" t' [("appId", appId)]).

Definition isNullifierUsed (nullifier : string) : M bool :=
  let* stores := getStores in
  match nullifiers stores !! nullifier with
  | None => ret false
  | Some raw =>
      let* parsed := decryptKVGet (Some raw) "nullifiers" in
      match parsed with
      | JNull => ret false
      | _ =>
          match as_nullifier parsed with
          | Some entry => ret (used entry)
          | None => throw shape_error
          end
      end
  end.

Definition cacheProofResult (proofHash : string) (valid : bool) (nullifier : string)
    : M unit :=
  let* _ := getStores in
  let* t := Date_now in
  encryptedKVPut ProofCacheKV "proofCache" proofHash
    (proofCache_json (mkProofCache valid t nullifier)).

(** [getCachedProofResult]; [None] is [null]. *)
Definition getCachedProofResult (proofHash : string) : M (option ProofCacheEntry) :=
  let* stores := getStores in
  let* parsed := decryptKVGet (proofCache stores !! proofHash) "proofCache" in
  if negb (truthy parsed) then ret None
  else
    match as_proofCache parsed with
    | Some entry => ret (Some entry)
    | None => throw shape_error
    end.

(** ** [verifier/cache.ts]: the two cache layers *)

(** [const memoryCache = new LRUMemoryCache()]: the constructor defaults. *)
Definition maxSize : Z := 10000.
Definition ttlMs : Z := 3600000.

Definition hashProof (proof : JValue) (publicSignals : list string) : string :=
  sha256_hex
    (json_stringify
       (JObj [("proof", proof); ("publicSignals", JArr (map JStr publicSignals))])).

(** The object [{ valid, nullifier, cached: true }]. *)
Record CachedResult : Type := mkCached {
  cr_valid : bool;
  cr_nullifier : string
}.

Definition getCached (proofHash : string) : M (option CachedResult) :=
  let* mem := LRUMemoryCache.get ttlMs proofHash in
  match mem with
  | Some m => ret (Some (mkCached (valid m) (nullifier m)))
  | None =>
      try_catch
        (let* entry := getCachedProofResult proofHash in
         match entry with
         | Some e =>
             let* _ := LRUMemoryCache.set maxSize proofHash (pc_valid e) (pc_nullifier e) in
             ret (Some (mkCached (pc_valid e) (pc_nullifier e)))
         | None => ret None
         end)
        (fun _ => ret None)
  end.

Definition setCached (proofHash : string) (valid : bool) (nullifier : string) : M unit :=
  let* _ := LRUMemoryCache.set maxSize proofHash valid nullifier in
  try_catch (cacheProofResult proofHash valid nullifier) (fun _ => ret tt).

(** ** [verifier/verify.ts] *)

Definition lift {A} (r : Exn + A) : M A :=
  match r with
  | inl e => throw e
  | inr a => ret a
  end.

(** [verifyProof(proof, publicSignals, vkeyPath)], for the one path the
    routes pass. *)
Definition verifyProof (proof : JValue) (publicSignals : list string) : M bool :=
  let* file := gets vkeyFile in
  match file with
  | None => throw (JsError "Verification key not found: circuits/setup/verification_key.json")
  | Some text =>
      match json_parse text with
      | None => throw syntax_error
      | Some vkey => lift (groth16_verify vkey publicSignals proof)
      end
  end.

Definition verifyProofWithKey (proof : JValue) (publicSignals : list string)
    (vkey : JValue) : Exn + bool :=
  groth16_verify vkey publicSignals proof.

(** ** [verifier/aggregate.ts] *)

Record AggregateProofEntry : Type := mkProofEntry {
  ap_proof : JValue;
  ap_publicSignals : list string
}.

Record AggregateResultEntry : Type := mkResultEntry {
  index : Z;
  ar_valid : bool;
  error : option string
}.

Record AggregateResult : Type := mkAggregate {
  allValid : bool;
  total : Z;
  validCount : Z;
  results : list AggregateResultEntry
}.

(** An element of the array [Promise.allSettled] resolves to. *)
Inductive Settled (A : Type) : Type :=
| fulfilled (value : A)
| rejected (reason : Exn).
#[global] Arguments fulfilled {A} _.
#[global] Arguments rejected {A} _.

Definition allSettled {A} (tasks : list (Exn + A)) : list (Settled A) :=
  map (fun t => match t with inr v => fulfilled v | inl e => rejected e end) tasks.

(** The async callback given to [proofs.map]: its [try]/[catch] turns a
    throw of the verifier into a result. *)
Definition verifyTask (vkey : JValue) (index : nat) (entry : AggregateProofEntry)
    : Exn + AggregateResultEntry :=
  match verifyProofWithKey (ap_proof entry) (ap_publicSignals entry) vkey with
  | inr valid => inr (mkResultEntry (Z.of_nat index) valid None)
  | inl err =>
      inr (mkResultEntry (Z.of_nat index) false
             (Some (match message err with
                    | Some m => m
                    | None => "Unknown error"
                    end)))
  end.

Definition aggregateProofs (proofs : list AggregateProofEntry) (vkey : JValue)
    : AggregateResult :=
  if (length proofs =? 0)%nat then mkAggregate true 0 0 []
  else
    let results := allSettled (imap (verifyTask vkey) proofs) in
    let entries :=
      map (fun r =>
             match r with
             | fulfilled value => value
             | rejected _ => mkResultEntry 0 false (Some "Verification threw unexpectedly")
             end) results in
    let validCount := Z.of_nat (length (filter (fun e => ar_valid e = true) entries)) in
    mkAggregate (validCount =? Z.of_nat (length proofs)) (Z.of_nat (length proofs))
      validCount entries.

(** ** [api/middleware.ts]: request schemas *)

Fixpoint strings_of (items : list JValue) : option (list string) :=
  match items with
  | [] => Some []
  | JStr s :: r => (fun l => s :: l) <$> strings_of r
  | _ :: _ => None
  end.

(** [z.array(z.string()).min(1).max(50)]. *)
Definition publicSignalsSchema (v : option JValue) : option (list string) :=
  match v with
  | Some (JArr items) =>
      match strings_of items with
      | Some l => if (1 <=? length l)%nat && (length l <=? 50)%nat then Some l else None
      | None => None
      end
  | _ => None
  end.

(** [z.record(z.unknown())]. *)
Definition recordSchema (v : option JValue) : option JValue :=
  match v with
  | Some (JObj props) => Some (JObj props)
  | _ => None
  end.

(** [proofVerifyRequestSchema.safeParse(body)]; [None] is failure. *)
Definition proofVerifyRequestSchema (body : JValue) : option (JValue * list string) :=
  match body with
  | JObj _ =>
      match recordSchema (field "proof" body), publicSignalsSchema (field "publicSignals" body) with
      | Some p, Some s => Some (p, s)
      | _, _ => None
      end
  | _ => None
  end.

Definition proofEntrySchema (v : JValue) : option AggregateProofEntry :=
  match v with
  | JObj _ =>
      match recordSchema (field "proof" v), publicSignalsSchema (field "publicSignals" v) with
      | Some p, Some s => Some (mkProofEntry p s)
      | _, _ => None
      end
  | _ => None
  end.

Fixpoint entries_of (items : list JValue) : option (list AggregateProofEntry) :=
  match items with
  | [] => Some []
  | v :: r =>
      match proofEntrySchema v, entries_of r with
      | Some e, Some l => Some (e :: l)
      | _, _ => None
      end
  end.

(** [aggregateRequestSchema.safeParse(body)]: [proofs] is an array of 1 to
    100 entries. *)
Definition aggregateRequestSchema (body : JValue) : option (list AggregateProofEntry) :=
  match body with
  | JObj _ =>
      match field "proofs" body with
      | Some (JArr items) =>
          match entries_of items with
          | Some l => if (1 <=? length l)%nat && (length l <=? 100)%nat then Some l else None
          | None => None
          end
      | _ => None
      end
  | _ => None
  end.

(** ** The routes *)

(** What a handler sends: [res.status(code).json(body)]; [res.json] alone
    is status 200. *)
Record Response : Type := mkResponse {
  status : Z;
  body : JValue
}.

(** [validateBody]'s reply to a body the schema rejects (the [details]
    list of issue paths is left out). *)
Definition validation_error : Response :=
  mkResponse 400
    (JObj [("error", JStr "Validation Error"); ("message", JStr "Invalid request body")]).

Definition replay_response (nullifier : string) : Response :=
  mkResponse 409
    (JObj [("valid", JBool false); ("nullifier", JStr nullifier);
           ("error", JStr "Nullifier already used — duplicate verification attempt")]).

Definition verified_response (valid : bool) (nullifier : string) (cached : bool) : Response :=
  mkResponse 200
    (JObj [("valid", JBool valid); ("nullifier", JStr nullifier); ("cached", JBool cached)]).

Definition internal_error (msg : string) : Response :=
  mkResponse 500 (JObj [("error", JStr "Internal Server Error"); ("message", JStr msg)]).

(** [api/routes/proof.ts]: the handler behind [validateBody]. *)
Definition proofVerifyHandler (proof : JValue) (publicSignals : list string)
    : M Response :=
  try_catch
    (let proofHash := hashProof proof publicSignals in
     let* cached := getCached proofHash in
     match cached with
     | Some c => ret (verified_response (cr_valid c) (cr_nullifier c) true)
     | None =>
         let* valid := verifyProof proof publicSignals in
         let nullifier := default "0" (publicSignals !! 5%nat) in
         let finish :=
           let* _ := setCached proofHash valid nullifier in
           ret (verified_response valid nullifier false) in
         if valid then
           let* alreadyUsed := isNullifierUsed nullifier in
           if alreadyUsed then ret (replay_response nullifier)
           else
             let appId := default "0" (publicSignals !! 4%nat) in
             let* _ := registerNullifier nullifier "unknown" appId in
             finish
         else finish
     end)
    (fun _ => ret (internal_error "Failed to verify proof")).

Definition postProofVerify (body : JValue) : M Response :=
  match proofVerifyRequestSchema body with
  | None => ret validation_error
  | Some (proof, publicSignals) => proofVerifyHandler proof publicSignals
  end.

Definition aggregate_json (r : AggregateResult) : JValue :=
  JObj [("allValid", JBool (allValid r)); ("total", JNum (total r));
        ("validCount", JNum (validCount r));
        ("results",
          JArr (map (fun e =>
                       JObj ([("index", JNum (index e)); ("valid", JBool (ar_valid e))]
                             ++ match error e with
                                | Some m => [("error", JStr m)]
                                | None => []
                                end)) (results r)))].

(** [api/routes/aggregate.ts]. *)
Definition postProofAggregate (body : JValue) : M Response :=
  match aggregateRequestSchema body with
  | None => ret validation_error
  | Some proofs =>
      try_catch
        (let* file := gets vkeyFile in
         match file with
         | None =>
             ret (mkResponse 503
                    (JObj [("error", JStr "Service Unavailable");
                           ("message", JStr "Verification key not found. Run trusted setup first.")]))
         | Some text =>
             match json_parse text with
             | None => throw syntax_error
             | Some vkey => ret (mkResponse 200 (aggregate_json (aggregateProofs proofs vkey)))
             end
         end)
        (fun _ => ret (internal_error "Failed to aggregate proofs"))
  end.

(** ** [issuer/escrow.ts] *)

(** [haystack.includes(needle)]. *)
Fixpoint includes (needle haystack : string) : bool :=
  String.prefix needle haystack ||
  match haystack with
  | EmptyString => false
  | String _ r => includes needle r
  end.

Definition escrowExists (escrowId : string) : M bool :=
  try_catch
    (let* keyBytes := randomBytes 32 in
     let regulatorKey := Hex.encode keyBytes in
     let* _ := getEscrowEntry escrowId regulatorKey "existence_check" in
     ret true)
    (fun err =>
       match message err with
       | Some msg => if includes "not found" msg then ret false else ret true
       | None => throw (JsError "TypeError")
       end).

Definition ENCODING : string := "0123456789ABCDEFGHJKMNPQRSTVWXYZ".

(** [ENCODING[n]] inside a string concatenation: an index outside the
    alphabet reads [undefined]. *)
Definition ENCODING_at (n : Z) : string :=
  if (0 <=? n) && (n <? 32) then
    match String.get (Z.to_nat n) ENCODING with
    | Some c => String c EmptyString
    | None => "undefined"
    end
  else "undefined".

(** The timestamp loop: [i] runs from 9 down to 0, prepending. *)
Fixpoint encodeTime (count : nat) (now : Z) (ts : string) : string :=
  match count with
  | O => ts
  | S n => encodeTime n (now / 32) (ENCODING_at (Z.rem now 32) +:+ ts)
  end.

(** [randBytes[i]] as a number; the buffer always holds 10 bytes here. *)
Definition byte_at (bs : list byte) (i : nat) : Z :=
  match bs !! i with
  | Some b => Z.of_N (Byte.to_N b)
  | None => 0
  end.

(** The randomness loop, from index [i] for [count] rounds, appending. *)
Fixpoint encodeRandom (count i : nat) (randBytes : list byte) (rand : string) : string :=
  match count with
  | O => rand
  | S n =>
      encodeRandom n (S i) randBytes
        (rand +:+ ENCODING_at (Z.rem (byte_at randBytes (i mod 10)) 32))
  end.

Definition be_value (bs : list byte) : Z :=
  fold_left (fun acc b => acc * 256 + Z.of_N (Byte.to_N b)) bs 0.

(** [crypto.randomInt(min, max)], from six bytes of the stream. *)
Definition randomInt (min max : Z) : M Z :=
  let* bs := randomBytes 6 in
  ret (min + be_value bs mod (max - min)).

Definition generateULID : M string :=
  let* now := Date_now in
  let* last := gets lastTime in
  let* _ :=
    if now =? last then modify (fun w => set_ulid (lastTime w) (lastRandom w + 1) w)
    else
      let* r := randomInt 0 (2 ^ 40) in
      modify (fun w => set_ulid now r w) in
  let ts := encodeTime 10 now "" in
  let* randBytes := randomBytes 10 in
  let rand := encodeRandom 16 0 randBytes "" in
  ret (ts +:+ rand).

(** ** [crypto/eddsa.ts], [crypto/keys.ts], [issuer/poseidon.ts] *)

Record EdDSASignature : Type := mkSignature {
  R8 : Z * Z;
  S_ : Z
}.

Definition generateKeyPair : M EdDSAKeyPair :=
  let* privateKeyBuf := randomBytes 32 in
  ret (mkKeyPair (Hex.encode privateKeyBuf) (prv2pub privateKeyBuf)).

Definition sign (privateKeyHex : string) (message : Z) : EdDSASignature :=
  let privateKeyBuf := Hex.decode privateKeyHex in
  let signature := signPoseidon privateKeyBuf (F_e message) in
  mkSignature signature.1 signature.2.

Definition verify (publicKey : Z * Z) (message : Z) (signature : EdDSASignature) : bool :=
  verifyPoseidon (F_e message)
    ((F_e (R8 signature).1, F_e (R8 signature).2), S_ signature)
    (F_e publicKey.1, F_e publicKey.2).

Definition getIssuerKeyPair : M EdDSAKeyPair :=
  let* cached := gets issuerKeyPair in
  match cached with
  | Some kp => ret kp
  | None =>
      let* file := gets issuerFile in
      match file with
      | Some data =>
          let* _ := modify (fun w => set_issuer (Some data) (issuerFile w) w) in
          ret data
      | None =>
          let* env := gets envIssuerPrivateKey in
          match env with
          | Some envKey =>
              if negb (String.eqb envKey "") then
                let* kp := generateKeyPair in
                let pair := mkKeyPair envKey (publicKey kp) in
                let* _ := modify (fun w => set_issuer (Some pair) (issuerFile w) w) in
                ret pair
              else
                let* kp := generateKeyPair in
                let* _ := modify (fun w => set_issuer (Some kp) (Some kp) w) in
                ret kp
          | None =>
              let* kp := generateKeyPair in
              let* _ := modify (fun w => set_issuer (Some kp) (Some kp) w) in
              ret kp
          end
      end
  end.

Definition poseidonHash (inputs : list Z) : Z := poseidon (map F_e inputs).

Definition hashCredential (age country secret : Z) : Z :=
  poseidonHash [age; country; secret].

(** ** [issuer/credential.ts] *)

(** The fields of [KycResult] that issuance reads. *)
Record KycResult : Type := mkKyc {
  passed : bool;
  dateOfBirth : string;
  countryCode : Z
}.

Record SignedCredential : Type := mkCredential {
  id : string;
  credentialHash : string;
  signatureR8 : string * string;
  signatureS : string;
  issuerPubKey : string * string;
  userSecret : string;
  boundAddress : option string;
  level : Z;
  issuedAt : Z;
  cred_expiresAt : Z
}.

Definition CREDENTIAL_TTL_MS : Z := 365 * 24 * 60 * 60 * 1000.

(** [crypto.randomUUID()]: sixteen random bytes with the version and
    variant bits of a version-4 UUID. *)
Definition uuid_text (bs : list byte) : string :=
  let fix_byte (i : nat) (b : byte) : byte :=
    let n := Byte.to_N b in
    let n' := if (i =? 6)%nat then (n mod 16 + 64)%N
              else if (i =? 8)%nat then (n mod 64 + 128)%N else n in
    default b (Byte.of_N n') in
  let bs' := imap fix_byte bs in
  Hex.encode (take 4 bs') +:+ "-" +:+ Hex.encode (take 2 (drop 4 bs')) +:+ "-"
  +:+ Hex.encode (take 2 (drop 6 bs')) +:+ "-" +:+ Hex.encode (take 2 (drop 8 bs'))
  +:+ "-" +:+ Hex.encode (drop 10 bs').

Definition randomUUID : M string :=
  let* bs := randomBytes 16 in
  ret (uuid_text bs).

(** The age arithmetic of [issueCredential] on two time values:
    [dob = new Date(dateOfBirth)] and [now = new Date()]. *)
Definition computeAge (dob now : Z) : Z :=
  let age := getFullYear now - getFullYear dob in
  let monthDiff := getMonth now - getMonth dob in
  if (monthDiff <? 0) || ((monthDiff =? 0) && (getDate now <? getDate dob))
  then age - 1 else age.

(** [level ?? (countryCode && age ? 3 : age ? 1 : 0)]. *)
Definition resolveLevel (level : option Z) (countryCode age : Z) : Z :=
  match level with
  | Some l => l
  | None =>
      if negb (countryCode =? 0) && negb (age =? 0) then 3
      else if negb (age =? 0) then 1 else 0
  end.

Definition issueCredential (kycResult : KycResult) (boundAddress : option string)
    (level : option Z) : M SignedCredential :=
  let* keyPair := getIssuerKeyPair in
  let* secretBytes := randomBytes 31 in
  let userSecret := be_value secretBytes in
  let dob := Date_parse (dateOfBirth kycResult) in
  let* now := Date_now in
  match dob with
  | None =>
      throw (JsError "The number NaN cannot be converted to a BigInt because it is not an integer")
  | Some dobTime =>
      let age := computeAge dobTime now in
      let credHash := hashCredential age (countryCode kycResult) userSecret in
      let signature := sign (privateKey keyPair) credHash in
      let* now_ts := Date_now in
      let resolvedLevel := resolveLevel level (countryCode kycResult) age in
      let* uuid := randomUUID in
      ret (mkCredential uuid (show credHash)
             (show (R8 signature).1, show (R8 signature).2)
             (show (S_ signature))
             (show (publicKey keyPair).1, show (publicKey keyPair).2)
             (show userSecret) boundAddress resolvedLevel now_ts
             (now_ts + CREDENTIAL_TTL_MS))
  end.

End Program.

(** ** [crypto/aes.ts]: key generation *)

Section Services.

Context {P : Platform}.


(** ** [issuer/escrow.ts]: erasure requests *)

(** [requestErasure]: [rotateEscrowEntry] with [forceErasure] at its
    default, [false]. *)
Definition requestErasure (escrowId requesterId : string) : M RotateResult :=
  rotateEscrowEntry escrowId requesterId false.

(** ** [db/stores.ts]: reading the audit log *)

(** The loop of [queryAuditLog] over the records of the log, taken here in
    the order they were added.  A record whose [enc]
    is empty is passed over, and the [try]/[catch] passes over a record
    that fails to decrypt or to parse; both count towards [limit]. *)
Fixpoint queryLoop (limit : Z) (storeKey : list byte) (records : list LogRecord)
    (count : Z) (entries : list JValue) : M (list JValue) :=
  match records with
  | [] => ret entries
  | record :: rest =>
      if limit <=? count then ret entries
      else
        let* entries' :=
          try_catch
            (if negb (String.eqb (log_enc record) "") then
               let payload :=
                 mkPayload (log_iv record) (log_enc record) (log_tag record) "aes-256-gcm" in
               let* plaintext := decrypt payload (KeyBuf storeKey) in
               match json_parse plaintext with
               | Some v => ret (entries ++ [v])%list
               | None => throw syntax_error
               end
             else ret entries)
            (fun _ => ret entries) in
        queryLoop limit storeKey rest (count + 1) entries'
  end.

(** [queryAuditLog(limit)]; the default [limit] is 100.  The loop runs only
    under the guard [all_is_asyncIterable]; otherwise [entries] is returned
    as it was created, empty. *)
Definition queryAuditLog (limit : Z) : M (list JValue) :=
  let* stores := getStores in
  let* storeKey := getStoreKey "auditLog" in
  let all := auditLog stores in
  if all_is_asyncIterable then queryLoop limit storeKey all 0 []
  else ret [].

End Services.

(** ** [api/middleware.ts]: API key authentication *)

(** What a middleware does with a request: it calls [next()], here with the
    API key it attached to the request, or it sends a response. *)
Inductive Middleware : Type :=
| next (apiKey : string)
| reply (r : Response).

(** [authHeader.slice(7)]. *)
Definition slice (start : nat) (s : string) : string :=
  substring start (String.length s - start) s.

(** [apiKeyAuth], with [API_KEYS] the set built at start-up and
    [authorization] the request's [Authorization] header, if any. *)
Definition apiKeyAuth (API_KEYS : list string) (authorization : option string)
    : Middleware :=
  match authorization with
  | Some authHeader =>
      if String.prefix "Bearer " authHeader then
        let apiKey := slice 7 authHeader in
        if negb (existsb (String.eqb apiKey) API_KEYS) then
          reply (mkResponse 403
                   (JObj [("error", JStr "Forbidden"); ("message", JStr "Invalid API key")]))
        else next apiKey
      else
        reply (mkResponse 401
                 (JObj [("error", JStr "Unauthorized");
                        ("message",
                          JStr "Missing or invalid Authorization header. Use: Bearer <api_key>")]))
  | None =>
      reply (mkResponse 401
               (JObj [("error", JStr "Unauthorized");
                      ("message",
                        JStr "Missing or invalid Authorization header. Use: Bearer <api_key>")]))
  end.

(** ** [db/orbit.ts]: the authorized peers *)

(** The module-level [Set] [authorizedPeers] is passed explicitly. *)
Definition authorizePeer (peerId : string) (authorizedPeers : gset string) : gset string :=
  {[peerId]} ∪ authorizedPeers.

Definition deauthorizePeer (peerId : string) (authorizedPeers : gset string) : gset string :=
  authorizedPeers ∖ {[peerId]}.

Definition isPeerAuthorized (peerId : string) (authorizedPeers : gset string) : bool :=
  if (size authorizedPeers =? 0)%nat then true
  else bool_decide (peerId ∈ authorizedPeers).

(** ** [kyc/merkle.ts] *)

(** [MerkleProof].  A path element read outside its layer is [undefined],
    here [None]. *)
Record MerkleProof : Type := mkMerkleProof {
  leaf : Z;
  mp_index : Z;
  pathElements : list (option Z);
  pathIndices : list Z;
  root : Z
}.

(** [class PoseidonMerkleTree].  [depth] is a natural number, as at its one
    call site. *)
Module PoseidonMerkleTree.
Section Methods.

Context {P : Platform}.

Record t : Type := mk {
  depth : nat;
  leaves : list Z;
  layers : list (list Z)
}.

Definition too_many (n maxLeaves : nat) : Exn :=
  JsError ("Too many leaves: " +:+ show (Z.of_nat n) +:+ " > " +:+ show (Z.of_nat maxLeaves)).

(** [new PoseidonMerkleTree(depth, leaves)]. *)
Definition constructor (depth : nat) (leaves : list Z) : Exn + t :=
  let maxLeaves := (2 ^ depth)%nat in
  if (maxLeaves <? length leaves)%nat then inl (too_many (length leaves) maxLeaves)
  else
    let padded := (leaves ++ repeat 0 (maxLeaves - length leaves))%list in
    inr (mk depth padded [padded]).

(** The inner loop of [build]: one hash per pair.  In a layer of odd
    length the last right-hand node is [undefined], which [F.e] refuses. *)
Fixpoint hashLayer (currentLayer : list Z) : Exn + list Z :=
  match currentLayer with
  | [] => inr []
  | [_] => inl (JsError "TypeError")
  | left_ :: right_ :: rest =>
      match hashLayer rest with
      | inr nextLayer => inr (poseidonHash [left_; right_] :: nextLayer)
      | inl e => inl e
      end
  end.

(** The outer loop of [build], for [count] more levels. *)
Fixpoint buildLoop (count : nat) (currentLayer : list Z) (layers : list (list Z))
    : Exn + list (list Z) :=
  match count with
  | O => inr layers
  | S n =>
      match hashLayer currentLayer with
      | inr nextLayer => buildLoop n nextLayer (layers ++ [nextLayer])
      | inl e => inl e
      end
  end.

(** [tree.build()]: the tree with its layers filled in. *)
Definition build (tree : t) : Exn + t :=
  match buildLoop (depth tree) (leaves tree) (layers tree) with
  | inr ls => inr (mk (depth tree) (leaves tree) ls)
  | inl e => inl e
  end.

(** [tree.root]. *)
Definition root (tree : t) : Exn + Z :=
  match last (layers tree) with
  | Some (top :: _) => inr top
  | _ => inl (JsError "Tree not built yet — call build() first")
  end.

(** The loop of [generateProof], from [level] for [count] more levels.
    Reading a layer that does not exist throws; reading past the end of a
    layer yields [undefined]. *)
Fixpoint pathLoop (count level currentIndex : nat) (layers : list (list Z))
    (pathElements : list (option Z)) (pathIndices : list Z)
    : Exn + (list (option Z) * list Z) :=
  match count with
  | O => inr (pathElements, pathIndices)
  | S n =>
      let isRight := Nat.odd currentIndex in
      let siblingIndex := if isRight then (currentIndex - 1)%nat else (currentIndex + 1)%nat in
      match layers !! level with
      | None => inl (JsError "TypeError")
      | Some layer =>
          pathLoop n (S level) (currentIndex / 2)%nat layers
            (pathElements ++ [layer !! siblingIndex])%list
            (pathIndices ++ [if isRight then 1 else 0])%list
      end
  end.

Definition out_of_range (index : Z) : Exn :=
  JsError ("Index out of range: " +:+ show index).

(** [tree.generateProof(index)], for an integer [index]. *)
Definition generateProof (tree : t) (index : Z) : Exn + MerkleProof :=
  if (index <? 0) || (Z.of_nat (length (leaves tree)) <=? index) then
    inl (out_of_range index)
  else
    match pathLoop (depth tree) 0 (Z.to_nat index) (layers tree) [] [] with
    | inl e => inl e
    | inr (pathElements, pathIndices) =>
        match root tree with
        | inl e => inl e
        | inr r =>
            inr (mkMerkleProof (default 0 (leaves tree !! Z.to_nat index)) index
                   pathElements pathIndices r)
        end
    end.

(** [Array.prototype.findIndex], counting from [i]. *)
Fixpoint findIndex (f : Z -> bool) (l : list Z) (i : Z) : Z :=
  match l with
  | [] => -1
  | x :: r => if f x then i else findIndex f r (i + 1)
  end.

(** [tree.indexOf(leaf)]. *)
Definition indexOf (tree : t) (leaf : Z) : Z :=
  findIndex (fun l => l =? leaf) (leaves tree) 0.

End Methods.
End PoseidonMerkleTree.

Section Sanctions.

Context {P : Platform}.

(** The loop of [verifyMerkleProof] over [pathElements], at position [i].
    An [undefined] sibling makes [F.e] throw; a missing path index is not
    [0] and takes the second branch. *)
Fixpoint verifyLoop (pathElements : list (option Z)) (i : nat) (pathIndices : list Z)
    (currentHash : Z) : Exn + Z :=
  match pathElements with
  | [] => inr currentHash
  | None :: _ => inl (JsError "TypeError")
  | Some sibling :: rest =>
      verifyLoop rest (S i) pathIndices
        (match pathIndices !! i with
         | Some 0 => poseidonHash [currentHash; sibling]
         | _ => poseidonHash [sibling; currentHash]
         end)
  end.

Definition verifyMerkleProof (proof : MerkleProof) : Exn + bool :=
  match verifyLoop (pathElements proof) 0 (pathIndices proof) (leaf proof) with
  | inl e => inl e
  | inr currentHash => inr (currentHash =? root proof)
  end.

(** ** [sanctions/ofac.ts] *)

Definition TREE_DEPTH : nat := 10.

Definition SANCTIONED_COUNTRY_CODES : list Z := [408; 364; 760; 192; 728].

(** [getSanctionsTree()].  The tree is built from constants, so the
    singleton it is kept in always holds this value. *)
Definition getSanctionsTree : Exn + PoseidonMerkleTree.t :=
  match PoseidonMerkleTree.constructor TREE_DEPTH SANCTIONED_COUNTRY_CODES with
  | inl e => inl e
  | inr tree => PoseidonMerkleTree.build tree
  end.

(** [isCountrySanctioned(countryCode)], for an integer code. *)
Definition isCountrySanctioned (countryCode : Z) : Exn + bool :=
  match getSanctionsTree with
  | inl e => inl e
  | inr tree => inr (negb (PoseidonMerkleTree.indexOf tree countryCode =? -1))
  end.

Definition getSanctionedCountries : list Z := SANCTIONED_COUNTRY_CODES.

End Sanctions.

(** ** A reference platform *)

(** A small executable instance of [Platform], used to run the model on
    concrete inputs.  Its cipher, hash and signature are not secure and its
    JSON text is not the JS one; they satisfy [PlatformLaws].  Its dates
    are the proleptic Gregorian calendar in UTC. *)
Module Reference.

#[local] Instance byte_eq_dec : EqDecision byte := Byte.byte_eq_dec.

(** The cipher keeps the plaintext, reversed, and authenticates it with
    the first four bytes of the key and the IV. *)
Definition seal (key ivb pt : list byte) : list byte * list byte :=
  (rev pt, (take 4 key ++ ivb)%list).

Definition open (key ivb ct tg : list byte) : option (list byte) :=
  if decide (tg = (take 4 key ++ ivb)%list) then Some (rev ct) else None.

(** The digest is the byte sum and the length, both modulo 256. *)
Definition digest (bs : list byte) : list byte :=
  let total := fold_left (fun acc b => (acc + Byte.to_N b)%N) bs 0%N in
  [default x00 (Byte.of_N (total mod 256)); default x00 (Byte.of_N (N.of_nat (length bs) mod 256))].

(** JSON text: the countable code of the value, in base 16. *)
Definition leaf : Type := bool + Z + string.

Fixpoint to_tree (v : JValue) : gen_tree leaf :=
  match v with
  | JNull => GenNode 0 []
  | JBool b => GenLeaf (inl (inl b))
  | JNum n => GenLeaf (inl (inr n))
  | JStr s => GenLeaf (inr s)
  | JArr items => GenNode 1 (map to_tree items)
  | JObj props =>
      GenNode 2 (map (fun kv => GenNode 3 [GenLeaf (inr kv.1); to_tree kv.2]) props)
  end.

Fixpoint of_tree (t : gen_tree leaf) : option JValue :=
  match t with
  | GenLeaf (inl (inl b)) => Some (JBool b)
  | GenLeaf (inl (inr n)) => Some (JNum n)
  | GenLeaf (inr s) => Some (JStr s)
  | GenNode 0 _ => Some JNull
  | GenNode 1 ts =>
      JArr <$> (fix go (l : list (gen_tree leaf)) : option (list JValue) :=
                  match l with
                  | [] => Some []
                  | t :: r =>
                      match of_tree t, go r with
                      | Some v, Some vs => Some (v :: vs)
                      | _, _ => None
                      end
                  end) ts
  | GenNode 2 ts =>
      JObj <$> (fix go (l : list (gen_tree leaf)) : option (list (string * JValue)) :=
                  match l with
                  | [] => Some []
                  | GenNode 3 [GenLeaf (inr k); t] :: r =>
                      match of_tree t, go r with
                      | Some v, Some kvs => Some ((k, v) :: kvs)
                      | _, _ => None
                      end
                  | _ :: _ => None
                  end) ts
  | GenNode _ _ => None
  end.

(** A positive number in base 16, least significant digit first; the
    letters [g] to [t] close the text with the last one to three bits. *)
Fixpoint nibbles (p : positive) : string :=
  match p with
  | xO (xO (xO (xO q))) => String "0" (nibbles q)
  | xI (xO (xO (xO q))) => String "1" (nibbles q)
  | xO (xI (xO (xO q))) => String "2" (nibbles q)
  | xI (xI (xO (xO q))) => String "3" (nibbles q)
  | xO (xO (xI (xO q))) => String "4" (nibbles q)
  | xI (xO (xI (xO q))) => String "5" (nibbles q)
  | xO (xI (xI (xO q))) => String "6" (nibbles q)
  | xI (xI (xI (xO q))) => String "7" (nibbles q)
  | xO (xO (xO (xI q))) => String "8" (nibbles q)
  | xI (xO (xO (xI q))) => String "9" (nibbles q)
  | xO (xI (xO (xI q))) => String "a" (nibbles q)
  | xI (xI (xO (xI q))) => String "b" (nibbles q)
  | xO (xO (xI (xI q))) => String "c" (nibbles q)
  | xI (xO (xI (xI q))) => String "d" (nibbles q)
  | xO (xI (xI (xI q))) => String "e" (nibbles q)
  | xI (xI (xI (xI q))) => String "f" (nibbles q)
  | xO (xO (xO xH)) => String "m" EmptyString
  | xI (xO (xO xH)) => String "n" EmptyString
  | xO (xI (xO xH)) => String "o" EmptyString
  | xI (xI (xO xH)) => String "p" EmptyString
  | xO (xO (xI xH)) => String "q" EmptyString
  | xI (xO (xI xH)) => String "r" EmptyString
  | xO (xI (xI xH)) => String "s" EmptyString
  | xI (xI (xI xH)) => String "t" EmptyString
  | xO (xO xH) => String "i" EmptyString
  | xI (xO xH) => String "j" EmptyString
  | xO (xI xH) => String "k" EmptyString
  | xI (xI xH) => String "l" EmptyString
  | xO xH => String "g" EmptyString
  | xI xH => String "h" EmptyString
  | xH => EmptyString
  end.

Fixpoint of_nibbles (s : string) : positive :=
  match s with
  | EmptyString => xH
  | String "0" r => xO (xO (xO (xO (of_nibbles r))))
  | String "1" r => xI (xO (xO (xO (of_nibbles r))))
  | String "2" r => xO (xI (xO (xO (of_nibbles r))))
  | String "3" r => xI (xI (xO (xO (of_nibbles r))))
  | String "4" r => xO (xO (xI (xO (of_nibbles r))))
  | String "5" r => xI (xO (xI (xO (of_nibbles r))))
  | String "6" r => xO (xI (xI (xO (of_nibbles r))))
  | String "7" r => xI (xI (xI (xO (of_nibbles r))))
  | String "8" r => xO (xO (xO (xI (of_nibbles r))))
  | String "9" r => xI (xO (xO (xI (of_nibbles r))))
  | String "a" r => xO (xI (xO (xI (of_nibbles r))))
  | String "b" r => xI (xI (xO (xI (of_nibbles r))))
  | String "c" r => xO (xO (xI (xI (of_nibbles r))))
  | String "d" r => xI (xO (xI (xI (of_nibbles r))))
  | String "e" r => xO (xI (xI (xI (of_nibbles r))))
  | String "f" r => xI (xI (xI (xI (of_nibbles r))))
  | String "m" _ => xO (xO (xO xH))
  | String "n" _ => xI (xO (xO xH))
  | String "o" _ => xO (xI (xO xH))
  | String "p" _ => xI (xI (xO xH))
  | String "q" _ => xO (xO (xI xH))
  | String "r" _ => xI (xO (xI xH))
  | String "s" _ => xO (xI (xI xH))
  | String "t" _ => xI (xI (xI xH))
  | String "i" _ => xO (xO xH)
  | String "j" _ => xI (xO xH)
  | String "k" _ => xO (xI xH)
  | String "l" _ => xI (xI xH)
  | String "g" _ => xO xH
  | String "h" _ => xI xH
  | String _ _ => xH
  end.

Definition stringify (v : JValue) : string :=
  String "J" (nibbles (encode (to_tree v))).

Definition parse (s : string) : option JValue :=
  match s with
  | String "J" r => decode (of_nibbles r) ≫= of_tree
  | _ => None
  end.

(** Field elements are their canonical integers.  The signature scheme
    is a toy one over them. *)
Definition hash (inputs : list Z) : Z :=
  fold_left (fun acc x => (acc * 31 + x + 1) mod BN254_r) inputs 0.

Definition public (sk : list byte) : Z * Z := (be_value sk mod BN254_r, 1).

Definition signature (sk : list byte) (msg : Z) : (Z * Z) * Z :=
  ((msg mod BN254_r, 0), (be_value sk + msg) mod BN254_r).

Definition check (msg : Z) (sig : (Z * Z) * Z) (pk : Z * Z) : bool :=
  (sig.1.1 =? msg mod BN254_r) && (sig.2 =? (pk.1 + msg) mod BN254_r).

(** The verifier reads its verdict from the proof object. *)
Definition groth16 (vkey : JValue) (signals : list string) (proof : JValue) : Exn + bool :=
  match field "pi_a" proof with
  | Some (JBool b) => inr b
  | Some _ => inr false
  | None => inl (JsError "Invalid proof")
  end.

(** Days since 1970-01-01 of a civil date, and back. *)
Definition days_from_civil (y m d : Z) : Z :=
  let y' := if m <=? 2 then y - 1 else y in
  let era := y' / 400 in
  let yoe := y' - era * 400 in
  let doy := (153 * (if 2 <? m then m - 3 else m + 9) + 2) / 5 + d - 1 in
  let doe := yoe * 365 + yoe / 4 - yoe / 100 + doy in
  era * 146097 + doe - 719468.

Definition civil_from_days (z : Z) : Z * Z * Z :=
  let z' := z + 719468 in
  let era := z' / 146097 in
  let doe := z' - era * 146097 in
  let yoe := (doe - doe / 1460 + doe / 36524 - doe / 146096) / 365 in
  let doy := doe - (365 * yoe + yoe / 4 - yoe / 100) in
  let mp := (5 * doy + 2) / 153 in
  let d := doy - (153 * mp + 2) / 5 + 1 in
  let m := if mp <? 10 then mp + 3 else mp - 9 in
  ((yoe + era * 400 + (if m <=? 2 then 1 else 0), m), d).

Definition msPerDay : Z := 86400000.

Definition year (ms : Z) : Z := (civil_from_days (ms / msPerDay)).1.1.
Definition month (ms : Z) : Z := (civil_from_days (ms / msPerDay)).1.2 - 1.
Definition day (ms : Z) : Z := (civil_from_days (ms / msPerDay)).2.

Definition digit_value (c : ascii) : option Z :=
  if is_digit c then Some (Z.of_N (N_of_ascii c) - 48) else None.

Fixpoint number (s : string) (acc : Z) : option Z :=
  match s with
  | EmptyString => Some acc
  | String c r =>
      match digit_value c with
      | Some d => number r (acc * 10 + d)
      | None => None
      end
  end.

(** Dates of the form [YYYY-MM-DD], read as UTC midnight. *)
Definition parse_date (s : string) : option Z :=
  if (String.length s =? 10)%nat
     && String.eqb (substring 4 1 s) "-" && String.eqb (substring 7 1 s) "-" then
    match number (substring 0 4 s) 0, number (substring 5 2 s) 0,
          number (substring 8 2 s) 0 with
    | Some y, Some m, Some d =>
        if (1 <=? m) && (m <=? 12) && (1 <=? d) && (d <=? 31)
        then Some (days_from_civil y m d * msPerDay) else None
    | _, _, _ => None
    end
  else None.

Definition pad (width : nat) (n : Z) : string :=
  let s := show n in
  String.concat "" (repeat "0" (width - String.length s)) +:+ s.

Definition iso (ms : Z) : string :=
  let t := ms mod msPerDay in
  pad 4 (year ms) +:+ "-" +:+ pad 2 (month ms + 1) +:+ "-" +:+ pad 2 (day ms)
  +:+ "T" +:+ pad 2 (t / 3600000) +:+ ":" +:+ pad 2 (t / 60000 mod 60)
  +:+ ":" +:+ pad 2 (t / 1000 mod 60) +:+ "." +:+ pad 3 (t mod 1000) +:+ "Z".

#[export] Instance platform : Platform := {|
  aes256gcm_seal := seal;
  aes256gcm_open := open;
  sha256 := digest;
  json_stringify := stringify;
  json_parse := parse;
  poseidon := hash;
  prv2pub := public;
  signPoseidon := signature;
  verifyPoseidon := check;
  groth16_verify := groth16;
  toISOString := iso;
  Date_parse := parse_date;
  getFullYear := year;
  getMonth := month;
  getDate := day
|}.

(** Worlds to run examples in: the clock shows the given readings, or
    starts at [start] and advances one millisecond per reading; the byte
    stream counts up from 0, the
    stores are open and empty, the five store keys are derived, and the
    verification key file holds [null]. *)
Definition key32 (b : byte) : list byte := repeat b 32.

Definition counting (n : nat) : byte :=
  default x00 (Byte.of_N (N.of_nat n mod 256)).

Definition keys : gmap string (list byte) :=
  <["escrow" := key32 x01]> (<["credentials" := key32 x05]>
    (<["nullifiers" := key32 x03]> (<["proofCache" := key32 x04]>
      (<["auditLog" := key32 x02]> ∅)))).

Definition world_at (readings : nat -> Z) : World :=
  mkWorld readings 0 counting 0
    (Some (mkStores ∅ ∅ ∅ [])) keys [] 0 0 None None None
    (Some (stringify JNull)).

Definition world (start : Z) : World :=
  world_at (fun n => start + Z.of_nat n).

End Reference.

(** * The vocabulary of the statements *)

(** Names for the values the functions above build in a given state, so
    that the properties below can say what a call stored, logged or
    returned. *)

Section Vocabulary.

Context {P : Platform}.

(** The next [n] bytes of the CSPRNG. *)
Definition next_bytes (n : nat) (w : World) : list byte :=
  map (entropy w) (seq (drawn w) n).

(** The payload [encrypt] builds from a key, an IV and a plaintext. *)
Definition sealed (key ivb : list byte) (plaintext : string) : EncryptedPayload :=
  mkPayload (Hex.encode ivb)
    (Hex.encode (aes256gcm_seal key ivb (list_byte_of_string plaintext)).1)
    (Hex.encode (aes256gcm_seal key ivb (list_byte_of_string plaintext)).2)
    ALGORITHM.

(** The record [encryptedKVPut] stores for a payload. *)
Definition kv_record (p : EncryptedPayload) : KVRecord :=
  mkKV (ciphertext p) (iv p) (tag p) (algorithm p).

(** The record [appendAuditLog] adds for an entry. *)
Definition log_record (p : EncryptedPayload) : LogRecord :=
  mkLog (ciphertext p) (iv p) (tag p).

Definition with_log (r : LogRecord) (st : ZeroIdStores) : ZeroIdStores :=
  mkStores (escrow st) (nullifiers st) (proofCache st) (auditLog st ++ [r]).

(** One record of the audit log read back: decrypted with the store key
    and parsed, as the loop body of [queryAuditLog] does it. *)
Definition readLogRecord (r : LogRecord) : M JValue :=
  let* storeKey := getStoreKey "auditLog" in
  let* plaintext := decrypt (mkPayload (log_iv r) (log_enc r) (log_tag r) "aes-256-gcm")
                      (KeyBuf storeKey) in
  match json_parse plaintext with
  | Some v => ret v
  | None => throw syntax_error
  end.

(** An audit entry's JSON form is representable when its timestamp is a
    safe integer and its metadata keys are distinct and not array indices. *)
Definition metadata_ok (md : list (string * string)) : bool :=
  distinct_keys (map fst md) && forallb (fun k => negb (is_index_key k)) (map fst md).

(** A reading of the clock within the range of JS time values. *)
Definition time_value (t : Z) : Prop := 0 <= t <= 8640000000000000.

(** The record stored under an escrow id, if any. *)
Definition escrowRecord (w : World) (escrowId : string) : option KVRecord :=
  storesInstance w ≫= fun st => escrow st !! escrowId.

(** The record stored under a nullifier, if any. *)
Definition nullifierRecord (w : World) (nullifier : string) : option KVRecord :=
  storesInstance w ≫= fun st => nullifiers st !! nullifier.

(** The entry [putEscrowEntry] builds in state [w]. *)
Definition escrow_entry_of (w : World) (rawPII : JValue)
    (regulatorKey regulatorKeyId credentialId jurisdiction : string) : EscrowEntry :=
  mkEscrow
    (sealed (Hex.decode regulatorKey) (next_bytes 12 w) (json_stringify rawPII))
    regulatorKeyId credentialId (clock w (ticks w))
    ((fun r => clock w (S (ticks w)) + r) <$> getRetentionMs jurisdiction)
    false (sha256_hex (json_stringify rawPII)).

(** The [expiresAt] that [putEscrowEntry] computes in state [w]. *)
Definition expiry_of (w : World) (jurisdiction : string) : option Z :=
  (fun r => clock w (S (ticks w)) + r) <$> getRetentionMs jurisdiction.

(** What [getEscrowEntry] does after its audit entry is written: decrypt
    with the regulator key, compare the hash, parse. *)
Definition openBlob (entry : EscrowEntry) (regulatorKey : string) : M JValue :=
  let* plaintext := decrypt (encryptedBlob entry) (KeyHex regulatorKey) in
  if negb (String.eqb (sha256_hex plaintext) (integrityHash entry))
  then throw integrity_failed
  else
    match json_parse plaintext with
    | Some v => ret v
    | None => throw syntax_error
    end.

(** The audit entry [getEscrowEntry] writes. *)
Definition access_entry (escrowId actorId : string) (t : Z) (entry : EscrowEntry)
    : AuditLogEntry :=
  mkAudit escrow_access escrowId actorId t [("regulatorKeyId", regulatorKeyId entry)].

(** The state [getEscrowEntry] reaches once it has written its audit
    entry: two clock readings, one IV, one more log record. *)
Definition accessed (w : World) (st : ZeroIdStores) (kA : list byte)
    (escrowId actorId : string) (entry : EscrowEntry) : World :=
  set_stores
    (Some (with_log
             (log_record
                (sealed kA (next_bytes 12 w)
                   (json_stringify
                      (audit_json (access_entry escrowId actorId (clock w (S (ticks w))) entry)))))
             st))
    (set_drawn (drawn w + 12) (set_ticks (S (S (ticks w))) w)).

(** The entry [rotateEscrowEntry] writes over [entry] when it shreds in
    state [w] (after its clock reading). *)
Definition shredded_entry (w : World) (entry : EscrowEntry) : EscrowEntry :=
  mkEscrow
    (sealed (next_bytes 32 (set_drawn (drawn w + 256) w))
       (next_bytes 12 (set_drawn (drawn w + 256 + 32) w))
       (Hex.encode (next_bytes 256 w)))
    (regulatorKeyId entry) (credentialId entry) (createdAt entry) (expiresAt entry)
    true "INVALIDATED".

(** The entry [registerNullifier] stores in state [w]. *)
Definition registered_entry (w : World) (credentialId appId : string) : NullifierEntry :=
  mkNullifier true credentialId appId (clock w (ticks w)).

(** The key pair [generateKeyPair] makes from the next 32 bytes. *)
Definition fresh_pair (w : World) : EdDSAKeyPair :=
  mkKeyPair (Hex.encode (next_bytes 32 w)) (prv2pub (next_bytes 32 w)).

(** What the batch reports for the entry at position [i]. *)
Definition resultFor (vkey : JValue) (i : nat) (entry : AggregateProofEntry)
    : AggregateResultEntry :=
  match verifyProofWithKey (ap_proof entry) (ap_publicSignals entry) vkey with
  | inr valid => mkResultEntry (Z.of_nat i) valid None
  | inl (JsError m) => mkResultEntry (Z.of_nat i) false (Some m)
  | inl NonError => mkResultEntry (Z.of_nat i) false (Some "Unknown error")
  end.

(** The character [ENCODING[n]] for an index inside the alphabet. *)
Definition enc_char (n : Z) : ascii :=
  match String.get (Z.to_nat n) ENCODING with
  | Some c => c
  | None => "0"%char
  end.

(** Every character of [s] is one of the 32 of [ENCODING]. *)
Definition crockford (s : string) : bool :=
  forallb (fun c => existsb (Ascii.eqb c) (list_ascii_of_string ENCODING))
    (list_ascii_of_string s).

(** The random segment, character by character: position [j] shows byte
    [j mod 10]. *)
Definition randomSegment (bs : list byte) : string :=
  string_of_list_ascii
    (map (fun j => enc_char (Z.rem (byte_at bs (j mod 10)) 32)) (seq 0 16)).

End Vocabulary.

(** ** The vocabulary of the further properties *)

Section Vocabulary2.

Context {P : Platform}.

(** The layers of a built tree from some level upwards: each layer is the
    hash of the one below it, and the top layer is a single node. *)
Inductive stacked : list (list Z) -> Prop :=
| stacked_top (top : Z) : stacked [[top]]
| stacked_level (l l' : list Z) (rest : list (list Z)) :
    PoseidonMerkleTree.hashLayer l = inr l' -> stacked (l' :: rest) ->
    stacked (l :: l' :: rest).

(** The number whose binary digits are [bits], least significant first. *)
Fixpoint of_bits (bits : list Z) : Z :=
  match bits with
  | [] => 0
  | b :: r => b + 2 * of_bits r
  end.

(** [new PoseidonMerkleTree(depth, leaves)] followed by [build()], as in
    [getSanctionsTree]. *)
Definition builtTree (depth : nat) (leaves : list Z) : Exn + PoseidonMerkleTree.t :=
  match PoseidonMerkleTree.constructor depth leaves with
  | inl e => inl e
  | inr tree => PoseidonMerkleTree.build tree
  end.

(** The leaves the constructor keeps: the given ones, then zeros up to
    [2 ^ depth]. *)
Definition padded (depth : nat) (leaves : list Z) : list Z :=
  (leaves ++ repeat 0 (2 ^ depth - length leaves))%list.

(** The escrow entry a stored record holds: what [decryptKVGet] and the
    cast to [EscrowEntry] make of it. *)
Definition stored_entry (w : World) (raw : KVRecord) : option EscrowEntry :=
  match outcome (decryptKVGet (Some raw) "escrow") w with
  | inr v => as_escrow v
  | inl _ => None
  end.

(** The audit entries [rotateEscrowEntry] writes. *)
Definition deferred_entry (escrowId actorId : string) (t : Z) (iso : string)
    : AuditLogEntry :=
  mkAudit escrow_rotate escrowId actorId t
    [("result", "deferred"); ("reason", "retention_period_active"); ("expiresAt", iso)].

Definition completed_entry (escrowId actorId : string) (t : Z) : AuditLogEntry :=
  mkAudit escrow_rotate escrowId actorId t [("result", "completed")].

(** The audit entry [putEscrowEntry] writes. *)
Definition create_entry (escrowId : string) (t : Z)
    (regulatorKeyId jurisdiction credentialId : string) : AuditLogEntry :=
  mkAudit escrow_create escrowId "system" t
    [("regulatorKeyId", regulatorKeyId); ("jurisdiction", jurisdiction);
     ("credentialId", credentialId)].

(** The audit entry [registerNullifier] writes. *)
Definition register_entry (nullifier : string) (t : Z) (appId : string) : AuditLogEntry :=
  mkAudit nullifier_register nullifier "system" t [("appId", appId)].

(** The records of the audit log, oldest first; none when the stores are
    not open. *)
Definition audit_trail (w : World) : list LogRecord :=
  match storesInstance w with
  | Some st => auditLog st
  | None => []
  end.

(** A computation that only ever adds to the audit log: the log after is
    the log before followed by the records added, and open stores stay
    open. *)
Definition extends_trail {A} (m : M A) : Prop :=
  forall w,
    (exists added, audit_trail (after m w) = (audit_trail w ++ added)%list) /\
    (is_Some (storesInstance w) -> is_Some (storesInstance (after m w))).

(** The position of a character in [ENCODING] (0 for any other
    character), and the number a string of such characters denotes in base
    32, most significant digit first. *)
Fixpoint position (c : ascii) (alphabet : string) : Z :=
  match alphabet with
  | EmptyString => 0
  | String a r => if Ascii.eqb c a then 0 else 1 + position c r
  end.

Definition crockford_value (c : ascii) : Z :=
  let n := position c ENCODING in if n <? 32 then n else 0.

Fixpoint base32_value (s : string) (acc : Z) : Z :=
  match s with
  | EmptyString => acc
  | String c r => base32_value r (acc * 32 + crockford_value c)
  end.

End Vocabulary2.

(** * Properties *)

(** ** Hexadecimal text *)

Lemma hex_decode_encode_byte (b : byte) (r : list byte) :
  Hex.decode (Hex.encode (b :: r)) = b :: Hex.decode (Hex.encode r).
Proof. destruct b; reflexivity. Qed.

Lemma hex_decode_encode (bs : list byte) : Hex.decode (Hex.encode bs) = bs.
Proof.
  induction bs as [|b r IH]; [reflexivity|].
  rewrite hex_decode_encode_byte. now rewrite IH.
Qed.

Lemma hex_encode_nonempty (bs : list byte) : bs <> [] -> Hex.encode bs <> EmptyString.
Proof. destruct bs; [congruence | discriminate]. Qed.

(** ** The reference platform satisfies the laws *)

Module ReferenceFacts.
Import Reference.

Lemma of_nibbles_nibbles : forall p, of_nibbles (nibbles p) = p.
Proof.
  fix IH 1. intros p.
  do 4 (try destruct p as [p|p|]); simpl; try rewrite IH; reflexivity.
Qed.

Lemma of_to_tree : forall v, of_tree (to_tree v) = Some v.
Proof.
  fix IH 1. intros [ | b | n | s | items | props]; simpl; try reflexivity.
  - induction items as [|x r IHr]; simpl; [reflexivity|].
    rewrite IH. simpl in IHr.
    destruct (_ (map to_tree r)) as [vs|] eqn:E in IHr |- *; simpl in *; congruence.
  - induction props as [|[k x] r IHr]; simpl; [reflexivity|].
    rewrite IH. simpl in IHr.
    destruct (_ (map _ r)) as [vs|] eqn:E in IHr |- *; simpl in *; congruence.
Qed.

Lemma parse_stringify (v : JValue) : parse (stringify v) = Some v.
Proof.
  unfold parse, stringify. rewrite of_nibbles_nibbles, decode_encode.
  simpl. apply of_to_tree.
Qed.

#[export] Instance laws : PlatformLaws platform.
Proof.
  split; simpl.
  - intros key ivb pt. unfold open, seal. simpl.
    rewrite decide_True by reflexivity. now rewrite rev_involutive.
  - intros key ivb pt. apply length_rev.
  - discriminate.
  - intros v _. apply parse_stringify.
  - intros sk msg. unfold check, signature, public. simpl.
    rewrite Z.eqb_refl. simpl. apply Z.eqb_eq.
    now rewrite Zplus_mod_idemp_l.
  - intros sk. unfold public. simpl. split; [apply Zmod_mod | reflexivity].
  - intros sk msg. unfold signature. simpl. split; [apply Zmod_mod | reflexivity].
Qed.

End ReferenceFacts.

(** ** [generateULID] *)

Lemma small_index (n : Z) :
  0 <= n < 32 -> exists k, (k < 32)%nat /\ n = Z.of_nat k.
Proof. intros H. exists (Z.to_nat n). lia. Qed.

Lemma ENCODING_at_char (n : Z) :
  0 <= n < 32 ->
  ENCODING_at n = String (enc_char n) EmptyString /\
  existsb (Ascii.eqb (enc_char n)) (list_ascii_of_string ENCODING) = true.
Proof.
  intros H. destruct (small_index n H) as (k & Hk & ->).
  do 32 (destruct k as [|k]; [split; reflexivity|]). lia.
Qed.

Lemma rem_32_small (n : Z) : 0 <= n -> 0 <= Z.rem n 32 < 32.
Proof. intros H. rewrite Z.rem_mod_nonneg by lia. apply Z.mod_pos_bound. lia. Qed.

Lemma byte_at_nonneg (bs : list byte) (i : nat) : 0 <= byte_at bs i.
Proof. unfold byte_at. destruct (bs !! i); lia. Qed.

Lemma append_cons (c : ascii) (a b : string) :
  String c a +:+ b = String c (a +:+ b).
Proof. reflexivity. Qed.

Lemma append_nil_r (a : string) : a +:+ "" = a.
Proof. induction a as [|c a IH]; [reflexivity|]. now rewrite append_cons, IH. Qed.

Lemma append_assoc (a b c : string) : (a +:+ b) +:+ c = a +:+ b +:+ c.
Proof. induction a as [|x a IH]; [reflexivity|]. now rewrite !append_cons, IH. Qed.

Lemma crockford_app (a b : string) :
  crockford (a +:+ b) = crockford a && crockford b.
Proof.
  unfold crockford. induction a as [|c a IH]; [reflexivity|].
  rewrite append_cons. cbn [list_ascii_of_string forallb].
  rewrite IH. now rewrite andb_assoc.
Qed.

Lemma length_app_string (a b : string) :
  String.length (a +:+ b) = (String.length a + String.length b)%nat.
Proof.
  induction a as [|c a IH]; [reflexivity|].
  rewrite append_cons. simpl. now rewrite IH.
Qed.

Lemma get_app_right (a b : string) (i : nat) :
  String.get (String.length a + i) (a +:+ b) = String.get i b.
Proof. induction a as [|c a IH]; [reflexivity|]. rewrite append_cons. exact IH. Qed.

Lemma encodeTime_shape (count : nat) :
  forall now ts, 0 <= now ->
    exists pre, encodeTime count now ts = pre +:+ ts /\
                String.length pre = count /\ crockford pre = true.
Proof.
  induction count as [|n IH]; intros now ts Hnow; simpl.
  - exists EmptyString. repeat split.
  - destruct (ENCODING_at_char _ (rem_32_small now Hnow)) as [Hc Ha].
    destruct (IH (now / 32) (ENCODING_at (Z.rem now 32) +:+ ts)) as (pre & He & Hl & Hp).
    { apply Z.div_pos; lia. }
    exists (pre +:+ String (enc_char (Z.rem now 32)) EmptyString).
    rewrite He, Hc. repeat split.
    + now rewrite append_assoc.
    + rewrite length_app_string. simpl. lia.
    + rewrite crockford_app, Hp. unfold crockford.
      cbn [list_ascii_of_string forallb]. now rewrite Ha.
Qed.

Lemma encodeRandom_segment (bs : list byte) :
  encodeRandom 16 0 bs "" = randomSegment bs.
Proof.
  unfold randomSegment. cbn [encodeRandom seq map].
  repeat match goal with
         | |- context [ENCODING_at (Z.rem (byte_at bs ?i) 32)] =>
             rewrite (proj1 (ENCODING_at_char _ (rem_32_small _ (byte_at_nonneg bs i))))
         end.
  reflexivity.
Qed.

Lemma randomSegment_shape (bs : list byte) :
  String.length (randomSegment bs) = 16%nat /\
  crockford (randomSegment bs) = true /\
  forall i, (i < 6)%nat ->
    String.get (10 + i) (randomSegment bs) = String.get i (randomSegment bs).
Proof.
  split; [reflexivity|]. split.
  - unfold crockford, randomSegment.
    rewrite list_ascii_of_string_of_list_ascii.
    apply forallb_forall. intros c Hc. apply in_map_iff in Hc as (j & <- & _).
    apply (ENCODING_at_char _ (rem_32_small _ (byte_at_nonneg bs _))).
  - intros i Hi. do 6 (destruct i as [|i]; [reflexivity|]). lia.
Qed.

(** C9: an id returned by [generateULID] (with the clock at or after the
    epoch) has 26 characters of the Crockford alphabet; the characters at
    positions 20 to 25 repeat those at positions 10 to 15; and the id is
    the same whatever the value of [lastRandom]. *)
Theorem generateULID_repeats_random_bytes (w : World) :
  0 <= clock w (ticks w) ->
  exists id,
    (generateULID w).1 = inr id /\
    String.length id = 26%nat /\
    crockford id = true /\
    (forall i, (i < 6)%nat -> String.get (20 + i) id = String.get (10 + i) id) /\
    (forall r, (generateULID (set_ulid (lastTime w) r w)).1 = inr id).
Proof.
  intros Hnow.
  destruct (encodeTime_shape 10 (clock w (ticks w)) "" Hnow) as (pre & He & Hl & Hp).
  assert (Hpre : encodeTime 10 (clock w (ticks w)) "" = pre).
  { rewrite He. apply append_nil_r. }
  unfold generateULID, randomInt, bind, Date_now, gets, modify, randomBytes, ret.
  cbn [ticks clock lastTime lastRandom entropy drawn set_ticks set_ulid set_drawn fst snd].
  destruct (clock w (ticks w) =? lastTime w) eqn:Heq;
    cbn [ticks clock lastTime lastRandom entropy drawn set_ticks set_ulid set_drawn fst snd];
    rewrite !Hpre, !encodeRandom_segment;
    (eexists; split; [reflexivity|]);
    match goal with
    | |- context [randomSegment ?bs] =>
        destruct (randomSegment_shape bs) as (Rl & Rc & Rr)
    end.
  all: split; [rewrite length_app_string, Hl, Rl; reflexivity|].
  all: split; [rewrite crockford_app, Hp, Rc; reflexivity|].
  all: split; [|reflexivity].
  all: intros i Hi; change (20 + i)%nat with (10 + (10 + i))%nat;
    rewrite <- !Hl, !get_app_right, Hl; now apply Rr.
Qed.

(** The first id issued in the reference world. *)
Lemma generateULID_repeats_random_bytes_witness :
  0 <= clock (Reference.world 1700000000000) (ticks (Reference.world 1700000000000)) /\
  exists id,
    (generateULID (Reference.world 1700000000000)).1 = inr id /\
    String.length id = 26%nat /\
    crockford id = true /\
    (forall i, (i < 6)%nat -> String.get (20 + i) id = String.get (10 + i) id) /\
    (forall r, (generateULID (set_ulid (lastTime (Reference.world 1700000000000)) r
                                (Reference.world 1700000000000))).1 = inr id).
Proof.
  split; [vm_compute; discriminate|].
  apply (generateULID_repeats_random_bytes (Reference.world 1700000000000)).
  vm_compute; discriminate.
Defined.

(** ** [aggregateProofs] *)

Lemma imap_settled `{Platform} (vkey : JValue) (proofs : list AggregateProofEntry) :
  forall (f : nat -> nat),
    map (fun r => match r with
                  | fulfilled value => value
                  | rejected _ => mkResultEntry 0 false (Some "Verification threw unexpectedly")
                  end)
      (allSettled (imap (fun i => verifyTask vkey (f i)) proofs))
    = imap (fun i => resultFor vkey (f i)) proofs.
Proof.
  induction proofs as [|e r IH]; intros f; [reflexivity|].
  cbn [imap allSettled map]. f_equal.
  - unfold verifyTask, resultFor.
    destruct (verifyProofWithKey _ _ _) as [[m|]|v]; reflexivity.
  - apply (IH (fun i => f (S i))).
Qed.

Lemma results_aggregate `{Platform} (proofs : list AggregateProofEntry) (vkey : JValue) :
  results (aggregateProofs proofs vkey) = imap (resultFor vkey) proofs.
Proof.
  unfold aggregateProofs. destruct proofs as [|e r]; [reflexivity|].
  cbn [length Nat.eqb results]. apply (imap_settled vkey (e :: r) (fun i => i)).
Qed.

Lemma index_imap `{Platform} (vkey : JValue) (proofs : list AggregateProofEntry) :
  forall (f : nat -> nat),
    map index (imap (fun i => resultFor vkey (f i)) proofs)
    = map (fun i => Z.of_nat (f i)) (seq 0 (length proofs)).
Proof.
  induction proofs as [|e r IH]; intros f; [reflexivity|].
  cbn [imap map length seq]. f_equal.
  - unfold resultFor. destruct (verifyProofWithKey _ _ _) as [[m|]|v]; reflexivity.
  - rewrite <- seq_shift, map_map. apply (IH (fun i => f (S i))).
Qed.

(** C8: the batch of no proofs is vacuously all valid, and the request
    schema of the route admits only 1 to 100 entries, so the route answers
    an empty list with a validation error and never passes it on. *)
Theorem aggregateProofs_empty `{Platform} (vkey : JValue) :
  aggregateProofs [] vkey = mkAggregate true 0 0 [] /\
  (forall body,
      match aggregateRequestSchema body with
      | Some proofs => (1 <= length proofs <= 100)%nat
      | None => True
      end) /\
  (forall w, postProofAggregate (JObj [("proofs", JArr [])]) w = (inr validation_error, w)).
Proof.
  split; [reflexivity|]. split; [|reflexivity].
  intros body. unfold aggregateRequestSchema.
  destruct body; try exact I.
  destruct (field "proofs" _) as [[| | | |items|]|]; try exact I.
  destruct (entries_of items) as [l|]; [|exact I].
  destruct (1 <=? length l)%nat eqn:H1; [|exact I].
  destruct (length l <=? 100)%nat eqn:H2; [|exact I].
  cbn [andb]. apply Nat.leb_le in H1, H2. lia.
Qed.

(** C7, as the code has it: [total] is the number of proofs; [allValid]
    holds exactly when [validCount] equals [total]; the result at position
    [i] has [index] [i] and is determined by entry [i] alone: the verifier's
    verdict without an error string when it returns, [valid: false] with
    the error's message when it throws. *)
Theorem aggregateProofs_results `{Platform} (proofs : list AggregateProofEntry)
    (vkey : JValue) :
  let r := aggregateProofs proofs vkey in
  total r = Z.of_nat (length proofs) /\
  (allValid r = true <-> validCount r = total r) /\
  validCount r = Z.of_nat (length (filter (fun e => ar_valid e = true) (results r))) /\
  map index (results r) = map Z.of_nat (seq 0 (length proofs)) /\
  results r = imap (resultFor vkey) proofs.
Proof.
  cbn zeta. rewrite results_aggregate.
  split; [|split; [|split; [|split]]].
  - unfold aggregateProofs. destruct proofs; reflexivity.
  - unfold aggregateProofs. destruct proofs as [|e l]; [cbn; tauto|].
    cbn [length Nat.eqb allValid validCount total]. apply Z.eqb_eq.
  - rewrite <- results_aggregate. unfold aggregateProofs.
    destruct proofs as [|e l]; reflexivity.
  - apply (index_imap vkey proofs (fun i => i)).
  - reflexivity.
Qed.

(** C7 as stated fails: an entry whose verification fails without throwing
    is reported with [valid: false] and no error string. *)
Lemma aggregate_failure_has_no_error_string :
  let bad := mkProofEntry (JObj [("pi_a", JBool false)]) ["1"] in
  let r := aggregateProofs (P := Reference.platform) [bad] JNull in
  verifyProofWithKey (P := Reference.platform) (ap_proof bad) (ap_publicSignals bad) JNull
    = inr false /\
  results r = [mkResultEntry 0 false None] /\
  ~ (exists e msg, results r !! 0%nat = Some e /\ error e = Some msg).
Proof.
  cbn zeta. split; [reflexivity|]. split; [reflexivity|].
  intros (e & msg & He & Hm). vm_compute in He. injection He as <-. discriminate.
Qed.

(** ** The in-memory LRU *)

Lemma JsMap_get_delete {V} (key : string) (m : list (string * V)) :
  NoDup (map fst m) -> JsMap.get key (JsMap.delete key m) = None.
Proof.
  induction m as [|[k v] r IH]; intros Hd; [reflexivity|].
  apply NoDup_cons in Hd as [Hk Hr]. cbn [JsMap.delete].
  destruct (String.eqb key k) eqn:E.
  - apply String.eqb_eq in E as <-. clear IH Hr.
    induction r as [|[k2 v2] r IH]; [reflexivity|].
    cbn [JsMap.get]. destruct (String.eqb key k2) eqn:E2.
    + apply String.eqb_eq in E2 as <-. exfalso. apply Hk. cbn. left.
    + apply IH. intros Hin. apply Hk. cbn. now right.
  - cbn [JsMap.get]. rewrite E. now apply IH.
Qed.

Lemma JsMap_set_fresh {V} (key : string) (v : V) (m : list (string * V)) :
  JsMap.get key m = None -> JsMap.set key v m = (m ++ [(key, v)])%list.
Proof.
  induction m as [|[k x] r IH]; intros Hg; [reflexivity|].
  cbn [JsMap.get] in Hg. cbn [JsMap.set]. destruct (String.eqb key k); [discriminate|].
  cbn. now rewrite IH.
Qed.

Lemma JsMap_delete_first {V} (m : list (string * V)) :
  match JsMap.first_key m with
  | Some oldest => JsMap.delete oldest m
  | None => m
  end = tail m.
Proof. destruct m as [|[k v] r]; [reflexivity|]. cbn. now rewrite String.eqb_refl. Qed.

(** C6, as the code has it.  With [now] the clock reading of the call:
    [get] checks the TTL: an entry older than [ttl] is deleted and not
    returned, a fresher one is returned and moved to the most-recent end;
    so [get] never returns an entry older than the TTL.  [set] checks no
    TTL: at capacity it drops the least-recently-used entry (the head),
    whatever the age of the entries, and then stores the new entry. *)
Theorem lru_get_checks_ttl_set_evicts_oldest (ttl max : Z) (key : string)
    (v : bool) (nf : string) (w : World) :
  NoDup (map fst (memoryCache w)) ->
  let now := clock w (ticks w) in
  let cache := memoryCache w in
  match JsMap.get key cache with
  | None => LRUMemoryCache.get ttl key w = (inr None, w)
  | Some e =>
      if ttl <? now - timestamp e then
        outcome (LRUMemoryCache.get ttl key) w = inr None /\
        memoryCache (after (LRUMemoryCache.get ttl key) w) = JsMap.delete key cache
      else
        outcome (LRUMemoryCache.get ttl key) w = inr (Some e) /\
        memoryCache (after (LRUMemoryCache.get ttl key) w)
          = (JsMap.delete key cache ++ [(key, e)])%list
  end /\
  (forall e, outcome (LRUMemoryCache.get ttl key) w = inr (Some e) ->
             now - timestamp e <= ttl) /\
  outcome (LRUMemoryCache.set max key v nf) w = inr tt /\
  memoryCache (after (LRUMemoryCache.set max key v nf) w)
    = JsMap.set key (mkMem v nf now)
        (if max <=? Z.of_nat (length cache) then tail cache else cache).
Proof.
  intros Hd now cache.
  assert (Hget :
    match JsMap.get key cache with
    | None => LRUMemoryCache.get ttl key w = (inr None, w)
    | Some e =>
        if ttl <? now - timestamp e then
          outcome (LRUMemoryCache.get ttl key) w = inr None /\
          memoryCache (after (LRUMemoryCache.get ttl key) w) = JsMap.delete key cache
        else
          outcome (LRUMemoryCache.get ttl key) w = inr (Some e) /\
          memoryCache (after (LRUMemoryCache.get ttl key) w)
            = (JsMap.delete key cache ++ [(key, e)])%list
    end).
  { unfold outcome, after, LRUMemoryCache.get, bind, gets, modify, Date_now, ret.
    subst now cache. cbn [fst snd].
    destruct (JsMap.get key (memoryCache w)) as [e|]; [|reflexivity].
    cbn [ticks clock memoryCache set_ticks set_memoryCache fst snd].
    destruct (ttl <? clock w (ticks w) - timestamp e);
      cbn [ticks clock memoryCache set_ticks set_memoryCache fst snd];
      (split; [reflexivity|]); [reflexivity|].
    apply JsMap_set_fresh, JsMap_get_delete, Hd. }
  split; [exact Hget|]. split; [|split].
  - intros e He. destruct (JsMap.get key cache) as [e0|].
    + destruct (ttl <? now - timestamp e0) eqn:Httl.
      * destruct Hget as [Ho _]. rewrite Ho in He. discriminate.
      * destruct Hget as [Ho _]. rewrite Ho in He. injection He as <-.
        apply Z.ltb_ge in Httl. exact Httl.
    + unfold outcome in He. rewrite Hget in He. discriminate.
  - unfold outcome, LRUMemoryCache.set, bind, gets, modify, Date_now, ret.
    cbn [fst snd]. destruct (max <=? _); [destruct (JsMap.first_key _)|]; reflexivity.
  - unfold after, LRUMemoryCache.set, bind, gets, modify, Date_now, ret.
    subst now cache. cbn [fst snd].
    destruct (max <=? Z.of_nat (length (memoryCache w))).
    + rewrite <- JsMap_delete_first.
      destruct (JsMap.first_key (memoryCache w)); reflexivity.
    + reflexivity.
Qed.

(** A cache of two entries at time 10: a hit on [a] moves it behind [b];
    inserting [c] at capacity 2 drops [a], the head. *)
Lemma lru_get_checks_ttl_set_evicts_oldest_witness :
  let w := set_memoryCache [("a", mkMem true "n1" 5); ("b", mkMem false "n2" 7)]
             (Reference.world 10) in
  NoDup (map fst (memoryCache w)) /\
  outcome (LRUMemoryCache.get 100 "a") w = inr (Some (mkMem true "n1" 5)) /\
  memoryCache (after (LRUMemoryCache.get 100 "a") w)
    = [("b", mkMem false "n2" 7); ("a", mkMem true "n1" 5)] /\
  memoryCache (after (LRUMemoryCache.set 2 "c" true "n3") w)
    = [("b", mkMem false "n2" 7); ("c", mkMem true "n3" 10)].
Proof.
  cbn zeta.
  assert (Hd : NoDup (map fst (memoryCache
            (set_memoryCache [("a", mkMem true "n1" 5); ("b", mkMem false "n2" 7)]
               (Reference.world 10))))).
  { cbn. apply NoDup_cons. split; [|apply NoDup_cons; split; [|apply NoDup_nil_2]].
    - intros [E|[]]%list_elem_of_In. discriminate.
    - intros []%list_elem_of_In. }
  split; [exact Hd|].
  pose proof (lru_get_checks_ttl_set_evicts_oldest 100 2 "a" true "n3" _ Hd) as (Hg & _ & _ & _).
  pose proof (lru_get_checks_ttl_set_evicts_oldest 100 2 "c" true "n3" _ Hd) as (_ & _ & _ & Hs).
  cbn in Hg. destruct Hg as [Ho Hc].
  split; [exact Ho|]. split; [exact Hc|exact Hs].
Defined.

(** C6 as stated fails: insertion does not look at the TTL.  With room for
    two entries and the TTL of the server, [a] is stored at time 0, [b] at
    time 1, [a] is read at time 2; at time 3600001 entry [a] is past its
    TTL and [b] is not, and inserting [c] drops [b] and keeps [a]. *)
Lemma lru_insert_ignores_ttl :
  let w0 := Reference.world_at (fun n => if (n <? 3)%nat then Z.of_nat n else 3600001) in
  let w1 := after (LRUMemoryCache.set 2 "a" true "n1") w0 in
  let w2 := after (LRUMemoryCache.set 2 "b" true "n2") w1 in
  let w3 := after (LRUMemoryCache.get ttlMs "a") w2 in
  let w4 := after (LRUMemoryCache.set 2 "c" true "n3") w3 in
  clock w3 (ticks w3) = 3600001 /\
  memoryCache w3 = [("b", mkMem true "n2" 1); ("a", mkMem true "n1" 0)] /\
  memoryCache w4 = [("a", mkMem true "n1" 0); ("c", mkMem true "n3" 3600001)] /\
  (ttlMs <? 3600001 - 0) = true /\
  (ttlMs <? 3600001 - 1) = false.
Proof. cbn zeta. repeat split; reflexivity. Qed.

(** ** Encryption and the encrypted stores *)

Lemma bind_inr {A B} (m : M A) (k : A -> M B) (w w' : World) (a : A) :
  m w = (inr a, w') -> bind m k w = k a w'.
Proof. intros H. unfold bind. now rewrite H. Qed.

Lemma bind_inl {A B} (m : M A) (k : A -> M B) (w w' : World) (e : Exn) :
  m w = (inl e, w') -> bind m k w = (inl e, w').
Proof. intros H. unfold bind. now rewrite H. Qed.

Ltac world_simpl :=
  cbn [fst snd clock ticks entropy drawn storesInstance storeKeys memoryCache
       lastTime lastRandom issuerKeyPair issuerFile envIssuerPrivateKey vkeyFile
       set_ticks set_drawn set_stores set_memoryCache set_ulid set_issuer
       escrow nullifiers proofCache auditLog] in *.

Section EncryptedStores.

Context {P : Platform} {L : PlatformLaws P}.

Lemma encrypt_ok (plaintext : string) (key : Key) (w : World) :
  length (keyBuf key) = 32%nat ->
  encrypt plaintext key w
  = (inr (sealed (keyBuf key) (next_bytes 12 w) plaintext), set_drawn (drawn w + 12) w).
Proof.
  intros Hk. unfold encrypt. rewrite Hk. reflexivity.
Qed.

Lemma decrypt_state (payload : EncryptedPayload) (key : Key) (w : World) :
  decrypt payload key w = (outcome (decrypt payload key) w, w).
Proof.
  unfold outcome, decrypt. destruct (negb _); [reflexivity|].
  destruct (aes256gcm_open _ _ _ _); reflexivity.
Qed.

Lemma decrypt_outcome (payload : EncryptedPayload) (key : Key) (w w' : World) :
  outcome (decrypt payload key) w = outcome (decrypt payload key) w'.
Proof.
  unfold outcome, decrypt. destruct (negb _); [reflexivity|].
  destruct (aes256gcm_open _ _ _ _); reflexivity.
Qed.

Lemma decrypt_sealed (plaintext : string) (key : Key) (ivb : list byte) (w : World) :
  length (keyBuf key) = 32%nat ->
  decrypt (sealed (keyBuf key) ivb plaintext) key w = (inr plaintext, w).
Proof.
  intros Hk. unfold decrypt, sealed. rewrite Hk. cbn [Nat.eqb negb iv ciphertext tag].
  rewrite !hex_decode_encode, aes_open_seal.
  unfold ret. now rewrite string_of_list_byte_of_string.
Qed.

Lemma sealed_ciphertext_nonempty (key ivb : list byte) (plaintext : string) :
  plaintext <> "" -> ciphertext (sealed key ivb plaintext) <> "".
Proof.
  intros Hp. unfold sealed. cbn [ciphertext]. apply hex_encode_nonempty.
  intros Hnil. apply (f_equal (@length byte)) in Hnil.
  rewrite aes_seal_length in Hnil. destruct plaintext; [congruence|].
  cbn in Hnil. discriminate.
Qed.

Lemma encryptedKVPut_ok (store : KVStore) (storeName key : string) (value : JValue)
    (w : World) (k : list byte) :
  storeKeys w !! storeName = Some k -> length k = 32%nat ->
  encryptedKVPut store storeName key value w
  = (inr tt,
     set_stores
       (kv_write store key (kv_record (sealed k (next_bytes 12 w) (json_stringify value)))
          <$> storesInstance w)
       (set_drawn (drawn w + 12) w)).
Proof.
  intros Hk Hl. unfold encryptedKVPut.
  rewrite (bind_inr _ _ w w k) by (unfold getStoreKey; now rewrite Hk).
  rewrite (bind_inr _ _ _ _ _ (encrypt_ok _ (KeyBuf k) w Hl)).
  reflexivity.
Qed.

Lemma decryptKVGet_sealed (storeName : string) (value : JValue) (ivb k : list byte)
    (w : World) :
  storeKeys w !! storeName = Some k -> length k = 32%nat ->
  representable value = true ->
  decryptKVGet (Some (kv_record (sealed k ivb (json_stringify value)))) storeName w
  = (inr value, w).
Proof.
  intros Hk Hl Hv. unfold decryptKVGet.
  destruct (String.eqb _ "") eqn:E.
  { apply String.eqb_eq in E. exfalso.
    apply (sealed_ciphertext_nonempty k ivb (json_stringify value)); [|exact E].
    apply json_stringify_nonempty. }
  rewrite (bind_inr _ _ w w k) by (unfold getStoreKey; now rewrite Hk).
  change (mkPayload _ _ _ _) with (sealed k ivb (json_stringify value)).
  rewrite (bind_inr _ _ _ _ _ (decrypt_sealed _ (KeyBuf k) ivb w Hl)).
  now rewrite json_parse_stringify.
Qed.

Lemma decryptKVGet_state (entry : option KVRecord) (storeName : string) (w : World) :
  decryptKVGet entry storeName w = (outcome (decryptKVGet entry storeName) w, w).
Proof.
  unfold outcome, decryptKVGet. destruct entry as [r|]; [|reflexivity].
  destruct (String.eqb _ _); [reflexivity|].
  unfold bind, getStoreKey. destruct (storeKeys w !! storeName); [|reflexivity].
  rewrite decrypt_state. destruct (outcome _ _); [reflexivity|].
  destruct (json_parse _); reflexivity.
Qed.

Lemma appendAuditLog_ok (entry : AuditLogEntry) (w : World) (st : ZeroIdStores)
    (k : list byte) :
  storesInstance w = Some st ->
  storeKeys w !! "auditLog" = Some k -> length k = 32%nat ->
  appendAuditLog entry w
  = (inr tt,
     set_stores
       (Some (with_log (log_record (sealed k (next_bytes 12 w)
                                      (json_stringify (audit_json entry)))) st))
       (set_drawn (drawn w + 12) w)).
Proof.
  intros Hs Hk Hl. unfold appendAuditLog.
  rewrite (bind_inr _ _ w w st) by (unfold getStores; now rewrite Hs).
  rewrite (bind_inr _ _ w w k) by (unfold getStoreKey; now rewrite Hk).
  rewrite (bind_inr _ _ _ _ _ (encrypt_ok _ (KeyBuf k) w Hl)).
  unfold log_add, modify. world_simpl. now rewrite Hs.
Qed.

Lemma representable_audit (e : AuditLogEntry) :
  safe_integer (au_timestamp e) = true -> metadata_ok (metadata e) = true ->
  representable (audit_json e) = true.
Proof.
  intros Ht Hm. unfold audit_json.
  cbn [representable map fst snd forallb distinct_keys existsb].
  rewrite Ht. unfold metadata_ok in Hm. apply andb_true_iff in Hm as [Hd Hi].
  rewrite !map_map. cbn [fst snd].
  rewrite (map_ext _ fst) by reflexivity. rewrite Hd, Hi.
  assert (Hs : forallb (fun kv : string * JValue => representable kv.2)
                 (map (fun kv : string * string => (kv.1, JStr kv.2)) (metadata e)) = true).
  { apply forallb_forall. intros x Hx. apply in_map_iff in Hx as (y & <- & _). reflexivity. }
  rewrite Hs. reflexivity.
Qed.

Lemma readLogRecord_sealed (entry : AuditLogEntry) (ivb k : list byte) (w : World) :
  storeKeys w !! "auditLog" = Some k -> length k = 32%nat ->
  representable (audit_json entry) = true ->
  readLogRecord (log_record (sealed k ivb (json_stringify (audit_json entry)))) w
  = (inr (audit_json entry), w).
Proof.
  intros Hk Hl Hr. unfold readLogRecord.
  rewrite (bind_inr _ _ w w k) by (unfold getStoreKey; now rewrite Hk).
  change (mkPayload _ _ _ _) with (sealed k ivb (json_stringify (audit_json entry))).
  rewrite (bind_inr _ _ _ _ _ (decrypt_sealed _ (KeyBuf k) ivb w Hl)).
  now rewrite json_parse_stringify.
Qed.

End EncryptedStores.

(** ** Escrow entries *)

Section Escrow.

Context {P : Platform} {L : PlatformLaws P}.

Lemma as_escrow_json (e : EscrowEntry) : as_escrow (escrow_json e) = Some e.
Proof. destruct e as [[i c t a] r cid ca [x|] inv h]; reflexivity. Qed.

Lemma representable_escrow_json (e : EscrowEntry) :
  safe_integer (createdAt e) = true ->
  match expiresAt e with Some x => safe_integer x = true | None => True end ->
  representable (escrow_json e) = true.
Proof.
  destruct e as [[i c t a] r cid ca [x|] inv h]; cbn [createdAt expiresAt];
    intros Hc Hx; cbn; rewrite ?Hc, ?Hx; reflexivity.
Qed.

Lemma time_value_safe (t : Z) : time_value t -> safe_integer t = true.
Proof.
  unfold time_value, safe_integer. intros H.
  apply andb_true_iff. split; apply Z.ltb_lt; lia.
Qed.

Lemma retention_bound (j : string) (r : Z) :
  getRetentionMs j = Some r -> r = 157788000000.
Proof.
  unfold getRetentionMs.
  destruct (table_lookup j RETENTION_POLICIES) as [y|] eqn:E.
  - assert (y = 5) as ->.
    { cbn in E.
      repeat (destruct (String.eqb j _) in E; [injection E as <-; reflexivity|]).
      discriminate. }
    intros [= <-]. reflexivity.
  - destruct (existsb _ _); [discriminate|]. intros [= <-]. reflexivity.
Qed.

Lemma putEscrowEntry_ok (w : World) (st : ZeroIdStores) (kE kA : list byte)
    (escrowId : string) (rawPII : JValue)
    (regulatorKey regulatorKeyId credentialId jurisdiction : string) :
  storesInstance w = Some st ->
  storeKeys w !! "escrow" = Some kE -> length kE = 32%nat ->
  storeKeys w !! "auditLog" = Some kA -> length kA = 32%nat ->
  length (Hex.decode regulatorKey) = 32%nat ->
  let entry := escrow_entry_of w rawPII regulatorKey regulatorKeyId credentialId jurisdiction in
  let record :=
    kv_record (sealed kE (next_bytes 12 (set_drawn (drawn w + 12) w))
                 (json_stringify (escrow_json entry))) in
  exists w1 st1,
    putEscrowEntry escrowId rawPII regulatorKey regulatorKeyId credentialId jurisdiction w
      = (inr tt, w1) /\
    storesInstance w1 = Some st1 /\
    escrow st1 = <[escrowId := record]> (escrow st) /\
    storeKeys w1 = storeKeys w /\
    clock w1 = clock w /\ ticks w1 = S (S (S (ticks w))).
Proof.
  intros Hs HkE HlE HkA HlA Hr entry record.
  unfold putEscrowEntry.
  rewrite (bind_inr _ _ w w st) by (unfold getStores; now rewrite Hs).
  rewrite (bind_inr _ _ _ _ _ (encrypt_ok _ (KeyHex regulatorKey) w Hr)).
  unfold Date_now at 1. unfold bind at 1. world_simpl.
  unfold Date_now at 1. unfold bind at 1. world_simpl.
  erewrite bind_inr; cycle 1.
  { eapply encryptedKVPut_ok; world_simpl; eassumption. }
  world_simpl. rewrite Hs. cbn [fmap option_fmap option_map].
  unfold Date_now at 1. unfold bind at 1. world_simpl.
  erewrite appendAuditLog_ok; cycle 1.
  { world_simpl. reflexivity. }
  { world_simpl. eassumption. }
  { assumption. }
  world_simpl.
  eexists _, _. split; [reflexivity|]. world_simpl.
  repeat split.
Qed.

Lemma openBlob_state (entry : EscrowEntry) (regulatorKey : string) (w : World) :
  openBlob entry regulatorKey w = (outcome (openBlob entry regulatorKey) w, w).
Proof.
  unfold outcome, openBlob, bind. rewrite decrypt_state.
  destruct (outcome _ _); [reflexivity|].
  destruct (negb _); [reflexivity|]. destruct (json_parse _); reflexivity.
Qed.

(** How [getEscrowEntry] runs on a stored entry, by the entry's state. *)
Lemma getEscrowEntry_stored (w : World) (st : ZeroIdStores) (kA : list byte)
    (escrowId regulatorKey actorId : string) (raw : KVRecord) (entry : EscrowEntry) :
  storesInstance w = Some st ->
  escrow st !! escrowId = Some raw ->
  decryptKVGet (Some raw) "escrow" w = (inr (escrow_json entry), w) ->
  storeKeys w !! "auditLog" = Some kA -> length kA = 32%nat ->
  getEscrowEntry escrowId regulatorKey actorId w
  = if invalidated entry then (inl (was_invalidated escrowId), w)
    else if past (clock w (ticks w)) (expiresAt entry)
         then (inl (has_expired escrowId), set_ticks (S (ticks w)) w)
         else openBlob entry regulatorKey (accessed w st kA escrowId actorId entry).
Proof.
  intros Hs Hraw Hdec HkA HlA. unfold getEscrowEntry.
  rewrite (bind_inr _ _ w w st) by (unfold getStores; now rewrite Hs).
  rewrite Hraw. rewrite (bind_inr _ _ _ _ _ Hdec).
  cbn [truthy escrow_json negb]. rewrite as_escrow_json.
  destruct (invalidated entry); [reflexivity|].
  unfold Date_now at 1. unfold bind at 1. world_simpl.
  destruct (past _ _); [reflexivity|].
  unfold Date_now at 1. unfold bind at 1. world_simpl.
  erewrite bind_inr; cycle 1.
  { eapply appendAuditLog_ok; world_simpl; eassumption. }
  reflexivity.
Qed.

End Escrow.

(** ** The escrow round trip *)

Section RoundTrip.

Context {P : Platform} {L : PlatformLaws P}.

Lemma stored_entry_reads_back (w w2 : World) (st : ZeroIdStores) (kE : list byte)
    (rawPII : JValue) (regulatorKey regulatorKeyId credentialId jurisdiction : string) :
  storeKeys w2 !! "escrow" = Some kE -> length kE = 32%nat ->
  time_value (clock w (ticks w)) -> time_value (clock w (S (ticks w))) ->
  let entry := escrow_entry_of w rawPII regulatorKey regulatorKeyId credentialId jurisdiction in
  decryptKVGet
    (Some (kv_record (sealed kE (next_bytes 12 (set_drawn (drawn w + 12) w))
                        (json_stringify (escrow_json entry))))) "escrow" w2
  = (inr (escrow_json entry), w2).
Proof.
  intros HkE HlE Ht1 Ht2 entry.
  apply decryptKVGet_sealed; try assumption.
  apply representable_escrow_json.
  - apply time_value_safe. exact Ht1.
  - subst entry. cbn [expiresAt escrow_entry_of].
    destruct (getRetentionMs jurisdiction) as [r|] eqn:E; [|exact I].
    apply retention_bound in E as ->. cbn [fmap option_fmap option_map].
    unfold time_value in Ht2. unfold safe_integer.
    apply andb_true_iff. split; apply Z.ltb_lt; lia.
Qed.

(** C2: [putEscrowEntry] succeeds, and a later [getEscrowEntry] with the
    same id and regulator key returns the original record, in any state
    that still holds the record as it was stored (no rotation since), has
    the store keys, and whose clock has not passed the entry's
    [expiresAt].  The stored entry carries the SHA-256 of the plaintext,
    and reading succeeds only through the comparison with that hash. *)
Theorem escrow_round_trip (w w2 : World) (st st2 : ZeroIdStores) (kE kA kA2 : list byte)
    (escrowId actorId : string) (rawPII : JValue)
    (regulatorKey regulatorKeyId credentialId jurisdiction : string) :
  storesInstance w = Some st ->
  storeKeys w !! "escrow" = Some kE -> length kE = 32%nat ->
  storeKeys w !! "auditLog" = Some kA -> length kA = 32%nat ->
  length (Hex.decode regulatorKey) = 32%nat ->
  representable rawPII = true ->
  time_value (clock w (ticks w)) -> time_value (clock w (S (ticks w))) ->
  let put := putEscrowEntry escrowId rawPII regulatorKey regulatorKeyId credentialId
               jurisdiction in
  storesInstance w2 = Some st2 ->
  escrowRecord w2 escrowId = escrowRecord (after put w) escrowId ->
  storeKeys w2 !! "escrow" = Some kE ->
  storeKeys w2 !! "auditLog" = Some kA2 -> length kA2 = 32%nat ->
  past (clock w2 (ticks w2)) (expiry_of w jurisdiction) = false ->
  outcome put w = inr tt /\
  outcome (getEscrowEntry escrowId regulatorKey actorId) w2 = inr rawPII /\
  exists entry,
    decryptKVGet (escrowRecord w2 escrowId) "escrow" w2 = (inr (escrow_json entry), w2) /\
    integrityHash entry = sha256_hex (json_stringify rawPII) /\
    outcome (decrypt (encryptedBlob entry) (KeyHex regulatorKey)) w2
      = inr (json_stringify rawPII).
Proof.
  intros Hs HkE HlE HkA HlA Hr Hrep Ht1 Ht2 put Hs2 Hrec HkE2 HkA2 HlA2 Hpast.
  destruct (putEscrowEntry_ok w st kE kA escrowId rawPII regulatorKey regulatorKeyId
              credentialId jurisdiction Hs HkE HlE HkA HlA Hr)
    as (w1 & st1 & Hput & Hs1 & He1 & _).
  fold put in Hput.
  unfold after in Hrec. rewrite Hput in Hrec. cbn [snd] in Hrec.
  unfold escrowRecord in Hrec. rewrite Hs1, Hs2 in Hrec. cbn in Hrec.
  rewrite He1, lookup_insert_eq in Hrec.
  pose proof (stored_entry_reads_back w w2 st kE rawPII regulatorKey regulatorKeyId
                credentialId jurisdiction HkE2 HlE Ht1 Ht2) as Hdec.
  cbn zeta in Hdec.
  set (entry := escrow_entry_of w rawPII regulatorKey regulatorKeyId credentialId
                  jurisdiction) in *.
  assert (Hblob : forall w', decrypt (encryptedBlob entry) (KeyHex regulatorKey) w'
                             = (inr (json_stringify rawPII), w')).
  { intros w'. apply (decrypt_sealed _ (KeyHex regulatorKey)). exact Hr. }
  split; [unfold outcome; now rewrite Hput|]. split.
  - unfold outcome.
    rewrite (getEscrowEntry_stored w2 st2 kA2 escrowId regulatorKey actorId _ entry
               Hs2 Hrec Hdec HkA2 HlA2).
    cbn [invalidated entry escrow_entry_of].
    change (expiresAt entry) with (expiry_of w jurisdiction). rewrite Hpast.
    unfold openBlob. rewrite (bind_inr _ _ _ _ _ (Hblob _)).
    cbn [integrityHash entry escrow_entry_of]. rewrite String.eqb_refl. cbn [negb].
    now rewrite (json_parse_stringify _ Hrep).
  - exists entry. unfold escrowRecord. rewrite Hs2. cbn. rewrite Hrec.
    split; [exact Hdec|]. split; [reflexivity|].
    unfold outcome. now rewrite Hblob.
Qed.

End RoundTrip.

(** A record stored and read back on the reference platform. *)
Lemma escrow_round_trip_witness :
  let w := Reference.world 1700000000000 in
  let pii := JObj [("fullName", JStr "Alice Ng"); ("dateOfBirth", JStr "1990-01-15");
                   ("countryCode", JNum 840)] in
  let key := Hex.encode (Reference.key32 x07) in
  let put := putEscrowEntry (P := Reference.platform) "E1" pii key "default" "cred-1" "US" in
  length (Hex.decode key) = 32%nat /\
  representable pii = true /\
  outcome put w = inr tt /\
  outcome (getEscrowEntry (P := Reference.platform) "E1" key "regulator") (after put w)
    = inr pii.
Proof.
  cbn zeta. split; [reflexivity|]. split; [reflexivity|].
  refine ((fun H => conj (proj1 H) (proj1 (proj2 H)))
            (escrow_round_trip (L := ReferenceFacts.laws)
               (Reference.world 1700000000000) _ _ _ _ _ _ "E1" "regulator" _ _ "default"
               "cred-1" "US" _ _ _ _ _ _ _ _ _ _ _ _ _ _ _)).
  - reflexivity.
  - reflexivity.
  - reflexivity.
  - reflexivity.
  - reflexivity.
  - reflexivity.
  - reflexivity.
  - unfold time_value. cbn. lia.
  - unfold time_value. cbn. lia.
  - vm_compute. reflexivity.
  - reflexivity.
  - vm_compute. reflexivity.
  - vm_compute. reflexivity.
  - reflexivity.
  - vm_compute. reflexivity.
Defined.

(** ** The audit trail of escrow reads *)

Section AuditTrail.

Context {P : Platform} {L : PlatformLaws P}.

Lemma decryptKVGet_keys (entry : option KVRecord) (storeName : string) (w w' : World) :
  storeKeys w = storeKeys w' ->
  outcome (decryptKVGet entry storeName) w = outcome (decryptKVGet entry storeName) w'.
Proof.
  intros Hk. unfold outcome, decryptKVGet. destruct entry as [r|]; [|reflexivity].
  destruct (String.eqb _ _); [reflexivity|].
  unfold bind, getStoreKey. rewrite <- Hk.
  destruct (storeKeys w !! storeName); [|reflexivity].
  rewrite (decrypt_state _ _ w), (decrypt_state _ _ w').
  rewrite (decrypt_outcome _ _ w w').
  destruct (outcome _ _); [reflexivity|]. destruct (json_parse _); reflexivity.
Qed.

Lemma openBlob_outcome (entry : EscrowEntry) (regulatorKey : string) (w w' : World) :
  outcome (openBlob entry regulatorKey) w = outcome (openBlob entry regulatorKey) w'.
Proof.
  unfold outcome, openBlob, bind.
  rewrite (decrypt_state _ _ w), (decrypt_state _ _ w'), (decrypt_outcome _ _ w w').
  destruct (outcome _ _); [reflexivity|].
  destruct (negb _); [reflexivity|]. destruct (json_parse _); reflexivity.
Qed.

(** With a key of the right length, every way [openBlob] can throw
    carries a message without the words that [escrowExists] looks for. *)
Lemma openBlob_errors (entry : EscrowEntry) (regulatorKey : string) (w : World) (e : Exn) :
  length (Hex.decode regulatorKey) = 32%nat ->
  outcome (openBlob entry regulatorKey) w = inl e ->
  exists m, message e = Some m /\ includes "not found" m = false.
Proof.
  intros Hk. unfold outcome, openBlob, bind, decrypt.
  change (negb (length (keyBuf (KeyHex regulatorKey)) =? KEY_LENGTH)%nat)
    with (negb (length (Hex.decode regulatorKey) =? 32)%nat).
  rewrite Hk. cbn [Nat.eqb negb].
  destruct (aes256gcm_open _ _ _ _) as [pt|].
  - cbn [ret fst]. destruct (negb _).
    + intros [= <-]. eexists. split; reflexivity.
    + destruct (json_parse _); [discriminate|].
      intros [= <-]. eexists. split; reflexivity.
  - intros [= <-]. eexists. split; reflexivity.
Qed.

(** C10: when [getEscrowEntry] finds an entry that is neither invalidated
    nor expired, the audit log has gained one record when the call ends,
    whatever the call's outcome: the record reads back as the
    [escrow_access] entry for this id and actor.  The call's outcome is that
    of the decryption, hash comparison and parse that follow; so a key that
    fails to decrypt, or a hash mismatch, makes the call throw with the
    record already written.  [escrowExists] answers [true] for such an entry
    and leaves an [escrow_access] record for the actor [existence_check]. *)
Theorem escrow_access_logged_before_decrypt (w : World) (st : ZeroIdStores)
    (kA : list byte) (escrowId regulatorKey actorId : string) (raw : KVRecord)
    (entry : EscrowEntry) :
  storesInstance w = Some st ->
  escrow st !! escrowId = Some raw ->
  outcome (decryptKVGet (Some raw) "escrow") w = inr (escrow_json entry) ->
  storeKeys w !! "auditLog" = Some kA -> length kA = 32%nat ->
  invalidated entry = false ->
  past (clock w (ticks w)) (expiresAt entry) = false ->
  time_value (clock w (S (ticks w))) ->
  let get := getEscrowEntry escrowId regulatorKey actorId in
  let probe := escrowExists escrowId in
  (exists record,
      (auditLog <$> storesInstance (after get w)) = Some (auditLog st ++ [record])%list /\
      outcome (readLogRecord record) (after get w)
        = inr (audit_json (access_entry escrowId actorId (clock w (S (ticks w))) entry))) /\
  outcome get w = outcome (openBlob entry regulatorKey) w /\
  (forall e, outcome (decrypt (encryptedBlob entry) (KeyHex regulatorKey)) w = inl e ->
             outcome get w = inl e) /\
  (forall plaintext,
      outcome (decrypt (encryptedBlob entry) (KeyHex regulatorKey)) w = inr plaintext ->
      sha256_hex plaintext <> integrityHash entry ->
      outcome get w = inl integrity_failed) /\
  outcome probe w = inr true /\
  (exists record,
      (auditLog <$> storesInstance (after probe w)) = Some (auditLog st ++ [record])%list /\
      outcome (readLogRecord record) (after probe w)
        = inr (audit_json (access_entry escrowId "existence_check"
                             (clock w (S (ticks w))) entry))).
Proof.
  intros Hs Hraw Hdec' HkA HlA Hinv Hpast Ht get probe.
  assert (Hdec : decryptKVGet (Some raw) "escrow" w = (inr (escrow_json entry), w))
    by (now rewrite decryptKVGet_state, Hdec').
  assert (Hrep : forall actor,
             representable (audit_json (access_entry escrowId actor (clock w (S (ticks w))) entry))
             = true).
  { intros actor. apply representable_audit; [|reflexivity].
    apply time_value_safe. exact Ht. }
  assert (Hget : forall key actor w',
             storesInstance w' = Some st -> storeKeys w' = storeKeys w ->
             clock w' = clock w -> ticks w' = ticks w ->
             getEscrowEntry escrowId key actor w'
             = (outcome (openBlob entry key) w, accessed w' st kA escrowId actor entry)).
  { intros key actor w' Hs' Hk' Hc' Hi'.
    rewrite (getEscrowEntry_stored w' st kA escrowId key actor raw entry Hs' Hraw).
    - rewrite Hinv, Hc', Hi', Hpast, openBlob_state.
      now rewrite (openBlob_outcome _ _ _ w).
    - rewrite decryptKVGet_state.
      rewrite (decryptKVGet_keys _ _ w' w Hk').
      unfold outcome. now rewrite Hdec.
    - now rewrite Hk'.
    - exact HlA. }
  assert (Hlog : forall actor w',
             storeKeys w' = storeKeys w -> clock w' = clock w -> ticks w' = ticks w ->
             exists record,
               (auditLog <$> storesInstance (accessed w' st kA escrowId actor entry))
                 = Some (auditLog st ++ [record])%list /\
               outcome (readLogRecord record) (accessed w' st kA escrowId actor entry)
                 = inr (audit_json (access_entry escrowId actor (clock w (S (ticks w))) entry))).
  { intros actor w' Hk' Hc' Hi'. eexists. split; [reflexivity|].
    unfold outcome, accessed. rewrite Hc', Hi'.
    erewrite readLogRecord_sealed; [reflexivity| |exact HlA|apply Hrep].
    world_simpl. now rewrite Hk'. }
  assert (Hprobe : escrowExists escrowId w
                   = (inr true,
                      accessed (set_drawn (drawn w + 32) w) st kA escrowId
                        "existence_check" entry)).
  { unfold escrowExists, try_catch.
    unfold bind at 1. unfold randomBytes at 1.
    unfold bind.
    rewrite (Hget _ "existence_check" (set_drawn (drawn w + 32) w) Hs
               eq_refl eq_refl eq_refl).
    destruct (outcome (openBlob entry _) w) as [e|v] eqn:Ho; [|reflexivity].
    apply openBlob_errors in Ho as (m & Hm & Hi).
    - rewrite Hm, Hi. reflexivity.
    - rewrite hex_decode_encode. now rewrite length_map, length_seq. }
  split; [|split; [|split; [|split; [|split]]]].
  - subst get. unfold after. rewrite (Hget _ _ w Hs) by reflexivity.
    apply Hlog; reflexivity.
  - subst get. unfold outcome at 1. now rewrite (Hget _ _ w Hs) by reflexivity.
  - intros e He. subst get. unfold outcome at 1.
    rewrite (Hget _ _ w Hs) by reflexivity. cbn [fst].
    unfold outcome, openBlob, bind. rewrite decrypt_state, He. reflexivity.
  - intros pt Hpt Hne. subst get. unfold outcome at 1.
    rewrite (Hget _ _ w Hs) by reflexivity. cbn [fst].
    unfold outcome, openBlob, bind. rewrite decrypt_state, Hpt.
    apply String.eqb_neq in Hne. rewrite Hne. reflexivity.
  - subst probe. unfold outcome. now rewrite Hprobe.
  - subst probe. unfold after. rewrite Hprobe. apply Hlog; reflexivity.
Qed.

End AuditTrail.
(** A read with the wrong key on the reference platform: it throws, and the
    log has grown from one record to two. *)
Lemma escrow_access_logged_before_decrypt_witness :
  let pii := JObj [("fullName", JStr "Alice Ng"); ("countryCode", JNum 840)] in
  let key := Hex.encode (Reference.key32 x07) in
  let wrong := Hex.encode (Reference.key32 x08) in
  let w0 := Reference.world 1700000000000 in
  let w := after (putEscrowEntry (P := Reference.platform) "E1" pii key "default" "cred-1" "US")
             w0 in
  let get := getEscrowEntry (P := Reference.platform) "E1" wrong "intruder" in
  outcome get w = inl auth_error /\
  (length <$> (auditLog <$> storesInstance w)) = Some 1%nat /\
  (length <$> (auditLog <$> storesInstance (after get w))) = Some 2%nat /\
  outcome (escrowExists (P := Reference.platform) "E1") w = inr true.
Proof.
  cbn zeta.
  set (w0 := Reference.world 1700000000000).
  set (pii := JObj [("fullName", JStr "Alice Ng"); ("countryCode", JNum 840)]).
  set (key := Hex.encode (Reference.key32 x07)).
  set (w := after (putEscrowEntry (P := Reference.platform) "E1" pii key "default" "cred-1" "US") w0).
  let v := eval vm_compute in (storesInstance w) in
  match v with
  | Some ?s =>
      let r := eval vm_compute in (escrow s !! "E1") in
      match r with
      | Some ?x =>
          pose proof (escrow_access_logged_before_decrypt (L := ReferenceFacts.laws)
                        w s (Reference.key32 x02) "E1" (Hex.encode (Reference.key32 x08))
                        "intruder" x
                        (escrow_entry_of (P := Reference.platform) w0 pii key "default"
                           "cred-1" "US")) as H
      end
  end.
  destruct H as (_ & Hout & Hthrow & _ & Hprobe & _).
  - vm_compute; reflexivity.
  - vm_compute; reflexivity.
  - vm_compute; reflexivity.
  - vm_compute; reflexivity.
  - vm_compute; reflexivity.
  - vm_compute; reflexivity.
  - vm_compute; reflexivity.
  - unfold time_value; vm_compute; split; discriminate.
  - split; [|split; [|split]].
    + apply Hthrow; vm_compute; reflexivity.
    + vm_compute; reflexivity.
    + vm_compute; reflexivity.
    + exact Hprobe.
Defined.

(** ** Expiry *)

Section Expiry.

Context {P : Platform} {L : PlatformLaws P}.


Lemma representable_shredded (w : World) (entry : EscrowEntry) :
  representable (escrow_json entry) = true ->
  representable (escrow_json (shredded_entry w entry)) = true.
Proof.
  destruct entry as [[i c t a] r cid ca [x|] inv h]; cbn.
  - destruct (safe_integer ca), (safe_integer x); cbn; congruence.
  - destruct (safe_integer ca); cbn; congruence.
Qed.

Lemma openBlob_never_expired (entry : EscrowEntry) (regulatorKey escrowId : string)
    (w : World) :
  outcome (openBlob entry regulatorKey) w <> inl (has_expired escrowId).
Proof.
  unfold outcome, openBlob, bind, decrypt, has_expired, key_length_error.
  destruct (negb _).
  - cbn [throw fst]. rewrite !append_cons. discriminate.
  - destruct (aes256gcm_open _ _ _ _) as [pt|].
    + cbn [ret fst]. destruct (negb _).
      * cbn [throw fst]. unfold integrity_failed. rewrite !append_cons. discriminate.
      * destruct (json_parse _); [discriminate|].
        cbn [throw fst]. unfold syntax_error. rewrite !append_cons. discriminate.
    + cbn [throw fst]. unfold auth_error. rewrite !append_cons. discriminate.
Qed.

Lemma as_escrow_truthy (v : JValue) (entry : EscrowEntry) :
  as_escrow v = Some entry -> truthy v = true.
Proof. destruct v; try discriminate. reflexivity. Qed.

(** How [rotateEscrowEntry] runs on a stored entry: what it returns and
    the state it leaves, with [now] its first clock reading. *)
Lemma rotateEscrowEntry_present (w : World) (st : ZeroIdStores) (kE kA : list byte)
    (escrowId actorId : string) (forceErasure : bool) (raw : KVRecord)
    (entry : EscrowEntry) :
  storesInstance w = Some st ->
  escrow st !! escrowId = Some raw ->
  stored_entry w raw = Some entry ->
  storeKeys w !! "escrow" = Some kE -> length kE = 32%nat ->
  storeKeys w !! "auditLog" = Some kA -> length kA = 32%nat ->
  let now := clock w (ticks w) in
  let iso := toISOString (default 0 (expiresAt entry)) in
  rotateEscrowEntry escrowId actorId forceErasure w
  = if (0 <? default 0 (expiresAt entry) - now) && negb forceErasure then
      (inr (mkRotate false
              ("Retention period active until " +:+ iso
               +:+ ". Erasure request logged and will execute after expiry.")),
       set_stores
         (Some (with_log
                  (log_record
                     (sealed kA (next_bytes 12 w)
                        (json_stringify
                           (audit_json
                              (deferred_entry escrowId actorId (clock w (S (ticks w))) iso)))))
                  st))
         (set_drawn (drawn w + 12) (set_ticks (S (S (ticks w))) w)))
    else
      (inr (mkRotate true "Entry crypto-shredded and invalidated"),
       set_stores
         (Some (with_log
                  (log_record
                     (sealed kA (next_bytes 12 (set_drawn (drawn w + 256 + 32 + 12 + 12) w))
                        (json_stringify
                           (audit_json
                              (completed_entry escrowId actorId (clock w (S (ticks w))))))))
                  (kv_write EscrowKV escrowId
                     (kv_record
                        (sealed kE (next_bytes 12 (set_drawn (drawn w + 256 + 32 + 12) w))
                           (json_stringify (escrow_json (shredded_entry w entry)))))
                     st)))
         (set_drawn (drawn w + 256 + 32 + 12 + 12 + 12) (set_ticks (S (S (ticks w))) w))).
Proof.
  intros Hs Hraw Hst HkE HlE HkA HlA now iso.
  unfold stored_entry in Hst.
  destruct (outcome (decryptKVGet (Some raw) "escrow") w) as [e|v] eqn:Hdec; [discriminate|].
  assert (Hdec' : decryptKVGet (Some raw) "escrow" w = (inr v, w))
    by (now rewrite decryptKVGet_state, Hdec).
  unfold rotateEscrowEntry.
  rewrite (bind_inr _ _ w w st) by (unfold getStores; now rewrite Hs).
  rewrite Hraw. rewrite (bind_inr _ _ _ _ _ Hdec').
  rewrite (as_escrow_truthy v entry Hst), Hst. cbn [negb].
  unfold Date_now at 1. unfold bind at 1. world_simpl. fold now.
  destruct ((0 <? default 0 (expiresAt entry) - now) && negb forceErasure).
  - unfold Date_now at 1. unfold bind at 1. world_simpl. cbn zeta.
    erewrite bind_inr; cycle 1.
    { eapply appendAuditLog_ok; world_simpl; eassumption. }
    reflexivity.
  - unfold randomBytes at 1. unfold bind at 1. world_simpl.
    unfold randomBytes at 1. unfold bind at 1. world_simpl.
    erewrite bind_inr; cycle 1.
    { apply (encrypt_ok _ (KeyHex _)). cbn [keyBuf].
      rewrite hex_decode_encode. now rewrite length_map, length_seq. }
    world_simpl.
    erewrite bind_inr; cycle 1.
    { eapply encryptedKVPut_ok; world_simpl; eassumption. }
    world_simpl. rewrite Hs. cbn [fmap option_fmap option_map].
    unfold Date_now at 1. unfold bind at 1. world_simpl.
    erewrite bind_inr; cycle 1.
    { eapply appendAuditLog_ok; world_simpl; [reflexivity|eassumption|assumption]. }
    world_simpl. cbn [keyBuf]. rewrite hex_decode_encode.
    reflexivity.
Qed.

(** C4 on the code.  Take a stored entry that is not invalidated and whose
    [expiresAt] is the clock reading of the call.  [getEscrowEntry] does not
    throw the expired error, since its test is [Date.now() > expiresAt]: it
    goes on to the audit entry and the decryption.  [purgeExpiredEscrow]
    returns 0 and changes nothing but the clock reading it takes; the body of
    its loop, which the guard keeps from running, tests [now > expiresAt]
    too and would pass the entry over.  [rotateEscrowEntry], not forced,
    tests [expiresAt - now > 0]: at the same reading it takes the retention
    period as over and crypto-shreds the entry. *)
Theorem expiry_boundary_differs_between_get_purge_and_rotate (w : World)
    (st : ZeroIdStores) (kE kA : list byte) (escrowId regulatorKey actorId : string)
    (raw : KVRecord) (entry : EscrowEntry) (purged : Z) :
  storesInstance w = Some st ->
  escrow st !! escrowId = Some raw ->
  outcome (decryptKVGet (Some raw) "escrow") w = inr (escrow_json entry) ->
  storeKeys w !! "escrow" = Some kE -> length kE = 32%nat ->
  storeKeys w !! "auditLog" = Some kA -> length kA = 32%nat ->
  invalidated entry = false ->
  expiresAt entry = Some (clock w (ticks w)) ->
  let get := getEscrowEntry escrowId regulatorKey actorId in
  (outcome get w = outcome (openBlob entry regulatorKey) w /\
   outcome get w <> inl (has_expired escrowId)) /\
  purgeExpiredEscrow w = (inr 0, set_ticks (S (ticks w)) w) /\
  purgeStep (clock w (ticks w)) (escrowId, raw) purged w = (inr purged, w) /\
  outcome (rotateEscrowEntry escrowId actorId false) w
    = inr (mkRotate true "Entry crypto-shredded and invalidated").
Proof.
  intros Hs Hraw Hdec HkE HlE HkA HlA Hinv Hexp get.
  assert (Hdec' : decryptKVGet (Some raw) "escrow" w = (inr (escrow_json entry), w))
    by (now rewrite decryptKVGet_state, Hdec).
  assert (Hnow : past (clock w (ticks w)) (expiresAt entry) = false).
  { rewrite Hexp. cbn [past]. apply Z.ltb_irrefl. }
  split; [|split; [|split]].
  - pose proof (getEscrowEntry_stored w st kA escrowId regulatorKey actorId raw entry
                  Hs Hraw Hdec' HkA HlA) as Hg.
    fold get in Hg. rewrite Hinv, Hnow in Hg. unfold outcome at 1 3. rewrite Hg.
    rewrite openBlob_state. cbn [fst].
    split; [apply openBlob_outcome|apply openBlob_never_expired].
  - unfold purgeExpiredEscrow.
    rewrite (bind_inr _ _ w w st) by (unfold getStores; now rewrite Hs).
    reflexivity.
  - unfold purgeStep. cbn [fst snd]. rewrite (bind_inr _ _ _ _ _ Hdec').
    cbn [truthy escrow_json negb]. rewrite as_escrow_json, Hnow. reflexivity.
  - assert (Hst : stored_entry w raw = Some entry)
      by (unfold stored_entry; rewrite Hdec; apply as_escrow_json).
    unfold outcome.
    rewrite (rotateEscrowEntry_present w st kE kA escrowId actorId false raw entry
               Hs Hraw Hst HkE HlE HkA HlA).
    rewrite Hexp. cbn [default]. unfold Datatypes.id.
    rewrite Z.sub_diag. reflexivity.
Qed.

End Expiry.

(** An entry read, purged and given an erasure request at the clock reading
    that equals its [expiresAt]: the read returns the data in full, the
    purge counts nothing and only takes its clock reading, and the erasure
    request is executed. *)
Lemma expiry_boundary_differs_between_get_purge_and_rotate_witness :
  let pii := JObj [("fullName", JStr "Alice Ng"); ("countryCode", JNum 840)] in
  let key := Hex.encode (Reference.key32 x07) in
  let w0 := Reference.world_at
              (fun n => if (n <? 3)%nat then 1700000000000
                        else 1700000000000 + 157788000000) in
  let w := after (putEscrowEntry (P := Reference.platform) "E1" pii key "default" "cred-1" "US")
             w0 in
  let entry := escrow_entry_of (P := Reference.platform) w0 pii key "default" "cred-1" "US" in
  let purge := purgeExpiredEscrow (P := Reference.platform) in
  expiresAt entry = Some (clock w (ticks w)) /\
  outcome (getEscrowEntry (P := Reference.platform) "E1" key "regulator") w = inr pii /\
  purge w = (inr 0, set_ticks (S (ticks w)) w) /\
  outcome (rotateEscrowEntry (P := Reference.platform) "E1" "user-1" false) w
    = inr (mkRotate true "Entry crypto-shredded and invalidated").
Proof.
  cbn zeta.
  set (w0 := Reference.world_at
               (fun n => if (n <? 3)%nat then 1700000000000
                         else 1700000000000 + 157788000000)).
  set (pii := JObj [("fullName", JStr "Alice Ng"); ("countryCode", JNum 840)]).
  set (key := Hex.encode (Reference.key32 x07)).
  set (w := after (putEscrowEntry (P := Reference.platform) "E1" pii key "default" "cred-1" "US") w0).
  let v := eval vm_compute in (storesInstance w) in
  match v with
  | Some ?s =>
      let r := eval vm_compute in (escrow s !! "E1") in
      match r with
      | Some ?x =>
          pose proof (expiry_boundary_differs_between_get_purge_and_rotate
                        (P := Reference.platform)
                        w s (Reference.key32 x01) (Reference.key32 x02) "E1" key
                        "user-1" x
                        (escrow_entry_of (P := Reference.platform) w0 pii key "default"
                           "cred-1" "US") 0) as H
      end
  end.
  destruct H as (_ & Hpurge & _ & Hrotate).
  - vm_compute; reflexivity.
  - vm_compute; reflexivity.
  - vm_compute; reflexivity.
  - vm_compute; reflexivity.
  - vm_compute; reflexivity.
  - vm_compute; reflexivity.
  - vm_compute; reflexivity.
  - vm_compute; reflexivity.
  - vm_compute; reflexivity.
  - split; [vm_compute; reflexivity|]. split; [vm_compute; reflexivity|].
    split; [exact Hpurge|exact Hrotate].
Defined.

(** ** The proof verification route *)

Section VerifyRoute.

Context {P : Platform} {L : PlatformLaws P}.





Lemma as_nullifier_json (e : NullifierEntry) : as_nullifier (nullifier_json e) = Some e.
Proof. destruct e; reflexivity. Qed.




End VerifyRoute.


(** ** Credential issuance *)

Section Issuance.

Context {P : Platform}.

(** The four ways [getIssuerKeyPair] obtains the pair. *)
Lemma getIssuerKeyPair_cases (w : World) :
  getIssuerKeyPair w
  = match issuerKeyPair w with
    | Some kp => (inr kp, w)
    | None =>
        match issuerFile w with
        | Some data => (inr data, set_issuer (Some data) (Some data) w)
        | None =>
            let w' := set_drawn (drawn w + 32) w in
            match envIssuerPrivateKey w with
            | Some envKey =>
                if String.eqb envKey "" then
                  (inr (fresh_pair w),
                   set_issuer (Some (fresh_pair w)) (Some (fresh_pair w)) w')
                else
                  (inr (mkKeyPair envKey (publicKey (fresh_pair w))),
                   set_issuer (Some (mkKeyPair envKey (publicKey (fresh_pair w)))) None w')
            | None =>
                (inr (fresh_pair w),
                 set_issuer (Some (fresh_pair w)) (Some (fresh_pair w)) w')
            end
        end
    end.
Proof.
  unfold getIssuerKeyPair, bind, gets. cbn [fst snd].
  destruct (issuerKeyPair w); [reflexivity|].
  destruct (issuerFile w) eqn:Hf; [unfold modify, ret; cbn; now rewrite Hf|].
  destruct (envIssuerPrivateKey w) as [envKey|]; [destruct (String.eqb envKey "")|];
    unfold generateKeyPair, bind, randomBytes, modify, ret; cbn [fst snd negb];
    world_simpl; rewrite ?Hf; reflexivity.
Qed.

Lemma getIssuerKeyPair_total (w : World) :
  exists kp w1, getIssuerKeyPair w = (inr kp, w1) /\
                clock w1 = clock w /\ ticks w1 = ticks w.
Proof.
  rewrite getIssuerKeyPair_cases.
  destruct (issuerKeyPair w); [eexists _, _; repeat split|].
  destruct (issuerFile w); [eexists _, _; repeat split|].
  destruct (envIssuerPrivateKey w) as [envKey|]; [destruct (String.eqb envKey "")|];
    eexists _, _; repeat split.
Qed.

(** What [issueCredential] returns, given the key pair it obtained. *)
Lemma issueCredential_run (w w1 : World) (kp : EdDSAKeyPair) (kyc : KycResult)
    (bound : option string) (lvl : option Z) (dobTime : Z) :
  getIssuerKeyPair w = (inr kp, w1) ->
  Date_parse (dateOfBirth kyc) = Some dobTime ->
  let secret := be_value (next_bytes 31 w1) in
  let age := computeAge dobTime (clock w1 (ticks w1)) in
  let h := hashCredential age (countryCode kyc) secret in
  exists cred,
    outcome (issueCredential kyc bound lvl) w = inr cred /\
    credentialHash cred = show h /\
    signatureR8 cred = (show (R8 (sign (privateKey kp) h)).1,
                        show (R8 (sign (privateKey kp) h)).2) /\
    signatureS cred = show (S_ (sign (privateKey kp) h)) /\
    issuerPubKey cred = (show (publicKey kp).1, show (publicKey kp).2) /\
    userSecret cred = show secret.
Proof.
  intros Hkp Hdob secret age h. unfold outcome, issueCredential.
  rewrite (bind_inr _ _ _ _ _ Hkp).
  unfold bind, randomBytes, Date_now, randomUUID, ret. cbn [fst snd]. world_simpl.
  rewrite Hdob. cbn [fst snd]. eexists. split; [reflexivity|].
  repeat split.
Qed.

Lemma computeAge_bounds (dob now : Z) :
  getFullYear now - getFullYear dob - 1 <= computeAge dob now
    <= getFullYear now - getFullYear dob.
Proof. unfold computeAge. destruct (_ || _); lia. Qed.

(** C5, as the code has it: the age is the year difference, less one when
    the month and day of [now] come before those of the date of birth; a
    credential is issued for that age whatever its value, since nothing
    checks its range.  The age is within 0..255 when the year difference is
    within 1..255. *)
Theorem issueCredential_age_is_unchecked (w : World) (kyc : KycResult)
    (bound : option string) (lvl : option Z) (dobTime : Z) :
  Date_parse (dateOfBirth kyc) = Some dobTime ->
  let now := clock w (ticks w) in
  let years := getFullYear now - getFullYear dobTime in
  let before :=
    (getMonth now - getMonth dobTime <? 0)
    || ((getMonth now - getMonth dobTime =? 0) && (getDate now <? getDate dobTime)) in
  let age := computeAge dobTime now in
  age = (if before then years - 1 else years) /\
  (1 <= years <= 255 -> 0 <= age <= 255) /\
  exists cred secret,
    outcome (issueCredential kyc bound lvl) w = inr cred /\
    credentialHash cred = show (hashCredential age (countryCode kyc) secret) /\
    userSecret cred = show secret.
Proof.
  intros Hdob now years before age.
  split; [reflexivity|]. split.
  - intros Hy. pose proof (computeAge_bounds dobTime now). subst age years. lia.
  - destruct (getIssuerKeyPair_total w) as (kp & w1 & Hkp & Hc & Ht).
    destruct (issueCredential_run w w1 kp kyc bound lvl dobTime Hkp Hdob)
      as (cred & Ho & Hh & _ & _ & _ & Hs).
    exists cred, (be_value (next_bytes 31 w1)).
    rewrite Hc, Ht in Hh. auto.
Qed.

End Issuance.

(** A date of birth of 1990-12-15 on 2026-11-03: age 35. *)
Lemma issueCredential_age_is_unchecked_witness :
  let w := Reference.world (Reference.days_from_civil 2026 11 3 * Reference.msPerDay) in
  let kyc := mkKyc true "1990-12-15" 840 in
  Date_parse (Platform := Reference.platform) (dateOfBirth kyc)
    = Some (Reference.days_from_civil 1990 12 15 * Reference.msPerDay) /\
  computeAge (P := Reference.platform)
    (Reference.days_from_civil 1990 12 15 * Reference.msPerDay) (clock w (ticks w)) = 35 /\
  exists cred secret,
    outcome (issueCredential (P := Reference.platform) kyc None None) w = inr cred /\
    credentialHash cred = show (hashCredential (P := Reference.platform) 35 840 secret) /\
    userSecret cred = show secret.
Proof.
  cbn zeta.
  assert (Hd : Date_parse (Platform := Reference.platform) "1990-12-15"
               = Some (Reference.days_from_civil 1990 12 15 * Reference.msPerDay))
    by (vm_compute; reflexivity).
  split; [exact Hd|].
  destruct (issueCredential_age_is_unchecked (P := Reference.platform)
              (Reference.world (Reference.days_from_civil 2026 11 3 * Reference.msPerDay))
              (mkKyc true "1990-12-15" 840) None None _ Hd) as (Hage & _ & Hcred).
  split; [vm_compute; reflexivity|].
  replace (computeAge _ _) with 35 in Hcred by (vm_compute; reflexivity).
  exact Hcred.
Defined.

(** C5 as stated fails: on 2026-11-03 a date of birth of 1700-01-01 gives
    the age 326, one of 2999-01-01 the age -973, and a credential is
    issued for each. *)
Lemma credential_issued_for_age_beyond_8_bits :
  let w := Reference.world (Reference.days_from_civil 2026 11 3 * Reference.msPerDay) in
  let issue dob := issueCredential (P := Reference.platform) (mkKyc true dob 840) None None in
  let secret := be_value (next_bytes 31 (after (getIssuerKeyPair (P := Reference.platform)) w)) in
  (exists cred,
      outcome (issue "1700-01-01") w = inr cred /\
      credentialHash cred = show (hashCredential (P := Reference.platform) 326 840 secret)) /\
  (exists cred,
      outcome (issue "2999-01-01") w = inr cred /\
      credentialHash cred = show (hashCredential (P := Reference.platform) (-973) 840 secret)) /\
  ~ (0 <= 326 <= 255) /\ ~ (0 <= -973 <= 255).
Proof.
  cbn zeta.
  split; [eexists; split; vm_compute; reflexivity|].
  split; [eexists; split; vm_compute; reflexivity|].
  split; lia.
Qed.

Section IssuerSignature.

Context {P : Platform} {L : PlatformLaws P}.

(** A signature made with the private key of a pair verifies under the
    pair's public key when that key is the one derived from the private
    key. *)
Lemma sign_verifies_consistent_pair (kp : EdDSAKeyPair) (h : Z) :
  publicKey kp = prv2pub (Hex.decode (privateKey kp)) ->
  verify (publicKey kp) h (sign (privateKey kp) h) = true.
Proof.
  intros Hpk. unfold verify, sign. cbn [R8 S_]. rewrite Hpk.
  destruct (prv2pub_canonical (Hex.decode (privateKey kp))) as [Ha1 Ha2].
  destruct (signPoseidon_canonical (Hex.decode (privateKey kp)) (F_e h)) as [Hr1 Hr2].
  unfold F_e in *. rewrite Ha1, Ha2, Hr1, Hr2.
  rewrite <- !surjective_pairing. apply eddsa_verify_sign.
Qed.

(** The key pair that [getIssuerKeyPair] generates, caches and persists is
    consistent, and so is a pair loaded from a file that holds one. *)
Lemma issued_signature_verifies_without_env_key (w : World) (kyc : KycResult)
    (bound : option string) (lvl : option Z) (dobTime : Z) :
  issuerKeyPair w = None -> issuerFile w = None -> envIssuerPrivateKey w = None ->
  Date_parse (dateOfBirth kyc) = Some dobTime ->
  exists cred h sg pk,
    outcome (issueCredential kyc bound lvl) w = inr cred /\
    credentialHash cred = show h /\
    signatureR8 cred = (show (R8 sg).1, show (R8 sg).2) /\
    signatureS cred = show (S_ sg) /\
    issuerPubKey cred = (show pk.1, show pk.2) /\
    verify pk h sg = true.
Proof.
  intros Hc Hf He Hdob.
  pose proof (getIssuerKeyPair_cases w) as Hkp. rewrite Hc, Hf, He in Hkp. cbn zeta in Hkp.
  destruct (issueCredential_run w _ _ kyc bound lvl dobTime Hkp Hdob)
    as (cred & Ho & Hh & Hr & Hs & Hp & _).
  eexists cred, _, _, _. repeat (split; [eassumption|]).
  apply sign_verifies_consistent_pair. cbn [fresh_pair publicKey privateKey].
  now rewrite hex_decode_encode.
Qed.

(** C1, on the path where the issuer private key comes from the
    environment: the credential hash is the Poseidon hash of the age, the
    country code and the user secret, and the signature is made with the
    environment's private key; but the issuer public key returned with it is
    derived from 32 freshly drawn random bytes, not from that private key. *)
Theorem issuer_public_key_not_derived_from_env_key (w : World) (kyc : KycResult)
    (bound : option string) (lvl : option Z) (dobTime : Z) (envKey : string) :
  issuerKeyPair w = None -> issuerFile w = None ->
  envIssuerPrivateKey w = Some envKey -> envKey <> "" ->
  Date_parse (dateOfBirth kyc) = Some dobTime ->
  let age := computeAge dobTime (clock w (ticks w)) in
  let secret := be_value (next_bytes 31 (set_drawn (drawn w + 32) w)) in
  let h := poseidon [F_e age; F_e (countryCode kyc); F_e secret] in
  let sg := signPoseidon (Hex.decode envKey) (F_e h) in
  let pk := prv2pub (next_bytes 32 w) in
  exists cred,
    outcome (issueCredential kyc bound lvl) w = inr cred /\
    credentialHash cred = show h /\
    userSecret cred = show secret /\
    signatureR8 cred = (show sg.1.1, show sg.1.2) /\
    signatureS cred = show sg.2 /\
    issuerPubKey cred = (show pk.1, show pk.2).
Proof.
  intros Hc Hf He Hne Hdob age secret h sg pk.
  pose proof (getIssuerKeyPair_cases w) as Hkp. rewrite Hc, Hf, He in Hkp. cbn zeta in Hkp.
  apply String.eqb_neq in Hne. rewrite Hne in Hkp.
  destruct (issueCredential_run w _ _ kyc bound lvl dobTime Hkp Hdob)
    as (cred & Ho & Hh & Hr & Hs & Hp & Hu).
  exists cred. world_simpl. repeat split; assumption.
Qed.

End IssuerSignature.

(** Issuance on the reference platform with the private key taken from the
    environment. *)
Lemma issuer_public_key_not_derived_from_env_key_witness :
  let envKey := Hex.encode (Reference.key32 x2a) in
  let w := with_envIssuerPrivateKey (Some envKey)
             (Reference.world (Reference.days_from_civil 2026 11 3 * Reference.msPerDay)) in
  let kyc := mkKyc true "1990-01-15" 840 in
  let secret := be_value (next_bytes 31 (set_drawn (drawn w + 32) w)) in
  let h := poseidon (Platform := Reference.platform) [F_e 36; F_e 840; F_e secret] in
  envKey <> "" /\
  exists cred,
    outcome (issueCredential (P := Reference.platform) kyc None None) w = inr cred /\
    credentialHash cred = show h /\
    issuerPubKey cred
      = (show (prv2pub (Platform := Reference.platform) (next_bytes 32 w)).1,
         show (prv2pub (Platform := Reference.platform) (next_bytes 32 w)).2).
Proof.
  cbn zeta. split; [discriminate|].
  destruct (issuer_public_key_not_derived_from_env_key (P := Reference.platform)
              (with_envIssuerPrivateKey (Some (Hex.encode (Reference.key32 x2a)))
                 (Reference.world (Reference.days_from_civil 2026 11 3 * Reference.msPerDay)))
              (mkKyc true "1990-01-15" 840) None None
              (Reference.days_from_civil 1990 1 15 * Reference.msPerDay)
              (Hex.encode (Reference.key32 x2a)))
    as (cred & Ho & Hh & _ & _ & _ & Hp).
  - reflexivity.
  - reflexivity.
  - reflexivity.
  - discriminate.
  - vm_compute; reflexivity.
  - exists cred. split; [exact Ho|]. split; [|exact Hp].
    rewrite Hh. vm_compute. reflexivity.
Defined.

(** On the reference platform the mismatch shows: the signature returned
    with the credential verifies under the public key of the environment's
    private key and not under the issuer public key returned with it. *)
Lemma env_key_signature_fails_under_returned_key :
  let envKey := Hex.encode (Reference.key32 x2a) in
  let w := with_envIssuerPrivateKey (Some envKey)
             (Reference.world (Reference.days_from_civil 2026 11 3 * Reference.msPerDay)) in
  let kyc := mkKyc true "1990-01-15" 840 in
  let secret := be_value (next_bytes 31 (set_drawn (drawn w + 32) w)) in
  let h := hashCredential (P := Reference.platform) 36 840 secret in
  let sg := sign (P := Reference.platform) envKey h in
  let returned := prv2pub (Platform := Reference.platform) (next_bytes 32 w) in
  exists cred,
    outcome (issueCredential (P := Reference.platform) kyc None None) w = inr cred /\
    credentialHash cred = show h /\
    signatureR8 cred = (show (R8 sg).1, show (R8 sg).2) /\
    signatureS cred = show (S_ sg) /\
    issuerPubKey cred = (show returned.1, show returned.2) /\
    verify (P := Reference.platform) returned h sg = false /\
    verify (P := Reference.platform)
      (prv2pub (Platform := Reference.platform) (Hex.decode envKey)) h sg = true.
Proof.
  cbn zeta. eexists. split; [vm_compute; reflexivity|].
  repeat (split; [vm_compute; reflexivity|]). vm_compute. reflexivity.
Qed.

(** * Further properties of the code *)

(** ** Auxiliary facts *)

Lemma inr_eq {A B} (a b : B) : @inr A B a = inr b -> a = b.
Proof. now intros [= ->]. Qed.

Lemma hex_encode_length (bs : list byte) :
  String.length (Hex.encode bs) = (2 * length bs)%nat.
Proof. induction bs as [|b r IH]; [reflexivity|]. cbn. rewrite IH. lia. Qed.

Lemma be_value_bounds (bs : list byte) :
  0 <= be_value bs < 256 ^ Z.of_nat (length bs).
Proof.
  unfold be_value.
  assert (H : forall acc, 0 <= acc ->
            0 <= fold_left (fun acc b => acc * 256 + Z.of_N (Byte.to_N b)) bs acc
              < (acc + 1) * 256 ^ Z.of_nat (length bs)).
  { induction bs as [|b r IH]; intros acc Hacc.
    - cbn. lia.
    - cbn [fold_left length]. rewrite Nat2Z.inj_succ, Z.pow_succ_r by lia.
      pose proof (Byte.to_N_bounded b) as Hb.
      assert (Hb' : 0 <= Z.of_N (Byte.to_N b) <= 255) by lia.
      destruct (IH (acc * 256 + Z.of_N (Byte.to_N b))) as [H0 H1]; [lia|].
      split; [exact H0|].
      assert (Hp : 0 < 256 ^ Z.of_nat (length r)) by (apply Z.pow_pos_nonneg; lia).
      nia. }
  specialize (H 0). cbn in H. rewrite Z.mul_1_l in H. apply H. lia.
Qed.

(** ** The sanctions Merkle tree *)

Section MerkleTree.

Context {P : Platform}.

Lemma hashLayer_length :
  forall l l', PoseidonMerkleTree.hashLayer l = inr l' -> length l = (2 * length l')%nat.
Proof.
  fix IH 1. intros [|a [|b rest]] l' H; cbn in H.
  - injection H as <-. reflexivity.
  - discriminate.
  - destruct (PoseidonMerkleTree.hashLayer rest) as [e|nextLayer] eqn:E; [discriminate|].
    injection H as <-. apply IH in E. cbn. lia.
Qed.

Lemma hashLayer_total (n : nat) :
  forall l, length l = (2 * n)%nat -> exists l', PoseidonMerkleTree.hashLayer l = inr l'.
Proof.
  induction n as [|n IH]; intros l Hl.
  - destruct l; [|discriminate]. now exists [].
  - destruct l as [|a [|b rest]]; cbn in Hl; try lia.
    destruct (IH rest) as [l' Hl']; [lia|].
    cbn. rewrite Hl'. eauto.
Qed.

Lemma hashLayer_lookup :
  forall l l', PoseidonMerkleTree.hashLayer l = inr l' ->
  forall k a b, l !! (2 * k)%nat = Some a -> l !! (2 * k + 1)%nat = Some b ->
    l' !! k = Some (poseidonHash [a; b]).
Proof.
  fix IH 1. intros [|x [|y rest]] l' H k a b Ha Hb; cbn in H.
  - discriminate.
  - destruct k; cbn in Hb; discriminate.
  - destruct (PoseidonMerkleTree.hashLayer rest) as [e|nextLayer] eqn:E; [discriminate|].
    injection H as <-. destruct k as [|k].
    + cbn in Ha, Hb. injection Ha as <-. injection Hb as <-. reflexivity.
    + replace (2 * S k)%nat with (S (S (2 * k))) in Ha by lia.
      replace (2 * S k + 1)%nat with (S (S (2 * k + 1))) in Hb by lia.
      cbn in Ha, Hb. cbn. exact (IH rest nextLayer E k a b Ha Hb).
Qed.

Lemma stacked_length (ls : list (list Z)) :
  stacked ls ->
  forall l up, ls = l :: up -> length l = (2 ^ length up)%nat.
Proof.
  induction 1 as [top|l l' rest Hh Hs IH]; intros l0 up [= <- <-]; [reflexivity|].
  apply hashLayer_length in Hh. rewrite Hh, (IH l' rest eq_refl).
  cbn [length]. rewrite Nat.pow_succ_r'. reflexivity.
Qed.

Lemma stacked_last (ls : list (list Z)) :
  stacked ls -> exists top, last ls = Some [top].
Proof.
  induction 1 as [top|l l' rest Hh Hs [top IH]]; [now exists top|].
  exists top. exact IH.
Qed.

Lemma buildLoop_stacked (count : nat) :
  forall cur pre, length cur = (2 ^ count)%nat ->
    exists up,
      PoseidonMerkleTree.buildLoop count cur (pre ++ [cur]) = inr (pre ++ cur :: up)%list /\
      length up = count /\ stacked (cur :: up).
Proof.
  induction count as [|n IH]; intros cur pre Hl.
  - exists []. cbn. split; [reflexivity|]. split; [reflexivity|].
    destruct cur as [|x [|y r]]; cbn in Hl; try discriminate. constructor.
  - destruct (hashLayer_total (2 ^ n) cur) as [l' Hl'].
    { rewrite Hl, Nat.pow_succ_r'. reflexivity. }
    pose proof (hashLayer_length _ _ Hl') as Hlen.
    destruct (IH l' (pre ++ [cur])%list) as (up & Hb & Hu & Hs).
    { rewrite Hl, Nat.pow_succ_r' in Hlen. lia. }
    exists (l' :: up). cbn [PoseidonMerkleTree.buildLoop]. rewrite Hl', Hb.
    rewrite <- app_assoc. cbn. split; [reflexivity|]. split; [now rewrite Hu|].
    now constructor.
Qed.

(** The path [generateProof] collects in a built tree, and what
    [verifyMerkleProof] makes of it. *)
Lemma pathLoop_stacked (up : list (list Z)) :
  forall cur pre idx pe pi,
    stacked (cur :: up) -> (idx < length cur)%nat ->
    exists pe' pi' h top,
      PoseidonMerkleTree.pathLoop (length up) (length pre) idx (pre ++ cur :: up) pe pi
        = inr ((pe ++ pe')%list, (pi ++ pi')%list) /\
      length pe' = length up /\ length pi' = length up /\
      of_bits pi' = Z.of_nat idx /\
      Forall (fun b => b = 0 \/ b = 1) pi' /\
      cur !! idx = Some h /\
      last (cur :: up) = Some [top] /\
      verifyLoop pe' (length pi) (pi ++ pi') h = inr top.
Proof.
  induction up as [|l' rest IH]; intros cur pre idx pe pi Hs Hi.
  - inversion Hs as [top|]; subst. cbn in Hi.
    assert (idx = 0%nat) as -> by lia.
    exists [], [], top, top. cbn. rewrite !app_nil_r. repeat split. constructor.
  - inversion Hs as [|l0 l1 r0 Hh Hs']; subst.
    pose proof (hashLayer_length _ _ Hh) as Hlen.
    assert (Hlk : (pre ++ cur :: l' :: rest)%list !! length pre = Some cur).
    { rewrite lookup_app_r by lia. now rewrite Nat.sub_diag. }
    set (sib := (if Nat.odd idx then idx - 1 else idx + 1)%nat).
    set (bit := if Nat.odd idx then 1 else 0).
    assert (Hstep : exists h s,
               cur !! idx = Some h /\ cur !! sib = Some s /\
               l' !! (idx / 2)%nat
                 = Some (match bit with
                         | 0 => poseidonHash [h; s]
                         | _ => poseidonHash [s; h]
                         end) /\
               bit + 2 * Z.of_nat (idx / 2) = Z.of_nat idx).
    { pose proof (Nat.div_mod_eq idx 2) as Hd.
      pose proof (Nat.mod_upper_bound idx 2 ltac:(lia)) as Hm.
      destruct (lookup_lt_is_Some_2 cur (2 * (idx / 2))%nat) as [a Ha]; [lia|].
      destruct (lookup_lt_is_Some_2 cur (2 * (idx / 2) + 1)%nat) as [b Hb]; [lia|].
      pose proof (hashLayer_lookup _ _ Hh _ _ _ Ha Hb) as Hup.
      subst sib bit. destruct (Nat.odd idx) eqn:Hodd.
      - assert (Hm1 : (idx mod 2 = 1)%nat).
        { rewrite <- Nat.bit0_mod, Nat.bit0_odd, Hodd. reflexivity. }
        exists b, a. replace (idx - 1)%nat with (2 * (idx / 2))%nat by lia.
        replace idx with (2 * (idx / 2) + 1)%nat at 1 by lia.
        repeat split; try assumption. lia.
      - assert (Hm0 : (idx mod 2 = 0)%nat).
        { rewrite <- Nat.bit0_mod, Nat.bit0_odd, Hodd. reflexivity. }
        exists a, b. replace (idx + 1)%nat with (2 * (idx / 2) + 1)%nat by lia.
        replace idx with (2 * (idx / 2))%nat at 1 by lia.
        repeat split; try assumption. lia. }
    destruct Hstep as (h & s & Hh0 & Hsib & Hup & Hbit).
    destruct (IH l' (pre ++ [cur])%list (idx / 2)%nat (pe ++ [cur !! sib])%list
                (pi ++ [bit])%list Hs')
      as (pe' & pi' & h' & top & Hp & Hpe & Hpi & Hb & Hbits & Hh' & Hlast & Hv).
    { apply Nat.Div0.div_lt_upper_bound. lia. }
    rewrite Hup in Hh'. injection Hh' as <-.
    exists (Some s :: pe'), (bit :: pi'), h, top.
    split.
    { cbn [length PoseidonMerkleTree.pathLoop]. rewrite Hlk. fold sib. fold bit.
      replace (S (length pre)) with (length (pre ++ [cur])%list)
        by (rewrite length_app; cbn; lia).
      replace (pre ++ cur :: l' :: rest)%list with ((pre ++ [cur]) ++ l' :: rest)%list
        by (now rewrite <- app_assoc).
      rewrite Hp, Hsib, <- !app_assoc. reflexivity. }
    split; [cbn; lia|]. split; [cbn; lia|].
    split; [cbn [of_bits]; rewrite Hb; lia|].
    split.
    { constructor; [|exact Hbits]. subst bit. destruct (Nat.odd idx); auto. }
    split; [exact Hh0|]. split; [exact Hlast|].
    cbn [verifyLoop]. rewrite lookup_app_r by lia. rewrite Nat.sub_diag.
    cbn [lookup list_lookup].
    rewrite length_app, <- app_assoc in Hv. cbn in Hv.
    replace (length pi + 1)%nat with (S (length pi)) in Hv by lia.
    destruct bit; exact Hv.
Qed.



Lemma builtTree_stacked (depth : nat) (lvs : list Z) :
  (length lvs <= 2 ^ depth)%nat ->
  exists up,
    builtTree depth lvs
      = inr (PoseidonMerkleTree.mk depth (padded depth lvs) (padded depth lvs :: up)) /\
    length up = depth /\ stacked (padded depth lvs :: up).
Proof.
  intros Hl. unfold builtTree, PoseidonMerkleTree.constructor.
  destruct (2 ^ depth <? length lvs)%nat eqn:E; [apply Nat.ltb_lt in E; lia|].
  fold (padded depth lvs). unfold PoseidonMerkleTree.build.
  cbn [PoseidonMerkleTree.depth PoseidonMerkleTree.leaves PoseidonMerkleTree.layers].
  destruct (buildLoop_stacked depth (padded depth lvs) []) as (up & Hb & Hu & Hs).
  { unfold padded. rewrite length_app, repeat_length. lia. }
  cbn [app] in Hb. rewrite Hb. eauto.
Qed.

Lemma generateProof_built (depth : nat) (lvs : list Z) (up : list (list Z)) (index : Z) :
  length up = depth -> stacked (padded depth lvs :: up) ->
  0 <= index < 2 ^ Z.of_nat depth ->
  let tree := PoseidonMerkleTree.mk depth (padded depth lvs) (padded depth lvs :: up) in
  exists proof,
    PoseidonMerkleTree.generateProof tree index = inr proof /\
    mp_index proof = index /\
    padded depth lvs !! Z.to_nat index = Some (leaf proof) /\
    PoseidonMerkleTree.root tree = inr (root proof) /\
    length (pathElements proof) = depth /\ length (pathIndices proof) = depth /\
    of_bits (pathIndices proof) = index /\
    Forall (fun b => b = 0 \/ b = 1) (pathIndices proof) /\
    verifyLoop (pathElements proof) 0 (pathIndices proof) (leaf proof) = inr (root proof).
Proof.
  intros Hu Hs Hi tree. subst depth.
  pose proof (stacked_length _ Hs _ _ eq_refl) as Hlen.
  assert (Hpow : Z.of_nat (2 ^ length up) = 2 ^ Z.of_nat (length up)).
  { rewrite Nat2Z.inj_pow. reflexivity. }
  destruct (pathLoop_stacked up _ [] (Z.to_nat index) [] [] Hs)
    as (pe & pi & h & top & Hp & Hpe & Hpi & Hb & Hbits & Hh & Hlast & Hv).
  { rewrite Hlen. lia. }
  cbn [app length] in Hp, Hv.
  unfold PoseidonMerkleTree.generateProof, PoseidonMerkleTree.root. subst tree.
  cbn [PoseidonMerkleTree.depth PoseidonMerkleTree.leaves PoseidonMerkleTree.layers].
  rewrite Hlen, Hpow.
  replace ((index <? 0) || (2 ^ Z.of_nat (length up) <=? index)) with false
    by (symmetry; apply orb_false_iff; split; [apply Z.ltb_ge|apply Z.leb_gt]; lia).
  rewrite Hp, Hlast, Hh. cbn [default].
  eexists. split; [reflexivity|]. cbn [mp_index leaf root pathElements pathIndices].
  repeat split; try assumption; try lia.
Qed.

(** X1: for at most [2 ^ depth] leaves, constructing and building the tree
    succeeds, and for every index of the (padded) leaf array the proof that
    [generateProof] returns carries that leaf and the tree's root, and
    [verifyMerkleProof] accepts it. *)
Theorem merkle_proof_verifies (depth : nat) (lvs : list Z) :
  (length lvs <= 2 ^ depth)%nat ->
  exists tree,
    builtTree depth lvs = inr tree /\
    forall index, 0 <= index < 2 ^ Z.of_nat depth ->
      exists proof,
        PoseidonMerkleTree.generateProof tree index = inr proof /\
        PoseidonMerkleTree.leaves tree !! Z.to_nat index = Some (leaf proof) /\
        PoseidonMerkleTree.root tree = inr (root proof) /\
        verifyMerkleProof proof = inr true.
Proof.
  intros Hl. destruct (builtTree_stacked depth lvs Hl) as (up & Hb & Hu & Hs).
  eexists. split; [exact Hb|]. intros index Hi.
  destruct (generateProof_built depth lvs up index Hu Hs Hi)
    as (proof & Hg & _ & Hleaf & Hroot & _ & _ & _ & _ & Hv).
  exists proof. split; [exact Hg|]. split; [exact Hleaf|]. split; [exact Hroot|].
  unfold verifyMerkleProof. rewrite Hv, Z.eqb_refl. reflexivity.
Qed.

(** X2: in a built tree, [generateProof] throws the range error exactly for
    an index below 0 or at or above [2 ^ depth]; otherwise the proof has one
    path element and one path index per level, and the path indices are the
    binary digits of the index, least significant first. *)
Theorem generateProof_path_is_index_in_binary (depth : nat) (lvs : list Z)
    (tree : PoseidonMerkleTree.t) (index : Z) :
  builtTree depth lvs = inr tree ->
  if (index <? 0) || (2 ^ Z.of_nat depth <=? index)
  then PoseidonMerkleTree.generateProof tree index
       = inl (PoseidonMerkleTree.out_of_range index)
  else exists proof,
         PoseidonMerkleTree.generateProof tree index = inr proof /\
         mp_index proof = index /\
         length (pathElements proof) = depth /\ length (pathIndices proof) = depth /\
         Forall (fun b => b = 0 \/ b = 1) (pathIndices proof) /\
         of_bits (pathIndices proof) = index.
Proof.
  intros Hb.
  assert (Hl : (length lvs <= 2 ^ depth)%nat).
  { unfold builtTree, PoseidonMerkleTree.constructor in Hb.
    destruct (2 ^ depth <? length lvs)%nat eqn:E; [discriminate|].
    apply Nat.ltb_ge in E. exact E. }
  destruct (builtTree_stacked depth lvs Hl) as (up & Hb' & Hu & Hs).
  rewrite Hb in Hb'. injection Hb' as ->.
  destruct ((index <? 0) || (2 ^ Z.of_nat depth <=? index)) eqn:E.
  - unfold PoseidonMerkleTree.generateProof. cbn [PoseidonMerkleTree.leaves].
    rewrite (stacked_length _ Hs _ _ eq_refl), Hu, Nat2Z.inj_pow.
    change (Z.of_nat 2) with 2. now rewrite E.
  - apply orb_false_iff in E as [E1 E2]. apply Z.ltb_ge in E1. apply Z.leb_gt in E2.
    destruct (generateProof_built depth lvs up index Hu Hs (conj E1 E2))
      as (proof & Hg & Hidx & _ & _ & Hpe & Hpi & Hbits & Hall & _).
    exists proof. repeat split; assumption.
Qed.

Lemma lookup_repeat (x : Z) (n : nat) :
  forall i, (i < n)%nat -> repeat x n !! i = Some x.
Proof.
  induction n as [|n IH]; intros i Hi; [lia|].
  destruct i as [|i]; [reflexivity|]. cbn. apply IH. lia.
Qed.

(** X3: the constructor refuses more than [2 ^ depth] leaves and otherwise
    keeps the given leaves followed by zeros, [2 ^ depth] in all.  On the
    tree it returns, before [build()], [root] does not throw its
    not-built error: it answers the first leaf. *)
Theorem constructor_pads_and_root_before_build (depth : nat) (lvs : list Z) :
  match PoseidonMerkleTree.constructor depth lvs with
  | inl e =>
      (2 ^ depth < length lvs)%nat /\
      e = PoseidonMerkleTree.too_many (length lvs) (2 ^ depth)
  | inr tree =>
      (length lvs <= 2 ^ depth)%nat /\
      length (PoseidonMerkleTree.leaves tree) = (2 ^ depth)%nat /\
      (forall i, (i < length lvs)%nat -> PoseidonMerkleTree.leaves tree !! i = lvs !! i) /\
      (forall i, (length lvs <= i < 2 ^ depth)%nat ->
                 PoseidonMerkleTree.leaves tree !! i = Some 0) /\
      PoseidonMerkleTree.root tree = inr (default 0 (lvs !! 0%nat))
  end.
Proof.
  unfold PoseidonMerkleTree.constructor.
  destruct (2 ^ depth <? length lvs)%nat eqn:E.
  - apply Nat.ltb_lt in E. split; [exact E|reflexivity].
  - apply Nat.ltb_ge in E. cbn [PoseidonMerkleTree.leaves].
    split; [exact E|]. split; [rewrite length_app, repeat_length; lia|].
    split; [intros i Hi; now rewrite lookup_app_l|].
    split.
    + intros i Hi. rewrite lookup_app_r by lia.
      apply lookup_repeat. lia.
    + unfold PoseidonMerkleTree.root. cbn [PoseidonMerkleTree.layers last].
      destruct lvs as [|x r]; [|reflexivity]. cbn [app length lookup default].
      rewrite Nat.sub_0_r.
      pose proof (Nat.pow_nonzero 2 depth ltac:(lia)) as Hz.
      destruct (2 ^ depth)%nat; [lia|reflexivity].
Qed.

Lemma findIndex_none (f : Z -> bool) (l : list Z) :
  forall i, 0 <= i ->
    (PoseidonMerkleTree.findIndex f l i =? -1) = negb (existsb f l).
Proof.
  induction l as [|x r IH]; intros i Hi; [reflexivity|].
  cbn [PoseidonMerkleTree.findIndex existsb]. destruct (f x).
  - cbn. apply Z.eqb_neq. lia.
  - cbn. apply IH. lia.
Qed.

Lemma existsb_repeat (f : Z -> bool) (x : Z) (n : nat) :
  existsb f (repeat x (S n)) = f x.
Proof.
  induction n as [|n IH]; [cbn; apply orb_false_r|].
  change (repeat x (S (S n))) with (x :: repeat x (S n)).
  cbn [existsb]. rewrite IH. apply orb_diag.
Qed.

(** X4: [isCountrySanctioned] never throws, and it answers [true] exactly
    for the five listed codes and for the code 0, which matches the zeros
    the leaf array is padded with.  For a code of 1 to 999, as the
    credential route admits, it answers [true] exactly for the five listed
    codes. *)
Theorem isCountrySanctioned_listed_or_zero (countryCode : Z) :
  isCountrySanctioned countryCode
    = inr (existsb (fun code => code =? countryCode) SANCTIONED_COUNTRY_CODES || (countryCode =? 0)) /\
  (1 <= countryCode <= 999 ->
   isCountrySanctioned countryCode
     = inr (existsb (fun code => code =? countryCode) getSanctionedCountries)).
Proof.
  assert (H : isCountrySanctioned countryCode
              = inr (existsb (fun code => code =? countryCode) SANCTIONED_COUNTRY_CODES
                     || (countryCode =? 0))).
  { unfold isCountrySanctioned, getSanctionsTree.
    destruct (builtTree_stacked TREE_DEPTH SANCTIONED_COUNTRY_CODES) as (up & Hb & _ & _).
    { cbn. lia. }
    unfold builtTree in Hb. rewrite Hb.
    unfold PoseidonMerkleTree.indexOf. cbn [PoseidonMerkleTree.leaves].
    rewrite findIndex_none by lia. rewrite negb_involutive.
    unfold padded. rewrite existsb_app.
    replace (2 ^ TREE_DEPTH - length SANCTIONED_COUNTRY_CODES)%nat with (S 1018)
      by reflexivity.
    rewrite existsb_repeat. now rewrite (Z.eqb_sym 0). }
  split; [exact H|].
  intros Hc. rewrite H. unfold getSanctionedCountries.
  replace (countryCode =? 0) with false by (symmetry; apply Z.eqb_neq; lia).
  now rewrite orb_false_r.
Qed.

End MerkleTree.

(** A tree of depth 2 over three codes on the reference platform. *)
Lemma merkle_proof_verifies_witness :
  exists tree,
    builtTree (P := Reference.platform) 2 [408; 364; 760] = inr tree /\
    forall index, 0 <= index < 2 ^ Z.of_nat 2 ->
      exists proof,
        PoseidonMerkleTree.generateProof tree index = inr proof /\
        PoseidonMerkleTree.leaves tree !! Z.to_nat index = Some (leaf proof) /\
        PoseidonMerkleTree.root tree = inr (root proof) /\
        verifyMerkleProof (P := Reference.platform) proof = inr true.
Proof.
  apply (merkle_proof_verifies (P := Reference.platform) 2 [408; 364; 760]).
  cbn. lia.
Defined.

(** The proof for index 2 in that tree. *)
Lemma generateProof_path_is_index_in_binary_witness :
  exists tree proof,
    builtTree (P := Reference.platform) 2 [408; 364; 760] = inr tree /\
    PoseidonMerkleTree.generateProof tree 2 = inr proof /\
    length (pathIndices proof) = 2%nat /\ of_bits (pathIndices proof) = 2.
Proof.
  assert (Hb : exists tree, builtTree (P := Reference.platform) 2 [408; 364; 760] = inr tree)
    by (eexists; vm_compute; reflexivity).
  destruct Hb as [tree Hb].
  pose proof (generateProof_path_is_index_in_binary (P := Reference.platform)
                2 [408; 364; 760] tree 2 Hb) as H.
  cbn [orb Z.ltb Z.leb Z.compare Z.pow Z.of_nat] in H.
  destruct H as (proof & Hg & _ & _ & Hlen & _ & Hbits).
  exists tree, proof. split; [exact Hb|]. split; [exact Hg|].
  split; [exact Hlen|exact Hbits].
Defined.

(** ** API key authentication *)

Lemma substring_all (s : string) : substring 0 (String.length s) s = s.
Proof. induction s as [|c s IH]; [reflexivity|]. cbn. now rewrite IH. Qed.

Lemma slice_append (p s : string) : slice (String.length p) (p +:+ s) = s.
Proof.
  unfold slice. induction p as [|c p IH].
  - cbn [String.length]. rewrite Nat.sub_0_r. apply substring_all.
  - rewrite append_cons. cbn [String.length substring Nat.sub]. exact IH.
Qed.

Lemma prefix_slice (p s : string) :
  String.prefix p s = true -> s = p +:+ slice (String.length p) s.
Proof.
  revert s. induction p as [|c p IH]; intros s H.
  - unfold slice. cbn [String.length]. rewrite Nat.sub_0_r. now rewrite substring_all.
  - destruct s as [|d s]; [discriminate|]. cbn in H.
    destruct (ascii_dec c d) as [->|]; [|discriminate].
    rewrite append_cons. unfold slice in *. cbn [String.length substring Nat.sub].
    f_equal. now apply IH.
Qed.

Lemma prefix_append (p s : string) : String.prefix p (p +:+ s) = true.
Proof.
  induction p as [|c p IH]; [now destruct s|].
  rewrite append_cons. cbn. destruct (ascii_dec c c); [exact IH|congruence].
Qed.

(** X5: [apiKeyAuth] lets a request through exactly when its
    [Authorization] header is [Bearer ] followed by one of the API keys, and
    the key it attaches is that one.  Every other request is answered 401
    when the header is missing or does not start with [Bearer ], and 403
    when it does but the rest is not an API key. *)
Theorem apiKeyAuth_passes_exactly_bearer_keys (API_KEYS : list string)
    (authorization : option string) :
  (forall apiKey,
      apiKeyAuth API_KEYS authorization = next apiKey
      <-> authorization = Some ("Bearer " +:+ apiKey) /\ In apiKey API_KEYS) /\
  (forall r,
      apiKeyAuth API_KEYS authorization = reply r ->
      match authorization with
      | Some authHeader =>
          if String.prefix "Bearer " authHeader then status r = 403 else status r = 401
      | None => status r = 401
      end).
Proof.
  split.
  - intros apiKey. unfold apiKeyAuth. split.
    + destruct authorization as [authHeader|]; [|discriminate].
      destruct (String.prefix "Bearer " authHeader) eqn:Hp; [|discriminate].
      destruct (existsb _ API_KEYS) eqn:He; [|discriminate].
      cbn [negb]. intros [= <-]. split.
      * f_equal. exact (prefix_slice "Bearer " authHeader Hp).
      * apply existsb_exists in He as (k & Hin & Hk).
        apply String.eqb_eq in Hk as ->. exact Hin.
    + intros [-> Hin]. rewrite (prefix_append "Bearer " apiKey).
      rewrite (slice_append "Bearer " apiKey : slice 7 ("Bearer " +:+ apiKey) = apiKey).
      replace (existsb (String.eqb apiKey) API_KEYS) with true; [reflexivity|].
      symmetry. apply existsb_exists. exists apiKey. split; [exact Hin|apply String.eqb_refl].
  - intros r. unfold apiKeyAuth.
    destruct authorization as [authHeader|]; [|now intros [= <-]].
    destruct (String.prefix "Bearer " authHeader); [|now intros [= <-]].
    destruct (negb _); [now intros [= <-]|discriminate].
Qed.

(** ** The authorized peers *)

(** X6: after [authorizePeer(p)] the peer [p] is authorized and any other
    peer is authorized exactly when it was in the set before, so the first
    authorization ends the allow-all mode of the empty set.
    [deauthorizePeer(p)] on a set that holds another peer leaves [p]
    unauthorized; on a set that holds no other peer it empties the set, and
    then every peer is authorized again, [p] included. *)
Theorem deauthorizing_the_last_peer_allows_all (authorizedPeers : gset string)
    (p q : string) :
  isPeerAuthorized p (authorizePeer p authorizedPeers) = true /\
  (q <> p ->
   isPeerAuthorized q (authorizePeer p authorizedPeers)
     = bool_decide (q ∈ authorizedPeers)) /\
  (q ∈ authorizedPeers -> q <> p ->
   isPeerAuthorized p (deauthorizePeer p authorizedPeers) = false) /\
  (authorizedPeers ⊆ {[p]} ->
   isPeerAuthorized q (deauthorizePeer p authorizedPeers) = true /\
   isPeerAuthorized p (deauthorizePeer p authorizedPeers) = true).
Proof.
  unfold isPeerAuthorized, authorizePeer, deauthorizePeer.
  assert (Hne : size ({[p]} ∪ authorizedPeers) <> 0%nat).
  { intros H. apply size_empty_iff in H. set_solver. }
  apply Nat.eqb_neq in Hne. rewrite Hne.
  split; [apply bool_decide_eq_true; set_solver|].
  split; [intros Hq; apply bool_decide_ext; rewrite elem_of_union, elem_of_singleton; tauto|].
  split.
  - intros Hin Hq.
    assert (Hs : size (authorizedPeers ∖ {[p]}) <> 0%nat).
    { intros H. apply size_empty_iff in H. set_solver. }
    apply Nat.eqb_neq in Hs. rewrite Hs.
    apply bool_decide_eq_false. rewrite elem_of_difference, elem_of_singleton. tauto.
  - intros Hsub.
    assert (Hs : size (authorizedPeers ∖ {[p]}) = 0%nat).
    { apply size_empty_iff, elem_of_equiv_empty.
      intros x [Hx Hn]%elem_of_difference. apply Hn, Hsub, Hx. }
    rewrite Hs. split; reflexivity.
Qed.

(** ** More on [aggregateProofs] and its route *)

Section AggregateMore.

Context {P : Platform}.

Lemma filter_length_le {A} (f : A -> Prop) `{forall x, Decision (f x)} (l : list A) :
  (length (filter f l) <= length l)%nat.
Proof. apply length_filter. Qed.

Lemma filter_length_all {A} (f : A -> Prop) `{forall x, Decision (f x)} (l : list A) :
  length (filter f l) = length l <-> Forall f l.
Proof.
  induction l as [|x r IH]; [split; [constructor|reflexivity]|].
  pose proof (length_filter f r) as Hle.
  rewrite filter_cons. destruct (decide (f x)) as [Hx|Hx]; cbn [length].
  - split.
    + intros [= Hl]. constructor; [exact Hx|now apply IH].
    + intros Hall. apply Forall_cons in Hall as [_ Hr]. f_equal. now apply IH.
  - split; [lia|]. intros Hall. apply Forall_cons in Hall as [Hx' _]. contradiction.
Qed.

Lemma resultFor_valid (vkey : JValue) (i : nat) (entry : AggregateProofEntry) :
  ar_valid (resultFor vkey i entry) = true
  <-> verifyProofWithKey (ap_proof entry) (ap_publicSignals entry) vkey = inr true.
Proof.
  unfold resultFor.
  destruct (verifyProofWithKey _ _ _) as [[m|]|[|]]; cbn; split; congruence.
Qed.

Lemma Forall_imap_resultFor (vkey : JValue) (proofs : list AggregateProofEntry) :
  forall (f : nat -> nat),
    Forall (fun e => ar_valid e = true) (imap (fun i => resultFor vkey (f i)) proofs)
    <-> Forall (fun entry =>
                  verifyProofWithKey (ap_proof entry) (ap_publicSignals entry) vkey
                  = inr true) proofs.
Proof.
  induction proofs as [|e r IH]; intros f; [split; constructor|].
  cbn [imap]. rewrite !Forall_cons, resultFor_valid.
  now rewrite <- (IH (fun i => f (S i))).
Qed.

(** X7: the batch is reported all valid exactly when the verifier returns
    [true] for every proof of it; [validCount] never exceeds [total]; and
    there is one result per proof. *)
Theorem aggregateProofs_allValid_iff_every_proof_verifies
    (proofs : list AggregateProofEntry) (vkey : JValue) :
  let r := aggregateProofs proofs vkey in
  (allValid r = true
   <-> Forall (fun entry =>
                 verifyProofWithKey (ap_proof entry) (ap_publicSignals entry) vkey
                 = inr true) proofs) /\
  0 <= validCount r <= total r /\
  length (results r) = length proofs.
Proof.
  cbn zeta.
  assert (Hres : results (aggregateProofs proofs vkey) = imap (resultFor vkey) proofs)
    by apply results_aggregate.
  destruct proofs as [|e l].
  { cbn. split; [split; [constructor|reflexivity]|]. split; [lia|reflexivity]. }
  unfold aggregateProofs in *. cbn [length Nat.eqb allValid validCount total results] in *.
  rewrite Hres.
  set (rs := imap (resultFor vkey) (e :: l)).
  assert (Hlen : length rs = S (length l)) by (subst rs; now rewrite length_imap).
  pose proof (length_filter (fun x => ar_valid x = true) rs) as Hle.
  split; [|split; [lia|exact Hlen]].
  rewrite Z.eqb_eq, Nat2Z.inj_iff, <- Hlen, filter_length_all.
  apply (Forall_imap_resultFor vkey (e :: l) (fun i => i)).
Qed.

End AggregateMore.

(** ** Invariants of the in-memory LRU *)

Lemma JsMap_delete_keys {V} (key : string) (m : list (string * V)) :
  NoDup (map fst m) ->
  NoDup (map fst (JsMap.delete key m)) /\
  (length (JsMap.delete key m) <= length m)%nat /\
  (forall k, k ∈ map fst (JsMap.delete key m) -> k ∈ map fst m).
Proof.
  induction m as [|[k v] r IH]; intros Hd; [cbn; repeat split; [constructor|lia|auto]|].
  apply NoDup_cons in Hd as [Hk Hr]. cbn [JsMap.delete].
  destruct (String.eqb key k).
  - repeat split; [exact Hr|cbn; lia|]. intros k0 Hk0. cbn. now right.
  - destruct (IH Hr) as (Hn & Hl & Hs). cbn [map fst length]. repeat split.
    + apply NoDup_cons. split; [|exact Hn]. intros Hin. apply Hk. now apply Hs.
    + lia.
    + intros k0 [->|Hin]%elem_of_cons; [left|right; now apply Hs].
Qed.

Lemma JsMap_set_keys {V} (key : string) (v : V) (m : list (string * V)) :
  NoDup (map fst m) ->
  NoDup (map fst (JsMap.set key v m)) /\
  (length (JsMap.set key v m) <= S (length m))%nat /\
  (forall k, k ∈ map fst (JsMap.set key v m) -> k = key \/ k ∈ map fst m).
Proof.
  induction m as [|[k x] r IH]; intros Hd.
  - cbn. repeat split; [apply NoDup_singleton|lia|].
    intros k [->|[]%elem_of_nil]%elem_of_cons. now left.
  - apply NoDup_cons in Hd as [Hk Hr]. cbn [JsMap.set].
    destruct (String.eqb key k) eqn:E.
    + cbn [map fst length]. repeat split.
      * apply NoDup_cons. split; assumption.
      * lia.
      * intros k0 Hk0. now right.
    + destruct (IH Hr) as (Hn & Hl & Hs). cbn [map fst length]. repeat split.
      * apply NoDup_cons. split; [|exact Hn]. intros Hin.
        apply Hs in Hin as [->|Hin]; [|now apply Hk].
        now rewrite String.eqb_refl in E.
      * lia.
      * intros k0 [->|Hin]%elem_of_cons; [right; left|].
        apply Hs in Hin as [->|Hin]; [now left|right; now right].
Qed.

Lemma JsMap_set_present {V} (key : string) (v : V) (m : list (string * V)) :
  key ∈ map fst m -> length (JsMap.set key v m) = length m.
Proof.
  induction m as [|[k x] r IH]; [intros []%elem_of_nil|].
  cbn [JsMap.set map fst]. destruct (String.eqb key k) eqn:E; [reflexivity|].
  intros [->|Hin]%elem_of_cons; [now rewrite String.eqb_refl in E|].
  cbn [length]. f_equal. now apply IH.
Qed.

Lemma JsMap_get_set {V} (key : string) (v : V) (m : list (string * V)) :
  JsMap.get key (JsMap.set key v m) = Some v.
Proof.
  induction m as [|[k x] r IH]; cbn [JsMap.set JsMap.get].
  - now rewrite String.eqb_refl.
  - destruct (String.eqb key k) eqn:E; cbn [JsMap.get]; rewrite E; [reflexivity|exact IH].
Qed.

Lemma LRU_set_memory (max : Z) (key : string) (v : bool) (nf : string) (w : World) :
  LRUMemoryCache.set max key v nf w
  = (inr tt,
     set_memoryCache
       (JsMap.set key (mkMem v nf (clock w (ticks w)))
          (if max <=? Z.of_nat (length (memoryCache w)) then tail (memoryCache w)
           else memoryCache w))
       (set_ticks (S (ticks w)) w)).
Proof.
  unfold LRUMemoryCache.set, bind, gets, modify, Date_now, ret. cbn [fst snd].
  destruct (max <=? Z.of_nat (length (memoryCache w))).
  - rewrite <- JsMap_delete_first.
    destruct (JsMap.first_key (memoryCache w)); reflexivity.
  - reflexivity.
Qed.

Lemma tail_keys {V} (m : list (string * V)) :
  NoDup (map fst m) -> NoDup (map fst (tail m)).
Proof. destruct m as [|x r]; [auto|]. cbn. intros Hd. now apply NoDup_cons in Hd as [_ Hr]. Qed.

(** X8: the in-memory cache keeps its keys distinct and never holds more
    than [max] entries (for [max] of at least 1): both [get] and [set]
    preserve this, whatever the TTL and the clock. *)
Theorem lru_keeps_keys_distinct_and_size_bounded (ttl max : Z) (key : string)
    (v : bool) (nf : string) (w : World) :
  1 <= max ->
  NoDup (map fst (memoryCache w)) ->
  Z.of_nat (length (memoryCache w)) <= max ->
  let w1 := after (LRUMemoryCache.get ttl key) w in
  let w2 := after (LRUMemoryCache.set max key v nf) w in
  (NoDup (map fst (memoryCache w1)) /\ Z.of_nat (length (memoryCache w1)) <= max) /\
  (NoDup (map fst (memoryCache w2)) /\ Z.of_nat (length (memoryCache w2)) <= max /\
   JsMap.get key (memoryCache w2) = Some (mkMem v nf (clock w (ticks w)))).
Proof.
  intros Hmax Hd Hl w1 w2. split.
  - subst w1. unfold after, LRUMemoryCache.get, bind, gets, modify, Date_now, ret.
    cbn [fst snd]. destruct (JsMap.get key (memoryCache w)) as [e|] eqn:Hg; [|now split].
    destruct (JsMap_delete_keys key (memoryCache w) Hd) as (Hn & Hle & Hs).
    cbn [fst snd]. world_simpl.
    destruct (ttl <? _); cbn [fst snd]; world_simpl.
    + split; [exact Hn|lia].
    + destruct (JsMap_set_keys key e _ Hn) as (Hn2 & Hle2 & _).
      split; [exact Hn2|].
      assert (Hlt : (length (JsMap.delete key (memoryCache w)) < length (memoryCache w))%nat).
      { clear -Hg. induction (memoryCache w) as [|[k x] r IH]; [discriminate|].
        cbn [JsMap.get] in Hg. cbn [JsMap.delete].
        destruct (String.eqb key k); [cbn; lia|]. cbn. apply IH in Hg. lia. }
      lia.
  - subst w2. unfold after. rewrite LRU_set_memory. cbn [snd]. world_simpl.
    rewrite JsMap_get_set.
    destruct (max <=? Z.of_nat (length (memoryCache w))) eqn:E.
    + destruct (JsMap_set_keys key (mkMem v nf (clock w (ticks w))) _
                  (tail_keys _ Hd)) as (Hn & Hle & _).
      split; [exact Hn|]. split; [|reflexivity].
      apply Z.leb_le in E.
      assert (Ht : length (tail (memoryCache w)) = (length (memoryCache w) - 1)%nat)
        by (destruct (memoryCache w); cbn; lia).
      lia.
    + destruct (JsMap_set_keys key (mkMem v nf (clock w (ticks w))) _ Hd)
        as (Hn & Hle & _).
      split; [exact Hn|]. split; [|reflexivity]. apply Z.leb_gt in E. lia.
Qed.

(** A cache of two entries at capacity 2. *)
Lemma lru_keeps_keys_distinct_and_size_bounded_witness :
  let w := set_memoryCache [("a", mkMem true "n1" 5); ("b", mkMem false "n2" 7)]
             (Reference.world 10) in
  let w2 := after (LRUMemoryCache.set 2 "c" true "n3") w in
  NoDup (map fst (memoryCache w2)) /\ Z.of_nat (length (memoryCache w2)) <= 2 /\
  JsMap.get "c" (memoryCache w2) = Some (mkMem true "n3" 10).
Proof.
  cbn zeta.
  refine (proj2 (lru_keeps_keys_distinct_and_size_bounded 100 2 "c" true "n3"
                   (set_memoryCache [("a", mkMem true "n1" 5); ("b", mkMem false "n2" 7)]
                      (Reference.world 10)) _ _ _)).
  - lia.
  - cbn. apply NoDup_cons. split; [|apply NoDup_singleton].
    intros [E|[]%elem_of_nil]%elem_of_cons. discriminate.
  - cbn. lia.
Defined.

(** ** The two cache layers *)

Lemma LRU_get_run (ttl : Z) (key : string) (w : World) :
  LRUMemoryCache.get ttl key w
  = match JsMap.get key (memoryCache w) with
    | None => (inr None, w)
    | Some e =>
        if ttl <? clock w (ticks w) - timestamp e then
          (inr None,
           set_memoryCache (JsMap.delete key (memoryCache w)) (set_ticks (S (ticks w)) w))
        else
          (inr (Some e),
           set_memoryCache (JsMap.set key e (JsMap.delete key (memoryCache w)))
             (set_ticks (S (ticks w)) w))
    end.
Proof.
  unfold LRUMemoryCache.get, bind, gets, modify, Date_now, ret. cbn [fst snd].
  destruct (JsMap.get key (memoryCache w)) as [e|]; [|reflexivity].
  cbn [fst snd]. world_simpl. destruct (ttl <? _); reflexivity.
Qed.

Section CacheLayers.

Context {P : Platform}.

(** What [cacheProofResult] leaves alone, whether it succeeds or throws. *)
Lemma cacheProofResult_frame (proofHash : string) (v : bool) (nf : string) (w : World) :
  let w' := after (cacheProofResult proofHash v nf) w in
  memoryCache w' = memoryCache w /\ clock w' = clock w /\ storeKeys w' = storeKeys w /\
  vkeyFile w' = vkeyFile w /\
  match storesInstance w with
  | None => storesInstance w' = None
  | Some st =>
      exists st', storesInstance w' = Some st' /\ escrow st' = escrow st /\
                  nullifiers st' = nullifiers st /\ auditLog st' = auditLog st
  end.
Proof.
  unfold after, cacheProofResult, encryptedKVPut, bind, getStores, getStoreKey, Date_now.
  destruct (storesInstance w) as [st|] eqn:Hs; cbn [fst snd]; [|now rewrite Hs].
  world_simpl. destruct (storeKeys w !! "proofCache") as [k|]; cbn [fst snd]; world_simpl.
  - unfold encrypt. destruct (negb _); cbn [throw fst snd]; world_simpl.
    + rewrite Hs. repeat split. now exists st.
    + unfold bind, randomBytes, ret, store_put, modify. cbn [fst snd]. world_simpl.
      rewrite Hs. repeat split. eexists. split; [reflexivity|]. repeat split.
  - rewrite Hs. repeat split. now exists st.
Qed.

(** The in-memory entry [setCached] leaves, whatever happens to the
    persistent one. *)
Lemma setCached_memory (proofHash : string) (v : bool) (nf : string) (w : World) :
  let w1 := after (setCached proofHash v nf) w in
  JsMap.get proofHash (memoryCache w1) = Some (mkMem v nf (clock w (ticks w))) /\
  clock w1 = clock w /\ storeKeys w1 = storeKeys w /\ vkeyFile w1 = vkeyFile w /\
  match storesInstance w with
  | None => storesInstance w1 = None
  | Some st =>
      exists st', storesInstance w1 = Some st' /\ escrow st' = escrow st /\
                  nullifiers st' = nullifiers st /\ auditLog st' = auditLog st
  end.
Proof.
  cbn zeta. unfold after, setCached.
  rewrite (bind_inr _ _ _ _ _ (LRU_set_memory maxSize proofHash v nf w)).
  unfold try_catch.
  pose proof (cacheProofResult_frame proofHash v nf
                (set_memoryCache
                   (JsMap.set proofHash (mkMem v nf (clock w (ticks w)))
                      (if maxSize <=? Z.of_nat (length (memoryCache w))
                       then tail (memoryCache w) else memoryCache w))
                   (set_ticks (S (ticks w)) w))) as H.
  cbn zeta in H. unfold after in H.
  destruct (cacheProofResult proofHash v nf _) as [[e|[]] w2]; unfold ret;
    cbn [fst snd] in *; world_simpl; destruct H as (Hm & Hc & Hk & Hv & Hst);
    rewrite Hm, Hc, Hk, Hv, JsMap_get_set; repeat split; exact Hst.
Qed.

(** X9: a verdict stored with [setCached] is served by the next
    [getCached] for the same hash when that lookup's clock reading is at
    most [ttlMs] after the one [setCached] took; this holds whether or not
    the stores are open. *)
Theorem cached_verdict_is_served_within_ttl (proofHash : string) (v : bool)
    (nf : string) (w : World) :
  let w1 := after (setCached proofHash v nf) w in
  clock w1 (ticks w1) - clock w (ticks w) <= ttlMs ->
  outcome (getCached proofHash) w1 = inr (Some (mkCached v nf)).
Proof.
  intros w1 Httl.
  destruct (setCached_memory proofHash v nf w) as (Hm & Hc & _). fold w1 in Hm, Hc.
  unfold outcome, getCached.
  erewrite bind_inr; cycle 1.
  { rewrite LRU_get_run, Hm. cbn [timestamp].
    replace (ttlMs <? _) with false by (symmetry; apply Z.ltb_ge; lia).
    reflexivity. }
  reflexivity.
Qed.

End CacheLayers.

(** A verdict stored and looked up one millisecond later. *)
Lemma cached_verdict_is_served_within_ttl_witness :
  let w := Reference.world 1700000000000 in
  outcome (getCached (P := Reference.platform) "abc")
    (after (setCached (P := Reference.platform) "abc" true "12345") w)
  = inr (Some (mkCached true "12345")).
Proof.
  cbn zeta.
  apply (cached_verdict_is_served_within_ttl (P := Reference.platform) "abc" true "12345"
           (Reference.world 1700000000000)).
  vm_compute. discriminate.
Defined.

Section CacheLayers2.

Context {P : Platform} {L : PlatformLaws P}.

Lemma as_proofCache_json (e : ProofCacheEntry) : as_proofCache (proofCache_json e) = Some e.
Proof. destruct e; reflexivity. Qed.

Lemma cacheProofResult_ok (proofHash : string) (v : bool) (nf : string) (w : World)
    (st : ZeroIdStores) (k : list byte) :
  storesInstance w = Some st ->
  storeKeys w !! "proofCache" = Some k -> length k = 32%nat ->
  cacheProofResult proofHash v nf w
  = (inr tt,
     set_stores
       (Some (kv_write ProofCacheKV proofHash
                (kv_record (sealed k (next_bytes 12 w)
                              (json_stringify
                                 (proofCache_json (mkProofCache v (clock w (ticks w)) nf)))))
                st))
       (set_drawn (drawn w + 12) (set_ticks (S (ticks w)) w))).
Proof.
  intros Hs Hk Hl. unfold cacheProofResult.
  rewrite (bind_inr _ _ w w st) by (unfold getStores; now rewrite Hs).
  unfold Date_now at 1. unfold bind at 1. world_simpl.
  erewrite encryptedKVPut_ok; [|world_simpl; eassumption|assumption].
  world_simpl. now rewrite Hs.
Qed.

(** X10: the persistent layer has no TTL.  With the stores open and the
    [proofCache] key derived, a verdict stored with [setCached] is served
    by the next [getCached] whatever the clock then reads; when the
    in-memory entry is older than [ttlMs] it is dropped, the verdict is
    read from the store and put back in memory with a new timestamp. *)
Theorem persistent_cache_serves_verdicts_of_any_age (proofHash : string) (v : bool)
    (nf : string) (w : World) (st : ZeroIdStores) (k : list byte) :
  storesInstance w = Some st ->
  storeKeys w !! "proofCache" = Some k -> length k = 32%nat ->
  time_value (clock w (S (ticks w))) ->
  let w1 := after (setCached proofHash v nf) w in
  outcome (getCached proofHash) w1 = inr (Some (mkCached v nf)) /\
  (ttlMs < clock w1 (ticks w1) - clock w (ticks w) ->
   JsMap.get proofHash (memoryCache (after (getCached proofHash) w1))
   = Some (mkMem v nf (clock w1 (S (ticks w1))))).
Proof.
  intros Hs Hk Hl Ht w1.
  assert (Hset : setCached proofHash v nf w
                 = (inr tt,
                    set_stores
                      (Some (kv_write ProofCacheKV proofHash
                               (kv_record
                                  (sealed k (next_bytes 12 w)
                                     (json_stringify
                                        (proofCache_json
                                           (mkProofCache v (clock w (S (ticks w))) nf)))))
                               st))
                      (set_drawn (drawn w + 12)
                         (set_ticks (S (S (ticks w)))
                            (set_memoryCache
                               (JsMap.set proofHash (mkMem v nf (clock w (ticks w)))
                                  (if maxSize <=? Z.of_nat (length (memoryCache w))
                                   then tail (memoryCache w) else memoryCache w))
                               w))))).
  { unfold setCached.
    rewrite (bind_inr _ _ _ _ _ (LRU_set_memory maxSize proofHash v nf w)).
    unfold try_catch.
    erewrite cacheProofResult_ok; [|world_simpl; eassumption..|assumption].
    reflexivity. }
  assert (Hw1 : w1 = (setCached proofHash v nf w).2) by reflexivity.
  rewrite Hset in Hw1. cbn [snd] in Hw1.
  assert (Hm1 : JsMap.get proofHash (memoryCache w1)
                = Some (mkMem v nf (clock w (ticks w))))
    by (rewrite Hw1; world_simpl; apply JsMap_get_set).
  assert (Hc1 : clock w1 = clock w) by (now rewrite Hw1).
  assert (Hs1 : storesInstance w1
                = Some (kv_write ProofCacheKV proofHash
                          (kv_record
                             (sealed k (next_bytes 12 w)
                                (json_stringify
                                   (proofCache_json
                                      (mkProofCache v (clock w (S (ticks w))) nf)))))
                          st)) by (now rewrite Hw1).
  assert (Hk1 : storeKeys w1 = storeKeys w) by (now rewrite Hw1).
  clearbody w1. clear Hw1 Hset.
  destruct (Z.ltb_spec ttlMs (clock w1 (ticks w1) - clock w (ticks w))) as [Hold|Hfresh].
  - set (w2 := set_memoryCache (JsMap.delete proofHash (memoryCache w1))
                 (set_ticks (S (ticks w1)) w1)).
    assert (Hget : LRUMemoryCache.get ttlMs proofHash w1 = (inr None, w2)).
    { rewrite LRU_get_run, Hm1. cbn [timestamp].
      replace (ttlMs <? _) with true; [reflexivity|].
      symmetry. apply Z.ltb_lt. exact Hold. }
    assert (Hread : getCachedProofResult proofHash w2
                    = (inr (Some (mkProofCache v (clock w (S (ticks w))) nf)), w2)).
    { unfold getCachedProofResult.
      erewrite bind_inr; cycle 1.
      { unfold getStores. subst w2. world_simpl. rewrite Hs1. reflexivity. }
      cbn [kv_write proofCache]. rewrite lookup_insert_eq.
      erewrite bind_inr; cycle 1.
      { apply decryptKVGet_sealed; [|exact Hl|].
        - subst w2. world_simpl. rewrite Hk1. exact Hk.
        - cbn. rewrite (time_value_safe _ Ht). reflexivity. }
      cbn [truthy proofCache_json negb]. rewrite as_proofCache_json. reflexivity. }
    unfold outcome, after, getCached.
    rewrite (bind_inr _ _ _ _ _ Hget). unfold try_catch.
    rewrite (bind_inr _ _ _ _ _ Hread). cbn [pc_valid pc_nullifier].
    rewrite (bind_inr _ _ _ _ _ (LRU_set_memory maxSize proofHash v nf _)).
    cbn [ret fst snd]. split; [reflexivity|]. intros _. world_simpl.
    rewrite JsMap_get_set. subst w2. world_simpl. now rewrite Hc1.
  - split; [|lia].
    unfold outcome, getCached.
    erewrite bind_inr; cycle 1.
    { rewrite LRU_get_run, Hm1. cbn [timestamp].
      replace (ttlMs <? _) with false by (symmetry; apply Z.ltb_ge; lia).
      reflexivity. }
    reflexivity.
Qed.

End CacheLayers2.

(** A verdict stored at time 0 and looked up two hours later. *)
Lemma persistent_cache_serves_verdicts_of_any_age_witness :
  let w := Reference.world_at (fun n => if (n <? 2)%nat then 0 else 7200000) in
  let w1 := after (setCached (P := Reference.platform) "abc" true "12345") w in
  outcome (getCached (P := Reference.platform) "abc") w1
    = inr (Some (mkCached true "12345")) /\
  JsMap.get "abc" (memoryCache (after (getCached (P := Reference.platform) "abc") w1))
    = Some (mkMem true "12345" 7200000).
Proof.
  cbn zeta.
  destruct (persistent_cache_serves_verdicts_of_any_age (L := ReferenceFacts.laws)
              "abc" true "12345"
              (Reference.world_at (fun n => if (n <? 2)%nat then 0 else 7200000))
              (mkStores ∅ ∅ ∅ []) (Reference.key32 x04)) as [Ho Hm].
  - reflexivity.
  - reflexivity.
  - reflexivity.
  - unfold time_value. vm_compute. split; discriminate.
  - split; [exact Ho|]. apply Hm. vm_compute. reflexivity.
Defined.

(** ** More on the proof verification route *)

Section VerifyRouteMore.

Context {P : Platform}.



End VerifyRouteMore.



(** ** More on credential issuance *)

Section IssuanceMore.

Context {P : Platform}.

Lemma getIssuerKeyPair_caches (w : World) :
  exists kp w1,
    getIssuerKeyPair w = (inr kp, w1) /\ issuerKeyPair w1 = Some kp /\
    clock w1 = clock w /\ ticks w1 = ticks w.
Proof.
  rewrite getIssuerKeyPair_cases.
  destruct (issuerKeyPair w) eqn:Hc; [eexists _, _; repeat split; exact Hc|].
  destruct (issuerFile w); [eexists _, _; repeat split|].
  destruct (envIssuerPrivateKey w) as [envKey|]; [destruct (String.eqb envKey "")|];
    eexists _, _; repeat split.
Qed.

(** The state [issueCredential] leaves, by what it read and drew. *)
Lemma issueCredential_after (w w1 : World) (kp : EdDSAKeyPair) (kyc : KycResult)
    (bound : option string) (lvl : option Z) :
  getIssuerKeyPair w = (inr kp, w1) ->
  issuerKeyPair (after (issueCredential kyc bound lvl) w) = issuerKeyPair w1.
Proof.
  intros Hkp. unfold after, issueCredential.
  rewrite (bind_inr _ _ _ _ _ Hkp).
  unfold bind, randomBytes, Date_now, randomUUID, ret, throw. cbn [fst snd]. world_simpl.
  destruct (Date_parse (dateOfBirth kyc)); reflexivity.
Qed.

(** X13: the issuer key pair is fixed by its first use.  A second call of
    [getIssuerKeyPair] returns the pair of the first and changes nothing,
    and two credentials issued one after the other carry the same issuer
    public key. *)
Theorem issuer_key_pair_is_fixed_after_first_use (w : World) (kyc1 kyc2 : KycResult)
    (b1 b2 : option string) (l1 l2 : option Z) (c1 c2 : SignedCredential) :
  outcome (issueCredential kyc1 b1 l1) w = inr c1 ->
  outcome (issueCredential kyc2 b2 l2) (after (issueCredential kyc1 b1 l1) w) = inr c2 ->
  issuerPubKey c2 = issuerPubKey c1 /\
  getIssuerKeyPair (after getIssuerKeyPair w)
    = (outcome getIssuerKeyPair w, after getIssuerKeyPair w).
Proof.
  intros H1 H2.
  destruct (getIssuerKeyPair_caches w) as (kp & w1 & Hkp & Hc & _).
  split.
  - pose proof (issueCredential_after w w1 kp kyc1 b1 l1 Hkp) as Hafter.
    rewrite Hc in Hafter.
    assert (Hkp2 : getIssuerKeyPair (after (issueCredential kyc1 b1 l1) w)
                   = (inr kp, after (issueCredential kyc1 b1 l1) w)).
    { rewrite getIssuerKeyPair_cases, Hafter. reflexivity. }
    assert (Hpk : forall w0 w0' kyc b l c,
               getIssuerKeyPair w0 = (inr kp, w0') ->
               outcome (issueCredential kyc b l) w0 = inr c ->
               issuerPubKey c = (show (publicKey kp).1, show (publicKey kp).2)).
    { intros w0 w0' kyc b l c Hg Ho.
      unfold outcome, issueCredential in Ho. rewrite (bind_inr _ _ _ _ _ Hg) in Ho.
      unfold bind, randomBytes, Date_now, randomUUID, ret, throw in Ho.
      cbn [fst snd] in Ho. destruct (Date_parse (dateOfBirth kyc)); [|discriminate].
      cbn [fst snd] in Ho. apply inr_eq in Ho. subst c. reflexivity. }
    rewrite (Hpk _ _ _ _ _ _ Hkp H1), (Hpk _ _ _ _ _ _ Hkp2 H2). reflexivity.
  - unfold outcome, after. rewrite Hkp. cbn [fst snd].
    rewrite getIssuerKeyPair_cases, Hc. reflexivity.
Qed.

(** X14: every credential [issueCredential] returns expires exactly 365
    days after [issuedAt], which is the second clock reading of the call;
    it carries the bound address it was given; its level is the requested
    one, or else 3 when age and country code are both non-zero, 1 when only
    the age is, and 0 when the age is 0; and its user secret is a number
    below [2 ^ 248], hence below the field order, so the hash is taken of
    the secret itself. *)
Theorem issued_credential_fields (w : World) (kyc : KycResult) (bound : option string)
    (lvl : option Z) (c : SignedCredential) :
  outcome (issueCredential kyc bound lvl) w = inr c ->
  issuedAt c = clock w (S (ticks w)) /\
  cred_expiresAt c = issuedAt c + 31536000000 /\
  boundAddress c = bound /\
  (exists dobTime,
      Date_parse (dateOfBirth kyc) = Some dobTime /\
      let age := computeAge dobTime (clock w (ticks w)) in
      level c = match lvl with
                | Some l => l
                | None =>
                    if age =? 0 then 0
                    else if countryCode kyc =? 0 then 1 else 3
                end) /\
  (exists secret,
      userSecret c = show secret /\ 0 <= secret < 2 ^ 248 /\ F_e secret = secret).
Proof.
  intros Ho.
  destruct (getIssuerKeyPair_caches w) as (kp & w1 & Hkp & _ & Hc & Ht).
  unfold outcome, issueCredential in Ho. rewrite (bind_inr _ _ _ _ _ Hkp) in Ho.
  unfold bind, randomBytes, Date_now, randomUUID, ret, throw in Ho.
  cbn [fst snd] in Ho. world_simpl.
  destruct (Date_parse (dateOfBirth kyc)) as [dobTime|] eqn:Hd; [|discriminate].
  cbn [fst snd] in Ho. world_simpl. apply inr_eq in Ho. subst c.
  cbn [issuedAt cred_expiresAt boundAddress level userSecret]. rewrite Hc, Ht.
  split; [reflexivity|]. split; [reflexivity|]. split; [reflexivity|]. split.
  - exists dobTime. split; [reflexivity|]. cbn zeta. unfold resolveLevel.
    destruct lvl; [reflexivity|].
    destruct (computeAge _ _ =? 0); [now rewrite andb_false_r|].
    destruct (countryCode kyc =? 0); reflexivity.
  - eexists. split; [reflexivity|].
    pose proof (be_value_bounds (map (entropy w1) (seq (drawn w1) 31))) as Hb.
    rewrite length_map, length_seq in Hb. change (256 ^ Z.of_nat 31) with (2 ^ 248) in Hb.
    split; [exact Hb|]. unfold F_e. apply Z.mod_small.
    assert (2 ^ 248 < BN254_r) by reflexivity. lia.
Qed.

(** X15: [issueCredential] throws when the date of birth does not parse,
    and issues nothing; by then it has fetched the issuer key pair, which
    stays cached. *)
Theorem issueCredential_rejects_unparseable_date (w : World) (kyc : KycResult)
    (bound : option string) (lvl : option Z) :
  Date_parse (dateOfBirth kyc) = None ->
  (exists e, outcome (issueCredential kyc bound lvl) w = inl e) /\
  exists kp, issuerKeyPair (after (issueCredential kyc bound lvl) w) = Some kp.
Proof.
  intros Hd.
  destruct (getIssuerKeyPair_caches w) as (kp & w1 & Hkp & Hc & _).
  split.
  - unfold outcome, issueCredential. rewrite (bind_inr _ _ _ _ _ Hkp).
    unfold bind, randomBytes, Date_now, ret, throw. cbn [fst snd]. rewrite Hd.
    eexists. reflexivity.
  - exists kp. now rewrite (issueCredential_after w w1 kp kyc bound lvl Hkp).
Qed.

End IssuanceMore.

Section SignaturesMore.

Context {P : Platform} {L : PlatformLaws P}.

(** X16: a key pair made by [generateKeyPair] has a private key of 64
    hexadecimal characters; what [sign] makes with it of any message,
    [verify] accepts under the pair's public key; and [sign] reads the
    message modulo the field order, so two messages that differ by a
    multiple of it get the same signature. *)
Theorem generated_key_pair_signs_and_verifies (w : World) (msg : Z) :
  exists kp,
    generateKeyPair w = (inr kp, set_drawn (drawn w + 32) w) /\
    String.length (privateKey kp) = 64%nat /\
    verify (publicKey kp) msg (sign (privateKey kp) msg) = true /\
    forall k, sign (privateKey kp) (msg + k * BN254_r) = sign (privateKey kp) msg.
Proof.
  eexists. split; [reflexivity|]. cbn [privateKey publicKey].
  split; [now rewrite hex_encode_length, length_map, length_seq|].
  split.
  - apply (sign_verifies_consistent_pair
             (mkKeyPair (Hex.encode (map (entropy w) (seq (drawn w) 32)))
                (prv2pub (map (entropy w) (seq (drawn w) 32))))).
    cbn [privateKey publicKey]. now rewrite hex_decode_encode.
  - intros k. unfold sign, F_e. rewrite Z.mod_add by (unfold BN254_r; lia). reflexivity.
Qed.

End SignaturesMore.

(** A key pair generated on the reference platform. *)
Lemma generated_key_pair_signs_and_verifies_witness :
  exists kp,
    generateKeyPair (P := Reference.platform) (Reference.world 0)
      = (inr kp, set_drawn (drawn (Reference.world 0) + 32) (Reference.world 0)) /\
    String.length (privateKey kp) = 64%nat /\
    verify (P := Reference.platform) (publicKey kp) 42
      (sign (P := Reference.platform) (privateKey kp) 42) = true /\
    forall k, sign (P := Reference.platform) (privateKey kp) (42 + k * BN254_r)
              = sign (P := Reference.platform) (privateKey kp) 42.
Proof.
  exact (generated_key_pair_signs_and_verifies (L := ReferenceFacts.laws)
           (Reference.world 0) 42).
Defined.

(** Two credentials issued in a row on the reference platform. *)
Lemma issuer_key_pair_is_fixed_after_first_use_witness :
  let w := Reference.world (Reference.days_from_civil 2026 11 3 * Reference.msPerDay) in
  let first := issueCredential (P := Reference.platform) (mkKyc true "1990-01-15" 840)
                 None None in
  let second := issueCredential (P := Reference.platform) (mkKyc true "1985-06-30" 250)
                  None None in
  exists c1 c2,
    outcome first w = inr c1 /\ outcome second (after first w) = inr c2 /\
    issuerPubKey c2 = issuerPubKey c1.
Proof.
  cbn zeta.
  assert (H1 : exists c1,
             outcome (issueCredential (P := Reference.platform)
                        (mkKyc true "1990-01-15" 840) None None)
               (Reference.world (Reference.days_from_civil 2026 11 3 * Reference.msPerDay))
             = inr c1) by (eexists; vm_compute; reflexivity).
  assert (H2 : exists c2,
             outcome (issueCredential (P := Reference.platform)
                        (mkKyc true "1985-06-30" 250) None None)
               (after (issueCredential (P := Reference.platform)
                         (mkKyc true "1990-01-15" 840) None None)
                  (Reference.world
                     (Reference.days_from_civil 2026 11 3 * Reference.msPerDay)))
             = inr c2) by (eexists; vm_compute; reflexivity).
  destruct H1 as [c1 H1]. destruct H2 as [c2 H2].
  exists c1, c2. split; [exact H1|]. split; [exact H2|].
  exact (proj1 (issuer_key_pair_is_fixed_after_first_use (P := Reference.platform)
                  _ _ _ None None None None c1 c2 H1 H2)).
Defined.

(** A credential issued on the reference platform. *)
Lemma issued_credential_fields_witness :
  let w := Reference.world (Reference.days_from_civil 2026 11 3 * Reference.msPerDay) in
  exists c,
    outcome (issueCredential (P := Reference.platform) (mkKyc true "1990-01-15" 840)
               (Some "0xabc") None) w = inr c /\
    cred_expiresAt c = issuedAt c + 31536000000 /\ boundAddress c = Some "0xabc".
Proof.
  cbn zeta.
  assert (H : exists c,
             outcome (issueCredential (P := Reference.platform)
                        (mkKyc true "1990-01-15" 840) (Some "0xabc") None)
               (Reference.world (Reference.days_from_civil 2026 11 3 * Reference.msPerDay))
             = inr c) by (eexists; vm_compute; reflexivity).
  destruct H as [c H]. exists c. split; [exact H|].
  destruct (issued_credential_fields (P := Reference.platform) _ _ _ _ c H)
    as (_ & He & Hb & _).
  split; [exact He|exact Hb].
Defined.

(** A date of birth with month 13 on the reference platform. *)
Lemma issueCredential_rejects_unparseable_date_witness :
  exists e,
    outcome (issueCredential (P := Reference.platform) (mkKyc true "1990-13-45" 840)
               None None) (Reference.world 1700000000000) = inl e.
Proof.
  refine (proj1 (issueCredential_rejects_unparseable_date (P := Reference.platform)
                   (Reference.world 1700000000000) (mkKyc true "1990-13-45" 840)
                   None None _)).
  vm_compute. reflexivity.
Defined.

(** ** The time prefix of the identifiers *)

Lemma crockford_value_enc_char (n : Z) :
  0 <= n < 32 -> crockford_value (enc_char n) = n.
Proof.
  intros H. destruct (small_index n H) as (k & Hk & ->).
  do 32 (destruct k as [|k]; [reflexivity|]). lia.
Qed.

Lemma base32_value_app (a b : string) (acc : Z) :
  base32_value (a +:+ b) acc = base32_value b (base32_value a acc).
Proof.
  revert acc. induction a as [|c a IH]; intros acc; [reflexivity|].
  rewrite append_cons. cbn [base32_value]. apply IH.
Qed.

Lemma encodeTime_value (count : nat) :
  forall now ts, 0 <= now ->
    exists pre, encodeTime count now ts = pre +:+ ts /\
                String.length pre = count /\
                forall acc, base32_value pre acc
                            = acc * 32 ^ Z.of_nat count + now mod 32 ^ Z.of_nat count.
Proof.
  induction count as [|n IH]; intros now ts Hnow.
  - exists EmptyString. split; [reflexivity|]. split; [reflexivity|].
    intros acc. cbn. rewrite Z.mod_1_r. lia.
  - cbn [encodeTime].
    destruct (ENCODING_at_char _ (rem_32_small now Hnow)) as [Hc _].
    destruct (IH (now / 32) (ENCODING_at (Z.rem now 32) +:+ ts)) as (pre & He & Hl & Hv).
    { apply Z.div_pos; lia. }
    exists (pre +:+ String (enc_char (Z.rem now 32)) EmptyString).
    rewrite He, Hc. split; [now rewrite append_assoc|].
    split; [rewrite length_app_string; cbn; lia|].
    intros acc. rewrite base32_value_app, Hv. cbn [base32_value].
    rewrite (crockford_value_enc_char _ (rem_32_small now Hnow)).
    rewrite Z.rem_mod_nonneg by lia.
    rewrite Nat2Z.inj_succ, Z.pow_succ_r by lia.
    assert (Hp : 0 < 32 ^ Z.of_nat n) by (apply Z.pow_pos_nonneg; lia).
    rewrite (Z.rem_mul_r now 32 (32 ^ Z.of_nat n)) by lia. ring.
Qed.

Lemma substring_append_prefix (a b : string) :
  substring 0 (String.length a) (a +:+ b) = a.
Proof.
  induction a as [|c a IH]; [now destruct b|].
  rewrite append_cons. cbn. now rewrite IH.
Qed.

(** X17: the first ten characters of an identifier are the clock reading
    of the call written in base 32, most significant digit first, so they
    are determined by the millisecond and, for clock readings from 0 up to
    [32 ^ 10], determine it: identifiers made in different milliseconds
    differ in their first ten characters.  A reading [32 ^ 10] later gives
    the same ten characters. *)
Theorem ulid_time_prefix_determines_the_millisecond (w1 w2 : World) (id1 id2 : string) :
  0 <= clock w1 (ticks w1) -> 0 <= clock w2 (ticks w2) ->
  outcome generateULID w1 = inr id1 -> outcome generateULID w2 = inr id2 ->
  base32_value (substring 0 10 id1) 0 = clock w1 (ticks w1) mod 32 ^ 10 /\
  (clock w1 (ticks w1) < 32 ^ 10 -> clock w2 (ticks w2) < 32 ^ 10 ->
   substring 0 10 id1 = substring 0 10 id2 -> clock w1 (ticks w1) = clock w2 (ticks w2)) /\
  (clock w2 (ticks w2) = clock w1 (ticks w1) + 32 ^ 10 ->
   substring 0 10 id2 = substring 0 10 id1).
Proof.
  intros H1 H2 Ho1 Ho2.
  assert (Hid : forall w id, 0 <= clock w (ticks w) -> outcome generateULID w = inr id ->
            exists pre, encodeTime 10 (clock w (ticks w)) "" = pre /\
                        substring 0 10 id = pre /\
                        base32_value pre 0 = clock w (ticks w) mod 32 ^ 10).
  { intros w id Hw Ho.
    destruct (encodeTime_value 10 (clock w (ticks w)) "" Hw) as (pre & He & Hl & Hv).
    rewrite append_nil_r in He. exists pre. split; [exact He|].
    split; [|now rewrite Hv].
    unfold outcome, generateULID, randomInt, bind, Date_now, gets, modify, randomBytes, ret
      in Ho.
    cbn [ticks clock lastTime lastRandom entropy drawn set_ticks set_ulid set_drawn fst snd]
      in Ho.
    destruct (clock w (ticks w) =? lastTime w);
      cbn [ticks clock lastTime lastRandom entropy drawn set_ticks set_ulid set_drawn fst snd]
        in Ho;
      rewrite He in Ho; apply inr_eq in Ho; subst id;
      rewrite <- Hl at 1; apply substring_append_prefix. }
  destruct (Hid w1 id1 H1 Ho1) as (p1 & He1 & Hs1 & Hv1).
  destruct (Hid w2 id2 H2 Ho2) as (p2 & He2 & Hs2 & Hv2).
  split; [now rewrite Hs1|]. split.
  - intros Hlt1 Hlt2 Heq. rewrite Hs1, Hs2 in Heq. rewrite Heq, Hv2 in Hv1.
    rewrite !Z.mod_small in Hv1 by lia. now symmetry.
  - intros Hlater. rewrite Hs1, Hs2, <- He1, <- He2, Hlater.
    revert H1. clear. generalize (clock w1 (ticks w1)). intros t Ht.
    assert (Hgen : forall count now ts, 0 <= now ->
               encodeTime count (now + 32 ^ Z.of_nat count) ts = encodeTime count now ts).
    { induction count as [|n IH]; intros now ts Hnow; [reflexivity|].
      cbn [encodeTime]. rewrite Nat2Z.inj_succ, Z.pow_succ_r by lia.
      assert (Hp : 0 < 32 ^ Z.of_nat n) by (apply Z.pow_pos_nonneg; lia).
      replace (now + 32 * 32 ^ Z.of_nat n) with (now + 32 ^ Z.of_nat n * 32) by lia.
      rewrite Z.div_add by lia. rewrite Z.rem_add by nia.
      apply IH. apply Z.div_pos; lia. }
    apply (Hgen 10%nat t "" Ht).
Qed.

(** Two identifiers made one millisecond apart. *)
Lemma ulid_time_prefix_determines_the_millisecond_witness :
  exists id1 id2,
    outcome generateULID (Reference.world 1700000000000) = inr id1 /\
    outcome generateULID (Reference.world 1700000000001) = inr id2 /\
    base32_value (substring 0 10 id1) 0 = 1700000000000 mod 32 ^ 10.
Proof.
  assert (H1 : exists id1, outcome generateULID (Reference.world 1700000000000) = inr id1)
    by (eexists; vm_compute; reflexivity).
  assert (H2 : exists id2, outcome generateULID (Reference.world 1700000000001) = inr id2)
    by (eexists; vm_compute; reflexivity).
  destruct H1 as [id1 H1]. destruct H2 as [id2 H2].
  exists id1, id2. split; [exact H1|]. split; [exact H2|].
  refine (proj1 (ulid_time_prefix_determines_the_millisecond
                   (Reference.world 1700000000000) (Reference.world 1700000000001)
                   id1 id2 _ _ H1 H2)); vm_compute; discriminate.
Defined.

(** ** AES-256-GCM: round trip and key length *)

Section AesMore.

Context {P : Platform} {L : PlatformLaws P}.


End AesMore.


Section KeyLength.

Context {P : Platform}.

(** X19: with a key that is not 32 bytes long, [encrypt] and [decrypt]
    throw the key-length error and leave the state as it is: no IV is
    drawn.  [putEscrowEntry] given such a regulator key throws that error
    before it reads the clock or writes anything: no escrow record and no
    audit entry. *)
Theorem bad_key_length_is_rejected_before_any_effect (w : World) (st : ZeroIdStores)
    (key : Key) (regulatorKey : string) (plaintext : string) (payload : EncryptedPayload)
    (escrowId : string) (rawPII : JValue) (regulatorKeyId credentialId jurisdiction : string) :
  length (keyBuf key) <> 32%nat ->
  length (Hex.decode regulatorKey) <> 32%nat ->
  storesInstance w = Some st ->
  encrypt plaintext key w = (inl (key_length_error key), w) /\
  decrypt payload key w = (inl (key_length_error key), w) /\
  putEscrowEntry escrowId rawPII regulatorKey regulatorKeyId credentialId jurisdiction w
    = (inl (key_length_error (KeyHex regulatorKey)), w).
Proof.
  intros Hk Hr Hs.
  assert (He : forall k pt, length (keyBuf k) <> 32%nat ->
                            encrypt pt k w = (inl (key_length_error k), w)).
  { intros k pt Hne. unfold encrypt. apply Nat.eqb_neq in Hne.
    unfold KEY_LENGTH. now rewrite Hne. }
  split; [now apply He|]. split.
  - unfold decrypt. apply Nat.eqb_neq in Hk. unfold KEY_LENGTH. now rewrite Hk.
  - unfold putEscrowEntry.
    rewrite (bind_inr _ _ w w st) by (unfold getStores; now rewrite Hs).
    now rewrite (bind_inl _ _ _ _ _ (He (KeyHex regulatorKey) _ Hr)).
Qed.

(** X20: for an id that is not in the escrow store, [getEscrowEntry]
    throws the not-found error and [rotateEscrowEntry] answers
    [Entry not found]; neither changes the state, so no audit entry is
    written for the attempt.  [escrowExists] answers [false], having drawn
    its 32 random bytes and nothing else. *)
Theorem missing_escrow_entry_leaves_no_trace (w : World) (st : ZeroIdStores)
    (escrowId regulatorKey actorId : string) (forceErasure : bool) :
  storesInstance w = Some st ->
  escrow st !! escrowId = None ->
  getEscrowEntry escrowId regulatorKey actorId w = (inl (not_found escrowId), w) /\
  rotateEscrowEntry escrowId actorId forceErasure w
    = (inr (mkRotate false "Entry not found"), w) /\
  escrowExists escrowId w = (inr false, set_drawn (drawn w + 32) w).
Proof.
  intros Hs Hnone.
  assert (Hget : forall key actor w', storesInstance w' = Some st ->
            getEscrowEntry escrowId key actor w' = (inl (not_found escrowId), w')).
  { intros key actor w' Hs'. unfold getEscrowEntry.
    rewrite (bind_inr _ _ w' w' st) by (unfold getStores; now rewrite Hs').
    rewrite Hnone. reflexivity. }
  split; [now apply Hget|]. split.
  - unfold rotateEscrowEntry.
    rewrite (bind_inr _ _ w w st) by (unfold getStores; now rewrite Hs).
    rewrite Hnone. reflexivity.
  - unfold escrowExists, try_catch. unfold bind at 1. unfold randomBytes at 1.
    rewrite (bind_inl _ _ _ _ _ (Hget _ "existence_check" (set_drawn (drawn w + 32) w) Hs)).
    cbn [message not_found].
    replace (includes "not found" ("Escrow entry not found: " +:+ escrowId)) with true
      by reflexivity.
    reflexivity.
Qed.

End KeyLength.

(** A key of 31 bytes, and a regulator key with a character that is not
    hexadecimal. *)
Lemma bad_key_length_is_rejected_before_any_effect_witness :
  let w := Reference.world 1700000000000 in
  let short := KeyBuf (repeat x07 31) in
  let regulatorKey := "zz" +:+ Hex.encode (Reference.key32 x07) in
  encrypt (P := Reference.platform) "secret" short w = (inl (key_length_error short), w) /\
  putEscrowEntry (P := Reference.platform) "E1" (JObj []) regulatorKey "default" "cred-1" "US" w
    = (inl (key_length_error (KeyHex regulatorKey)), w).
Proof.
  cbn zeta.
  destruct (bad_key_length_is_rejected_before_any_effect (P := Reference.platform)
              (Reference.world 1700000000000) (mkStores ∅ ∅ ∅ [])
              (KeyBuf (repeat x07 31)) ("zz" +:+ Hex.encode (Reference.key32 x07))
              "secret" (mkPayload "" "" "" "") "E1" (JObj []) "default" "cred-1" "US")
    as (He & _ & Hp).
  - vm_compute. discriminate.
  - vm_compute. discriminate.
  - reflexivity.
  - split; [exact He|exact Hp].
Defined.

(** An id that was never stored. *)
Lemma missing_escrow_entry_leaves_no_trace_witness :
  let w := Reference.world 1700000000000 in
  getEscrowEntry (P := Reference.platform) "E0" "00" "regulator" w
    = (inl (not_found "E0"), w) /\
  rotateEscrowEntry (P := Reference.platform) "E0" "regulator" false w
    = (inr (mkRotate false "Entry not found"), w) /\
  escrowExists (P := Reference.platform) "E0" w = (inr false, set_drawn (drawn w + 32) w).
Proof.
  cbn zeta.
  apply (missing_escrow_entry_leaves_no_trace (P := Reference.platform)
           (Reference.world 1700000000000) (mkStores ∅ ∅ ∅ [])); reflexivity.
Defined.

(** ** Erasure requests and the purge *)

Section Erasure.

Context {P : Platform} {L : PlatformLaws P}.

Lemma readLogRecord_keys (r : LogRecord) (w w' : World) :
  storeKeys w = storeKeys w' ->
  outcome (readLogRecord r) w = outcome (readLogRecord r) w'.
Proof.
  intros Hk. unfold outcome, readLogRecord, bind, getStoreKey. rewrite <- Hk.
  destruct (storeKeys w !! "auditLog"); [|reflexivity].
  rewrite (decrypt_state _ _ w), (decrypt_state _ _ w').
  rewrite (decrypt_outcome _ _ w w').
  destruct (outcome _ _); [reflexivity|]. destruct (json_parse _); reflexivity.
Qed.

(** X21: an erasure request for an entry whose retention period is still
    running ([expiresAt] after the clock reading of the call) is not
    executed: the answer is [success: false] with the expiry date, the
    escrow record is left as it was, and the audit log gains one record,
    which reads back as the [deferred] entry for this id and requester. *)
Theorem erasure_request_is_deferred_while_retention_runs (w : World) (st : ZeroIdStores)
    (kE kA : list byte) (escrowId requesterId : string) (raw : KVRecord)
    (entry : EscrowEntry) (expires : Z) :
  storesInstance w = Some st ->
  escrow st !! escrowId = Some raw ->
  stored_entry w raw = Some entry ->
  storeKeys w !! "escrow" = Some kE -> length kE = 32%nat ->
  storeKeys w !! "auditLog" = Some kA -> length kA = 32%nat ->
  expiresAt entry = Some expires ->
  clock w (ticks w) < expires ->
  time_value (clock w (S (ticks w))) ->
  let request := requestErasure escrowId requesterId in
  outcome request w
    = inr (mkRotate false
             ("Retention period active until " +:+ toISOString expires
              +:+ ". Erasure request logged and will execute after expiry.")) /\
  (escrow <$> storesInstance (after request w)) = Some (escrow st) /\
  exists record,
    (auditLog <$> storesInstance (after request w)) = Some (auditLog st ++ [record])%list /\
    outcome (readLogRecord record) (after request w)
      = inr (audit_json (deferred_entry escrowId requesterId (clock w (S (ticks w)))
                           (toISOString expires))).
Proof.
  intros Hs Hraw Hst HkE HlE HkA HlA Hx Hlt Ht request.
  pose proof (rotateEscrowEntry_present w st kE kA escrowId requesterId false raw entry
                Hs Hraw Hst HkE HlE HkA HlA) as Hrun.
  cbn zeta in Hrun. rewrite Hx in Hrun.
  change (default 0 (Some expires)) with expires in Hrun. cbn [negb] in Hrun.
  replace (0 <? expires - clock w (ticks w)) with true in Hrun
    by (symmetry; apply Z.ltb_lt; lia).
  cbn [andb] in Hrun.
  subst request. unfold requestErasure, outcome, after. rewrite Hrun. cbn [fst snd].
  world_simpl.
  split; [reflexivity|]. split; [reflexivity|].
  eexists. split; [reflexivity|].
  erewrite readLogRecord_sealed; [reflexivity|exact HkA|exact HlA|].
  apply representable_audit; [|reflexivity]. apply time_value_safe. exact Ht.
Qed.

(** X22: an erasure request at or after [expiresAt] is executed, without
    being forced: an entry that [getEscrowEntry] would still serve at that
    very clock reading is crypto-shredded.  The record is replaced by one
    that reads back as invalidated, with the integrity hash
    [INVALIDATED] and the metadata of the entry kept; a later
    [getEscrowEntry] fails with the invalidated error; and the audit log
    gains the [completed] entry. *)
Theorem erasure_request_executes_from_expiry_on (w : World) (st : ZeroIdStores)
    (kE kA : list byte) (escrowId requesterId regulatorKey actorId : string)
    (raw : KVRecord) (entry : EscrowEntry) :
  storesInstance w = Some st ->
  escrow st !! escrowId = Some raw ->
  stored_entry w raw = Some entry ->
  representable (escrow_json entry) = true ->
  storeKeys w !! "escrow" = Some kE -> length kE = 32%nat ->
  storeKeys w !! "auditLog" = Some kA -> length kA = 32%nat ->
  default 0 (expiresAt entry) <= clock w (ticks w) ->
  time_value (clock w (S (ticks w))) ->
  let request := requestErasure escrowId requesterId in
  let w1 := after request w in
  outcome request w = inr (mkRotate true "Entry crypto-shredded and invalidated") /\
  (exists record shredded,
      escrowRecord w1 escrowId = Some record /\
      stored_entry w1 record = Some shredded /\
      invalidated shredded = true /\ integrityHash shredded = "INVALIDATED" /\
      regulatorKeyId shredded = regulatorKeyId entry /\
      credentialId shredded = credentialId entry /\
      createdAt shredded = createdAt entry /\ expiresAt shredded = expiresAt entry) /\
  outcome (getEscrowEntry escrowId regulatorKey actorId) w1 = inl (was_invalidated escrowId) /\
  exists logged,
    (auditLog <$> storesInstance w1) = Some (auditLog st ++ [logged])%list /\
    outcome (readLogRecord logged) w1
      = inr (audit_json (completed_entry escrowId requesterId (clock w (S (ticks w))))).
Proof.
  intros Hs Hraw Hst Hrep HkE HlE HkA HlA Hexp Ht request w1.
  pose proof (rotateEscrowEntry_present w st kE kA escrowId requesterId false raw entry
                Hs Hraw Hst HkE HlE HkA HlA) as Hrun.
  cbn zeta in Hrun.
  replace (0 <? default 0 (expiresAt entry) - clock w (ticks w)) with false in Hrun
    by (symmetry; apply Z.ltb_ge; lia).
  cbn [andb] in Hrun.
  assert (Hs1 : storesInstance w1 = (storesInstance (rotateEscrowEntry escrowId requesterId false w).2))
    by reflexivity.
  assert (Hk1 : storeKeys w1 = storeKeys w)
    by (subst w1 request; unfold after, requestErasure; now rewrite Hrun).
  rewrite Hrun in Hs1. cbn [snd] in Hs1. world_simpl.
  assert (Ho : outcome request w = inr (mkRotate true "Entry crypto-shredded and invalidated"))
    by (subst request; unfold requestErasure, outcome; now rewrite Hrun).
  clearbody w1. clear Hrun.
  set (record := kv_record
                   (sealed kE (next_bytes 12 (set_drawn (drawn w + 256 + 32 + 12) w))
                      (json_stringify (escrow_json (shredded_entry w entry))))) in *.
  assert (Hrec : escrowRecord w1 escrowId = Some record).
  { unfold escrowRecord. rewrite Hs1. cbn. apply lookup_insert_eq. }
  assert (Hread : decryptKVGet (Some record) "escrow" w1
                  = (inr (escrow_json (shredded_entry w entry)), w1)).
  { apply decryptKVGet_sealed; [now rewrite Hk1|exact HlE|].
    now apply representable_shredded. }
  split; [exact Ho|].
  split; [|split].
  - exists record, (shredded_entry w entry). split; [exact Hrec|].
    split; [unfold stored_entry, outcome; rewrite Hread; apply as_escrow_json|].
    repeat split.
  - unfold outcome.
    rewrite (getEscrowEntry_stored w1 _ kA escrowId regulatorKey actorId record
               (shredded_entry w entry) Hs1);
      [reflexivity|cbn; apply lookup_insert_eq|exact Hread|now rewrite Hk1|exact HlA].
  - eexists. split; [rewrite Hs1; reflexivity|].
    unfold outcome. erewrite readLogRecord_sealed; [reflexivity| |exact HlA|].
    + now rewrite Hk1.
    + apply representable_audit; [|reflexivity]. apply time_value_safe. exact Ht.
Qed.


End Erasure.

Lemma escrowRecord_fmap (w : World) (escrowId : string) :
  escrowRecord w escrowId = (escrow <$> storesInstance w) ≫= fun m => m !! escrowId.
Proof. unfold escrowRecord. now destruct (storesInstance w). Qed.

(** An erasure request one millisecond after the entry was stored. *)
Lemma erasure_request_is_deferred_while_retention_runs_witness :
  let pii := JObj [("fullName", JStr "Alice Ng"); ("countryCode", JNum 840)] in
  let key := Hex.encode (Reference.key32 x07) in
  let w0 := Reference.world 1700000000000 in
  let w := after (putEscrowEntry (P := Reference.platform) "E1" pii key "default" "cred-1" "US")
             w0 in
  let request := requestErasure (P := Reference.platform) "E1" "user-7" in
  (exists r, outcome request w = inr r /\ success r = false) /\
  escrowRecord (after request w) "E1" = escrowRecord w "E1".
Proof.
  cbn zeta.
  set (w0 := Reference.world 1700000000000).
  set (pii := JObj [("fullName", JStr "Alice Ng"); ("countryCode", JNum 840)]).
  set (key := Hex.encode (Reference.key32 x07)).
  set (w := after (putEscrowEntry (P := Reference.platform) "E1" pii key "default" "cred-1" "US") w0).
  let v := eval vm_compute in (storesInstance w) in
  match v with
  | Some ?s =>
      let r := eval vm_compute in (escrow s !! "E1") in
      match r with
      | Some ?x =>
          pose proof (erasure_request_is_deferred_while_retention_runs
                        (L := ReferenceFacts.laws)
                        w s (Reference.key32 x01) (Reference.key32 x02) "E1" "user-7" x
                        (escrow_entry_of (P := Reference.platform) w0 pii key "default"
                           "cred-1" "US") (1700000000001 + 157788000000)) as H;
          assert (Hx : escrowRecord w "E1" = Some x) by (vm_compute; reflexivity);
          assert (Hs : escrow s !! "E1" = Some x) by (vm_compute; reflexivity)
      end
  end.
  destruct H as (Ho & He & _).
  - vm_compute; reflexivity.
  - vm_compute; reflexivity.
  - vm_compute; reflexivity.
  - vm_compute; reflexivity.
  - vm_compute; reflexivity.
  - vm_compute; reflexivity.
  - vm_compute; reflexivity.
  - vm_compute; reflexivity.
  - vm_compute; reflexivity.
  - unfold time_value; vm_compute; split; discriminate.
  - split; [eexists; split; [exact Ho|reflexivity]|].
    rewrite escrowRecord_fmap, He, Hx. exact Hs.
Defined.

(** An erasure request at the very millisecond of expiry. *)
Lemma erasure_request_executes_from_expiry_on_witness :
  let pii := JObj [("fullName", JStr "Alice Ng"); ("countryCode", JNum 840)] in
  let key := Hex.encode (Reference.key32 x07) in
  let w0 := Reference.world_at
              (fun n => if (n <? 3)%nat then 1700000000000
                        else 1700000000000 + 157788000000) in
  let w := after (putEscrowEntry (P := Reference.platform) "E1" pii key "default" "cred-1" "US")
             w0 in
  let request := requestErasure (P := Reference.platform) "E1" "user-7" in
  outcome request w = inr (mkRotate true "Entry crypto-shredded and invalidated") /\
  outcome (getEscrowEntry (P := Reference.platform) "E1" key "regulator") (after request w)
    = inl (was_invalidated "E1").
Proof.
  cbn zeta.
  set (w0 := Reference.world_at
               (fun n => if (n <? 3)%nat then 1700000000000
                         else 1700000000000 + 157788000000)).
  set (pii := JObj [("fullName", JStr "Alice Ng"); ("countryCode", JNum 840)]).
  set (key := Hex.encode (Reference.key32 x07)).
  set (w := after (putEscrowEntry (P := Reference.platform) "E1" pii key "default" "cred-1" "US") w0).
  let v := eval vm_compute in (storesInstance w) in
  match v with
  | Some ?s =>
      let r := eval vm_compute in (escrow s !! "E1") in
      match r with
      | Some ?x =>
          pose proof (erasure_request_executes_from_expiry_on
                        (L := ReferenceFacts.laws)
                        w s (Reference.key32 x01) (Reference.key32 x02) "E1" "user-7" key
                        "regulator" x
                        (escrow_entry_of (P := Reference.platform) w0 pii key "default"
                           "cred-1" "US")) as H
      end
  end.
  destruct H as (Ho & _ & Hg & _).
  - vm_compute; reflexivity.
  - vm_compute; reflexivity.
  - vm_compute; reflexivity.
  - vm_compute; reflexivity.
  - vm_compute; reflexivity.
  - vm_compute; reflexivity.
  - vm_compute; reflexivity.
  - vm_compute; reflexivity.
  - vm_compute; discriminate.
  - unfold time_value; vm_compute; split; discriminate.
  - split; [exact Ho|exact Hg].
Defined.


(** ** What [putEscrowEntry] and [registerNullifier] write *)

Section Writes.

Context {P : Platform} {L : PlatformLaws P}.

Lemma putEscrowEntry_run (w : World) (st : ZeroIdStores) (kE kA : list byte)
    (escrowId : string) (rawPII : JValue)
    (regulatorKey regulatorKeyId credentialId jurisdiction : string) :
  storesInstance w = Some st ->
  storeKeys w !! "escrow" = Some kE -> length kE = 32%nat ->
  storeKeys w !! "auditLog" = Some kA -> length kA = 32%nat ->
  length (Hex.decode regulatorKey) = 32%nat ->
  putEscrowEntry escrowId rawPII regulatorKey regulatorKeyId credentialId jurisdiction w
  = (inr tt,
     set_stores
       (Some (with_log
                (log_record
                   (sealed kA (next_bytes 12 (set_drawn (drawn w + 12 + 12) w))
                      (json_stringify
                         (audit_json
                            (create_entry escrowId (clock w (S (S (ticks w))))
                               regulatorKeyId jurisdiction credentialId)))))
                (kv_write EscrowKV escrowId
                   (kv_record
                      (sealed kE (next_bytes 12 (set_drawn (drawn w + 12) w))
                         (json_stringify
                            (escrow_json
                               (escrow_entry_of w rawPII regulatorKey regulatorKeyId
                                  credentialId jurisdiction)))))
                   st)))
       (set_drawn (drawn w + 12 + 12 + 12) (set_ticks (S (S (S (ticks w)))) w))).
Proof.
  intros Hs HkE HlE HkA HlA Hr.
  unfold putEscrowEntry.
  rewrite (bind_inr _ _ w w st) by (unfold getStores; now rewrite Hs).
  rewrite (bind_inr _ _ _ _ _ (encrypt_ok _ (KeyHex regulatorKey) w Hr)).
  unfold Date_now at 1. unfold bind at 1. world_simpl.
  unfold Date_now at 1. unfold bind at 1. world_simpl.
  erewrite bind_inr; cycle 1.
  { eapply encryptedKVPut_ok; world_simpl; eassumption. }
  world_simpl. rewrite Hs. cbn [fmap option_fmap option_map].
  unfold Date_now at 1. unfold bind at 1. world_simpl.
  erewrite appendAuditLog_ok; cycle 1.
  { world_simpl. reflexivity. }
  { world_simpl. eassumption. }
  { assumption. }
  reflexivity.
Qed.

(** X24: a successful [putEscrowEntry] writes one escrow record, under the
    given id, and adds one record to the audit log, which reads back as the
    [escrow_create] entry with the regulator key id, the jurisdiction and
    the credential id; every other escrow record, the nullifiers and the
    proof cache are left as they were. *)
Theorem putEscrowEntry_writes_one_record_and_one_audit_entry (w : World)
    (st : ZeroIdStores) (kE kA : list byte) (escrowId : string) (rawPII : JValue)
    (regulatorKey regulatorKeyId credentialId jurisdiction : string) :
  storesInstance w = Some st ->
  storeKeys w !! "escrow" = Some kE -> length kE = 32%nat ->
  storeKeys w !! "auditLog" = Some kA -> length kA = 32%nat ->
  length (Hex.decode regulatorKey) = 32%nat ->
  time_value (clock w (S (S (ticks w)))) ->
  let put := putEscrowEntry escrowId rawPII regulatorKey regulatorKeyId credentialId
               jurisdiction in
  exists st1 logged,
    outcome put w = inr tt /\
    storesInstance (after put w) = Some st1 /\
    is_Some (escrow st1 !! escrowId) /\
    (forall other, other <> escrowId -> escrow st1 !! other = escrow st !! other) /\
    nullifiers st1 = nullifiers st /\ proofCache st1 = proofCache st /\
    auditLog st1 = (auditLog st ++ [logged])%list /\
    outcome (readLogRecord logged) (after put w)
      = inr (audit_json (create_entry escrowId (clock w (S (S (ticks w))))
                           regulatorKeyId jurisdiction credentialId)).
Proof.
  intros Hs HkE HlE HkA HlA Hr Ht put.
  pose proof (putEscrowEntry_run w st kE kA escrowId rawPII regulatorKey regulatorKeyId
                credentialId jurisdiction Hs HkE HlE HkA HlA Hr) as Hrun.
  fold put in Hrun. unfold outcome, after. rewrite Hrun. cbn [fst snd]. world_simpl.
  eexists _, _. split; [reflexivity|]. split; [reflexivity|].
  cbn [with_log kv_write escrow nullifiers proofCache auditLog].
  split; [rewrite lookup_insert_eq; eauto|].
  split; [intros other Hne; now apply lookup_insert_ne|].
  split; [reflexivity|]. split; [reflexivity|]. split; [reflexivity|].
  erewrite readLogRecord_sealed; [reflexivity|exact HkA|exact HlA|].
  apply representable_audit; [|reflexivity]. apply time_value_safe. exact Ht.
Qed.

(** The retention period of every jurisdiction. *)
Lemma getRetentionMs_cases (jurisdiction : string) :
  getRetentionMs jurisdiction
  = if existsb (String.eqb jurisdiction) inherited_keys then None
    else Some 157788000000.
Proof.
  unfold getRetentionMs. cbn [table_lookup RETENTION_POLICIES].
  repeat match goal with
         | |- context [String.eqb jurisdiction ?s] =>
             destruct (String.eqb_spec jurisdiction s) as [->|]; [reflexivity|]
         end.
  destruct (existsb _ _); reflexivity.
Qed.

(** X25: the retention period is 157 788 000 000 ms (five years of 365.25
    days) for every jurisdiction string, listed or not, except the twelve
    property names every object inherits, for which it is not a number.
    An entry stored under such a jurisdiction gets no [expiresAt], and every
    later [getEscrowEntry] with the clock after the epoch refuses it as
    expired. *)
Theorem inherited_property_name_as_jurisdiction_expires_at_once (w w2 : World)
    (st st2 : ZeroIdStores) (kE kA kA2 : list byte) (escrowId actorId : string)
    (rawPII : JValue) (regulatorKey regulatorKeyId credentialId jurisdiction : string) :
  storesInstance w = Some st ->
  storeKeys w !! "escrow" = Some kE -> length kE = 32%nat ->
  storeKeys w !! "auditLog" = Some kA -> length kA = 32%nat ->
  length (Hex.decode regulatorKey) = 32%nat ->
  time_value (clock w (ticks w)) ->
  existsb (String.eqb jurisdiction) inherited_keys = true ->
  let put := putEscrowEntry escrowId rawPII regulatorKey regulatorKeyId credentialId
               jurisdiction in
  storesInstance w2 = Some st2 ->
  escrowRecord w2 escrowId = escrowRecord (after put w) escrowId ->
  storeKeys w2 !! "escrow" = Some kE ->
  storeKeys w2 !! "auditLog" = Some kA2 -> length kA2 = 32%nat ->
  0 < clock w2 (ticks w2) ->
  (forall j, getRetentionMs j
             = if existsb (String.eqb j) inherited_keys then None else Some 157788000000) /\
  outcome put w = inr tt /\
  (exists raw entry,
      escrowRecord w2 escrowId = Some raw /\ stored_entry w2 raw = Some entry /\
      expiresAt entry = None) /\
  outcome (getEscrowEntry escrowId regulatorKey actorId) w2 = inl (has_expired escrowId).
Proof.
  intros Hs HkE HlE HkA HlA Hr Ht Hj put Hs2 Hrec HkE2 HkA2 HlA2 Hnow.
  split; [exact getRetentionMs_cases|].
  pose proof (putEscrowEntry_run w st kE kA escrowId rawPII regulatorKey regulatorKeyId
                credentialId jurisdiction Hs HkE HlE HkA HlA Hr) as Hrun.
  fold put in Hrun.
  split; [unfold outcome; now rewrite Hrun|].
  unfold after in Hrec. rewrite Hrun in Hrec. cbn [snd] in Hrec.
  unfold escrowRecord in Hrec. rewrite Hs2 in Hrec. world_simpl.
  cbn [mbind option_bind with_log kv_write escrow] in Hrec.
  rewrite lookup_insert_eq in Hrec.
  set (entry := escrow_entry_of w rawPII regulatorKey regulatorKeyId credentialId
                  jurisdiction) in *.
  assert (Hx : expiresAt entry = None).
  { subst entry. cbn [expiresAt escrow_entry_of]. now rewrite getRetentionMs_cases, Hj. }
  assert (Hdec : decryptKVGet
                   (Some (kv_record
                            (sealed kE (next_bytes 12 (set_drawn (drawn w + 12) w))
                               (json_stringify (escrow_json entry))))) "escrow" w2
                 = (inr (escrow_json entry), w2)).
  { apply decryptKVGet_sealed; [exact HkE2|exact HlE|].
    apply representable_escrow_json; [|now rewrite Hx].
    apply time_value_safe. exact Ht. }
  split.
  - eexists _, entry. unfold escrowRecord. rewrite Hs2. cbn [mbind option_bind].
    split; [exact Hrec|]. split; [|exact Hx].
    unfold stored_entry, outcome. rewrite Hdec. apply as_escrow_json.
  - unfold outcome.
    rewrite (getEscrowEntry_stored w2 st2 kA2 escrowId regulatorKey actorId _ entry
               Hs2 Hrec Hdec HkA2 HlA2).
    replace (invalidated entry) with false by reflexivity.
    rewrite Hx. cbn [past]. apply Z.ltb_lt in Hnow. now rewrite Hnow.
Qed.

Lemma isNullifierUsed_frame (nullifier : string) (w w' : World) (st st' : ZeroIdStores) :
  storesInstance w = Some st -> storesInstance w' = Some st' ->
  nullifiers st' !! nullifier = nullifiers st !! nullifier ->
  storeKeys w' = storeKeys w ->
  outcome (isNullifierUsed nullifier) w' = outcome (isNullifierUsed nullifier) w.
Proof.
  intros Hs Hs' Hn Hk. unfold outcome, isNullifierUsed.
  rewrite (bind_inr _ _ w w st) by (unfold getStores; now rewrite Hs).
  rewrite (bind_inr _ _ w' w' st') by (unfold getStores; now rewrite Hs').
  rewrite Hn. destruct (nullifiers st !! nullifier) as [raw|]; [|reflexivity].
  unfold bind. rewrite (decryptKVGet_state _ _ w), (decryptKVGet_state _ _ w').
  rewrite (decryptKVGet_keys _ _ w' w Hk).
  destruct (outcome _ w) as [e|v]; [reflexivity|].
  destruct v; try reflexivity; destruct (as_nullifier _); reflexivity.
Qed.

Lemma registerNullifier_run (w : World) (st : ZeroIdStores) (kN kA : list byte)
    (nullifier credentialId appId : string) :
  storesInstance w = Some st ->
  storeKeys w !! "nullifiers" = Some kN -> length kN = 32%nat ->
  storeKeys w !! "auditLog" = Some kA -> length kA = 32%nat ->
  registerNullifier nullifier credentialId appId w
  = (inr tt,
     set_stores
       (Some (with_log
                (log_record
                   (sealed kA (next_bytes 12 (set_drawn (drawn w + 12) w))
                      (json_stringify
                         (audit_json
                            (register_entry nullifier (clock w (S (ticks w))) appId)))))
                (kv_write NullifierKV nullifier
                   (kv_record
                      (sealed kN (next_bytes 12 w)
                         (json_stringify
                            (nullifier_json (registered_entry w credentialId appId)))))
                   st)))
       (set_drawn (drawn w + 12 + 12) (set_ticks (S (S (ticks w))) w))).
Proof.
  intros Hs HkN HlN HkA HlA. unfold registerNullifier.
  rewrite (bind_inr _ _ w w st) by (unfold getStores; now rewrite Hs).
  unfold Date_now at 1. unfold bind at 1. world_simpl.
  erewrite bind_inr; cycle 1.
  { eapply encryptedKVPut_ok; world_simpl; eassumption. }
  world_simpl. rewrite Hs. cbn [fmap option_fmap option_map].
  unfold Date_now at 1. unfold bind at 1. world_simpl.
  erewrite appendAuditLog_ok; cycle 1.
  { world_simpl. reflexivity. }
  { world_simpl. eassumption. }
  { assumption. }
  reflexivity.
Qed.

(** X26: [registerNullifier] succeeds whether or not the nullifier is
    registered already, replacing an earlier registration; afterwards the
    nullifier reads as used.  It changes no other nullifier's answer, leaves
    the escrow store and the proof cache as they were, and adds one record
    to the audit log, which reads back as the [nullifier_register] entry
    with the application id. *)
Theorem registerNullifier_overwrites_and_touches_nothing_else (w : World)
    (st : ZeroIdStores) (kN kA : list byte) (nullifier credentialId appId : string) :
  storesInstance w = Some st ->
  storeKeys w !! "nullifiers" = Some kN -> length kN = 32%nat ->
  storeKeys w !! "auditLog" = Some kA -> length kA = 32%nat ->
  time_value (clock w (ticks w)) -> time_value (clock w (S (ticks w))) ->
  let register := registerNullifier nullifier credentialId appId in
  let w1 := after register w in
  outcome register w = inr tt /\
  outcome (decryptKVGet (nullifierRecord w1 nullifier) "nullifiers") w1
    = inr (nullifier_json (mkNullifier true credentialId appId (clock w (ticks w)))) /\
  outcome (isNullifierUsed nullifier) w1 = inr true /\
  (forall other, other <> nullifier ->
     outcome (isNullifierUsed other) w1 = outcome (isNullifierUsed other) w) /\
  (escrow <$> storesInstance w1) = Some (escrow st) /\
  (proofCache <$> storesInstance w1) = Some (proofCache st) /\
  exists logged,
    (auditLog <$> storesInstance w1) = Some (auditLog st ++ [logged])%list /\
    outcome (readLogRecord logged) w1
      = inr (audit_json (register_entry nullifier (clock w (S (ticks w))) appId)).
Proof.
  intros Hs HkN HlN HkA HlA Ht Ht' register w1.
  pose proof (registerNullifier_run w st kN kA nullifier credentialId appId
                Hs HkN HlN HkA HlA) as Hrun.
  fold register in Hrun.
  assert (Hw1 : w1 = (register w).2) by reflexivity.
  rewrite Hrun in Hw1. cbn [snd] in Hw1.
  assert (Ho : outcome register w = inr tt) by (unfold outcome; now rewrite Hrun).
  clearbody w1. clear Hrun.
  assert (Hk1 : storeKeys w1 = storeKeys w) by (now rewrite Hw1).
  set (record := kv_record
                   (sealed kN (next_bytes 12 w)
                      (json_stringify
                         (nullifier_json (registered_entry w credentialId appId))))).
  set (logged := log_record
                   (sealed kA (next_bytes 12 (set_drawn (drawn w + 12) w))
                      (json_stringify
                         (audit_json
                            (register_entry nullifier (clock w (S (ticks w))) appId))))).
  assert (Hs1 : storesInstance w1
                = Some (with_log logged (kv_write NullifierKV nullifier record st)))
    by (now rewrite Hw1).
  clear Hw1.
  assert (Hrec : nullifierRecord w1 nullifier = Some record).
  { unfold nullifierRecord. rewrite Hs1. cbn. apply lookup_insert_eq. }
  assert (Hread : decryptKVGet (Some record) "nullifiers" w1
                  = (inr (nullifier_json (registered_entry w credentialId appId)), w1)).
  { apply decryptKVGet_sealed; [now rewrite Hk1|exact HlN|].
    cbn. rewrite (time_value_safe _ Ht). reflexivity. }
  split; [exact Ho|]. split; [rewrite Hrec; unfold outcome; now rewrite Hread|].
  split; [|split; [|split; [|split]]].
  - unfold outcome, isNullifierUsed.
    rewrite (bind_inr _ _ w1 w1 _) by (unfold getStores; now rewrite Hs1).
    cbn [with_log kv_write nullifiers]. rewrite lookup_insert_eq.
    rewrite (bind_inr _ _ _ _ _ Hread).
    rewrite as_nullifier_json. reflexivity.
  - intros other Hne.
    eapply (isNullifierUsed_frame other w w1 st); [exact Hs|exact Hs1| |exact Hk1].
    cbn [with_log kv_write nullifiers]. now apply lookup_insert_ne.
  - now rewrite Hs1.
  - now rewrite Hs1.
  - exists logged. split; [now rewrite Hs1|].
    unfold outcome, logged. erewrite readLogRecord_sealed; [reflexivity| |exact HlA|].
    + now rewrite Hk1.
    + apply representable_audit; [|reflexivity]. apply time_value_safe. exact Ht'.
Qed.

End Writes.

(** A record stored on the reference platform. *)
Lemma putEscrowEntry_writes_one_record_and_one_audit_entry_witness :
  let pii := JObj [("fullName", JStr "Alice Ng"); ("countryCode", JNum 840)] in
  let key := Hex.encode (Reference.key32 x07) in
  let w := Reference.world 1700000000000 in
  let put := putEscrowEntry (P := Reference.platform) "E1" pii key "default" "cred-1" "US" in
  exists st1 logged,
    outcome put w = inr tt /\
    storesInstance (after put w) = Some st1 /\
    is_Some (escrow st1 !! "E1") /\ escrow st1 !! "E2" = None /\
    auditLog st1 = [logged] /\
    outcome (readLogRecord (P := Reference.platform) logged) (after put w)
      = inr (audit_json (create_entry "E1" 1700000000002 "default" "US" "cred-1")).
Proof.
  cbn zeta.
  destruct (putEscrowEntry_writes_one_record_and_one_audit_entry
              (L := ReferenceFacts.laws) (Reference.world 1700000000000)
              (mkStores ∅ ∅ ∅ []) (Reference.key32 x01) (Reference.key32 x02) "E1"
              (JObj [("fullName", JStr "Alice Ng"); ("countryCode", JNum 840)])
              (Hex.encode (Reference.key32 x07)) "default" "cred-1" "US")
    as (st1 & logged & Ho & Hs1 & He & Hother & _ & _ & Hlog & Hread).
  - reflexivity.
  - reflexivity.
  - reflexivity.
  - reflexivity.
  - reflexivity.
  - reflexivity.
  - unfold time_value. vm_compute. split; discriminate.
  - exists st1, logged. split; [exact Ho|]. split; [exact Hs1|]. split; [exact He|].
    split; [rewrite (Hother "E2") by discriminate; reflexivity|].
    split; [exact Hlog|exact Hread].
Defined.

(** An entry stored under the jurisdiction [toString]. *)
Lemma inherited_property_name_as_jurisdiction_expires_at_once_witness :
  let pii := JObj [("fullName", JStr "Alice Ng"); ("countryCode", JNum 840)] in
  let key := Hex.encode (Reference.key32 x07) in
  let w := Reference.world 1700000000000 in
  let put := putEscrowEntry (P := Reference.platform) "E1" pii key "default" "cred-1"
               "toString" in
  outcome put w = inr tt /\
  outcome (getEscrowEntry (P := Reference.platform) "E1" key "regulator") (after put w)
    = inl (has_expired "E1").
Proof.
  cbn zeta.
  refine ((fun H => conj (proj1 (proj2 H)) (proj2 (proj2 (proj2 H))))
            (inherited_property_name_as_jurisdiction_expires_at_once
               (L := ReferenceFacts.laws)
               (Reference.world 1700000000000) _ _ _ _ _ _ "E1" "regulator" _ _ "default"
               "cred-1" "toString" _ _ _ _ _ _ _ _ _ _ _ _ _ _)).
  - reflexivity.
  - reflexivity.
  - reflexivity.
  - reflexivity.
  - reflexivity.
  - reflexivity.
  - unfold time_value. cbn. lia.
  - reflexivity.
  - vm_compute. reflexivity.
  - reflexivity.
  - vm_compute. reflexivity.
  - vm_compute. reflexivity.
  - reflexivity.
  - vm_compute. reflexivity.
Defined.

(** A nullifier registered twice on the reference platform. *)
Lemma registerNullifier_overwrites_and_touches_nothing_else_witness :
  let w0 := Reference.world 1700000000000 in
  let w := after (registerNullifier (P := Reference.platform) "12345" "cred-1" "777") w0 in
  let again := registerNullifier (P := Reference.platform) "12345" "cred-2" "778" in
  outcome again w = inr tt /\
  outcome (isNullifierUsed (P := Reference.platform) "12345") (after again w) = inr true /\
  outcome (isNullifierUsed (P := Reference.platform) "99") (after again w) = inr false.
Proof.
  cbn zeta.
  set (w0 := Reference.world 1700000000000).
  set (w := after (registerNullifier (P := Reference.platform) "12345" "cred-1" "777") w0).
  let v := eval vm_compute in (storesInstance w) in
  match v with
  | Some ?s =>
      pose proof (registerNullifier_overwrites_and_touches_nothing_else
                    (L := ReferenceFacts.laws)
                    w s (Reference.key32 x03) (Reference.key32 x02) "12345" "cred-2" "778")
        as H
  end.
  destruct H as (Ho & _ & Hu & Hf & _).
  - vm_compute; reflexivity.
  - vm_compute; reflexivity.
  - vm_compute; reflexivity.
  - vm_compute; reflexivity.
  - vm_compute; reflexivity.
  - unfold time_value; vm_compute; split; discriminate.
  - unfold time_value; vm_compute; split; discriminate.
  - split; [exact Ho|]. split; [exact Hu|].
    rewrite (Hf "99") by discriminate. vm_compute. reflexivity.
Defined.

(** ** The audit log only grows *)

Section Trail.

Context {P : Platform}.

Lemma trail_unchanged {A} (m : M A) :
  (forall w, storesInstance (after m w) = storesInstance w) -> extends_trail m.
Proof.
  intros H w. unfold audit_trail. rewrite H. split; [|auto].
  exists []. now rewrite app_nil_r.
Qed.

Lemma trail_ret {A} (a : A) : extends_trail (ret a).
Proof. now apply trail_unchanged. Qed.

Lemma trail_throw {A} (e : Exn) : extends_trail (@throw A e).
Proof. now apply trail_unchanged. Qed.

Lemma trail_bind {A B} (m : M A) (k : A -> M B) :
  extends_trail m -> (forall a, extends_trail (k a)) -> extends_trail (bind m k).
Proof.
  intros Hm Hk w. destruct (Hm w) as [[added Ha] Hopen].
  unfold after, bind in *. destruct (m w) as [[e|a] w1]; cbn [snd] in *; [eauto|].
  destruct (Hk a w1) as [[added' Ha'] Hopen']. unfold after in *.
  split; [|auto]. exists (added ++ added')%list. now rewrite Ha', Ha, app_assoc.
Qed.

Lemma trail_try {A} (m : M A) (h : Exn -> M A) :
  extends_trail m -> (forall e, extends_trail (h e)) -> extends_trail (try_catch m h).
Proof.
  intros Hm Hh w. destruct (Hm w) as [[added Ha] Hopen].
  unfold after, try_catch in *. destruct (m w) as [[e|a] w1]; cbn [snd] in *; [|eauto].
  destruct (Hh e w1) as [[added' Ha'] Hopen']. unfold after in *.
  split; [|auto]. exists (added ++ added')%list. now rewrite Ha', Ha, app_assoc.
Qed.

Lemma trail_gets {A} (f : World -> A) : extends_trail (gets f).
Proof. now apply trail_unchanged. Qed.

Lemma trail_Date_now : extends_trail Date_now.
Proof. now apply trail_unchanged. Qed.

Lemma trail_randomBytes (n : nat) : extends_trail (randomBytes n).
Proof. now apply trail_unchanged. Qed.

Lemma trail_getStores : extends_trail getStores.
Proof.
  apply trail_unchanged. intros w. unfold after, getStores.
  destruct (storesInstance w) eqn:E; exact E.
Qed.

Lemma trail_getStoreKey (storeName : string) : extends_trail (getStoreKey storeName).
Proof.
  apply trail_unchanged. intros w. unfold after, getStoreKey.
  now destruct (storeKeys w !! storeName).
Qed.

Lemma trail_lift {A} (r : Exn + A) : extends_trail (lift r).
Proof. destruct r; [apply trail_throw|apply trail_ret]. Qed.

Lemma trail_memory (f : World -> list (string * MemoryCacheEntry)) :
  extends_trail (modify (fun w => set_memoryCache (f w) w)).
Proof. now apply trail_unchanged. Qed.

Lemma trail_ulid (f g : World -> Z) :
  extends_trail (modify (fun w => set_ulid (f w) (g w) w)).
Proof. now apply trail_unchanged. Qed.

Lemma trail_issuer (f g : World -> option EdDSAKeyPair) :
  extends_trail (modify (fun w => set_issuer (f w) (g w) w)).
Proof. now apply trail_unchanged. Qed.

Lemma trail_store_put (s : KVStore) (key : string) (r : KVRecord) :
  extends_trail (store_put s key r).
Proof.
  intros w. unfold audit_trail, after, store_put, modify. cbn [snd]. world_simpl.
  destruct (storesInstance w) as [st|]; cbn; [|split; [now exists []|auto]].
  split; [|eauto]. exists []. rewrite app_nil_r. now destruct s.
Qed.

Lemma trail_log_add (r : LogRecord) : extends_trail (log_add r).
Proof.
  intros w. unfold audit_trail, after, log_add, modify. cbn [snd]. world_simpl.
  destruct (storesInstance w) as [st|]; cbn; [|split; [now exists []|auto]].
  split; [|eauto]. now exists [r].
Qed.

Create HintDb trail discriminated.

Hint Resolve trail_ret trail_throw trail_gets trail_Date_now trail_randomBytes
  trail_getStores trail_getStoreKey trail_lift trail_memory trail_ulid trail_issuer
  trail_store_put trail_log_add : trail.

(** One step through the structure of a computation. *)
Ltac trail_step :=
  match goal with
  | |- extends_trail (bind _ _) => apply trail_bind; [|intros ?]
  | |- extends_trail (try_catch _ _) => apply trail_try; [|intros ?]
  | |- extends_trail (if ?b then _ else _) => destruct b
  | |- extends_trail (match ?x with _ => _ end) => destruct x
  | |- extends_trail _ => solve [auto with trail]
  end.

Ltac trail := cbn zeta; repeat (trail_step; cbn zeta).

Lemma trail_encrypt (plaintext : string) (key : Key) : extends_trail (encrypt plaintext key).
Proof. unfold encrypt. trail. Qed.

Lemma trail_decrypt (payload : EncryptedPayload) (key : Key) :
  extends_trail (decrypt payload key).
Proof. unfold decrypt. trail. Qed.

Hint Resolve trail_encrypt trail_decrypt : trail.

Lemma trail_encryptedKVPut (store : KVStore) (storeName key : string) (value : JValue) :
  extends_trail (encryptedKVPut store storeName key value).
Proof. unfold encryptedKVPut. trail. Qed.

Lemma trail_decryptKVGet (entry : option KVRecord) (storeName : string) :
  extends_trail (decryptKVGet entry storeName).
Proof. unfold decryptKVGet. trail. Qed.

Lemma trail_appendAuditLog (entry : AuditLogEntry) : extends_trail (appendAuditLog entry).
Proof. unfold appendAuditLog. trail. Qed.

Hint Resolve trail_encryptedKVPut trail_decryptKVGet trail_appendAuditLog : trail.

Lemma trail_putEscrowEntry (escrowId : string) (rawPII : JValue)
    (regulatorKey regulatorKeyId credentialId jurisdiction : string) :
  extends_trail
    (putEscrowEntry escrowId rawPII regulatorKey regulatorKeyId credentialId jurisdiction).
Proof. unfold putEscrowEntry. trail. Qed.

Lemma trail_getEscrowEntry (escrowId regulatorKey actorId : string) :
  extends_trail (getEscrowEntry escrowId regulatorKey actorId).
Proof. unfold getEscrowEntry. trail. Qed.

Lemma trail_rotateEscrowEntry (escrowId actorId : string) (forceErasure : bool) :
  extends_trail (rotateEscrowEntry escrowId actorId forceErasure).
Proof. unfold rotateEscrowEntry. trail. Qed.

Hint Resolve trail_putEscrowEntry trail_getEscrowEntry trail_rotateEscrowEntry : trail.

Lemma trail_purgeLoop (now : Z) (items : list (string * KVRecord)) :
  forall purged, extends_trail (purgeLoop now items purged).
Proof.
  induction items as [|item rest IH]; intros purged; cbn [purgeLoop]; [apply trail_ret|].
  apply trail_bind; [|exact IH]. unfold purgeStep. trail.
Qed.

Hint Resolve trail_purgeLoop : trail.

Lemma trail_queryLoop (limit : Z) (storeKey : list byte) (records : list LogRecord) :
  forall count entries, extends_trail (queryLoop limit storeKey records count entries).
Proof.
  induction records as [|record rest IH]; intros count entries; cbn [queryLoop];
    [apply trail_ret|].
  destruct (limit <=? count); [apply trail_ret|].
  apply trail_bind; [|intros ?; apply IH]. trail.
Qed.

Hint Resolve trail_queryLoop : trail.

Lemma trail_registerNullifier (nullifier credentialId appId : string) :
  extends_trail (registerNullifier nullifier credentialId appId).
Proof. unfold registerNullifier. trail. Qed.

Lemma trail_isNullifierUsed (nullifier : string) : extends_trail (isNullifierUsed nullifier).
Proof. unfold isNullifierUsed. trail. Qed.

Lemma trail_getCached (proofHash : string) : extends_trail (getCached proofHash).
Proof.
  unfold getCached, LRUMemoryCache.get, LRUMemoryCache.set, getCachedProofResult. trail.
Qed.

Lemma trail_setCached (proofHash : string) (v : bool) (nf : string) :
  extends_trail (setCached proofHash v nf).
Proof. unfold setCached, LRUMemoryCache.set, cacheProofResult. trail. Qed.

Hint Resolve trail_registerNullifier trail_isNullifierUsed trail_getCached
  trail_setCached : trail.

(** X27: no operation of the stores, the escrow service, the cache or the
    proof route removes or rewrites a record of the audit log, or closes
    the stores: whatever the state and whether the operation returns or
    throws, the audit log afterwards is the audit log before followed by
    the records the operation added. *)
Theorem audit_log_is_append_only :
  (forall escrowId rawPII regulatorKey regulatorKeyId credentialId jurisdiction,
      extends_trail
        (putEscrowEntry escrowId rawPII regulatorKey regulatorKeyId credentialId
           jurisdiction)) /\
  (forall escrowId regulatorKey actorId,
      extends_trail (getEscrowEntry escrowId regulatorKey actorId)) /\
  (forall escrowId actorId forceErasure,
      extends_trail (rotateEscrowEntry escrowId actorId forceErasure)) /\
  (forall escrowId requesterId, extends_trail (requestErasure escrowId requesterId)) /\
  (forall escrowId, extends_trail (escrowExists escrowId)) /\
  extends_trail purgeExpiredEscrow /\
  (forall nullifier credentialId appId,
      extends_trail (registerNullifier nullifier credentialId appId)) /\
  (forall nullifier, extends_trail (isNullifierUsed nullifier)) /\
  (forall proofHash, extends_trail (getCached proofHash)) /\
  (forall proofHash v nf, extends_trail (setCached proofHash v nf)) /\
  (forall proof publicSignals, extends_trail (proofVerifyHandler proof publicSignals)) /\
  (forall entry, extends_trail (appendAuditLog entry)) /\
  (forall limit, extends_trail (queryAuditLog limit)).
Proof.
  split; [intros; apply trail_putEscrowEntry|].
  split; [intros; apply trail_getEscrowEntry|].
  split; [intros; apply trail_rotateEscrowEntry|].
  split; [intros; apply trail_rotateEscrowEntry|].
  split; [intros; unfold escrowExists; trail|].
  split; [unfold purgeExpiredEscrow; destruct all_is_asyncIterable; trail|].
  split; [intros; apply trail_registerNullifier|].
  split; [intros; apply trail_isNullifierUsed|].
  split; [intros; apply trail_getCached|].
  split; [intros; apply trail_setCached|].
  split; [intros; unfold proofVerifyHandler, verifyProof; trail|].
  split; [intros; apply trail_appendAuditLog|].
  intros. unfold queryAuditLog. destruct all_is_asyncIterable; trail.
Qed.

End Trail.

(** ** Reading the audit log *)

Section AuditQuery.

Context {P : Platform} {L : PlatformLaws P}.


End AuditQuery.


(** ** The model on concrete inputs *)

Example hex_of_bytes : Hex.encode [x00; xff; x1a] = "00ff1a".
Proof. reflexivity. Qed.

Example bytes_of_hex_either_case : Hex.decode "00FF1a" = [x00; xff; x1a].
Proof. reflexivity. Qed.

Example bytes_of_hex_stops_at_bad_pair : Hex.decode "0azz11" = [x0a].
Proof. reflexivity. Qed.

Example retention_US : getRetentionMs "US" = Some 157788000000.
Proof. reflexivity. Qed.

Example retention_default : getRetentionMs "JP" = Some 157788000000.
Proof. reflexivity. Qed.

Example retention_inherited_key : getRetentionMs "toString" = None.
Proof. reflexivity. Qed.

Example ulid_of_first_call :
  outcome generateULID (Reference.world 1700000000000) = inr "01HF7YAT006789ABCDEF6789AB".
Proof. vm_compute. reflexivity. Qed.

Example age_before_birthday :
  computeAge (P := Reference.platform)
    (Reference.days_from_civil 1990 12 15 * Reference.msPerDay)
    (Reference.days_from_civil 2026 11 3 * Reference.msPerDay) = 35.
Proof. vm_compute. reflexivity. Qed.

Example age_on_birthday :
  computeAge (P := Reference.platform)
    (Reference.days_from_civil 1990 11 3 * Reference.msPerDay)
    (Reference.days_from_civil 2026 11 3 * Reference.msPerDay) = 36.
Proof. vm_compute. reflexivity. Qed.

(** Ten proofs, eight valid and two malformed. *)
Example aggregate_of_ten :
  let good := mkProofEntry (JObj [("pi_a", JBool true)]) ["1"] in
  let malformed := mkProofEntry (JObj []) ["1"] in
  let r := aggregateProofs (P := Reference.platform)
             [good; good; malformed; good; good; good; malformed; good; good; good] JNull in
  total r = 10 /\ validCount r = 8 /\ allValid r = false /\
  results r !! 2%nat = Some (mkResultEntry 2 false (Some "Invalid proof")).
Proof. cbn zeta. repeat split; vm_compute; reflexivity. Qed.

(** A first submission, the same proof again, and another proof with the
    same nullifier. *)
Example verify_then_resubmit :
  let signals := ["1"; "2"; "18"; "408"; "777"; "12345"; "9"] in
  let first := JObj [("pi_a", JBool true)] in
  let other := JObj [("pi_a", JBool true); ("pi_b", JNull)] in
  let w := Reference.world 1700000000000 in
  let w' := after (proofVerifyHandler (P := Reference.platform) first signals) w in
  outcome (proofVerifyHandler (P := Reference.platform) first signals) w
    = inr (verified_response true "12345" false) /\
  outcome (proofVerifyHandler (P := Reference.platform) first signals) w'
    = inr (verified_response true "12345" true) /\
  outcome (proofVerifyHandler (P := Reference.platform) other signals) w'
    = inr (replay_response "12345").
Proof.
  cbn zeta. split; [vm_compute; reflexivity|].
  split; vm_compute; reflexivity.
Qed.
